(** * a1s: the live resource-table synchronisation and caching engine

    A shallow embedding of the row model ([internal/model1]), the TTL cache
    ([internal/aws], cache.go), the synchronisation engine
    ([internal/model/table_data.go]) and the filter layer of the table view
    ([internal/ui/table.go]), with the properties the specification states
    about them.

    Conventions.  A Go [string] is a Rocq [string] (a sequence of bytes), and
    a loop over its runes decodes UTF-8 as the Go runtime does; a Go
    slice is a [list]; a Go [map[string]V] is a [gmap string V]; [int] and
    [int64] are [Z], with the 64-bit wrap-around written out where the code
    does arithmetic on parsed input; [time.Time] and [time.Duration] are [Z]
    (nanoseconds), and every call that reads the clock takes the reading as
    an argument. *)

From Stdlib Require Import ZArith Ascii String List Lia.
From stdpp Require Import gmap strings list fin_maps.

Local Open Scope string_scope.
Local Open Scope list_scope.
Local Open Scope Z_scope.

(* ===================================================================== *)
(** * Package model1: headers, rows, deltas, row events                  *)
(* ===================================================================== *)

Module model1.

(** ** header.go *)

(** [Attrs]: the column attributes.  [Decorator] is a function value that no
    property below reads; it is left out. *)
Record Attrs := mkAttrs {
  Align : Z;
  Wide : bool;
  Time : bool;
  Capacity : bool;
  Hide : bool
}.

Record HeaderColumn := mkHeaderColumn {
  Name : string;
  attrs : Attrs
}.

Abbreviation Header := (list HeaderColumn) (only parsing).

(** [func (h Header) IsTimeCol(col int) bool] *)
Definition IsTimeCol (h : Header) (col : Z) : bool :=
  if (col <? 0) || (col >=? Z.of_nat (length h)) then false
  else match h !! Z.to_nat col with
       | Some c => Time (attrs c)
       | None => false
       end.

(** [func (h Header) IsCapacityCol(col int) bool] *)
Definition IsCapacityCol (h : Header) (col : Z) : bool :=
  if (col <? 0) || (col >=? Z.of_nat (length h)) then false
  else match h !! Z.to_nat col with
       | Some c => Capacity (attrs c)
       | None => false
       end.

(** [func (h Header) IndexOf(colName string, includeWide bool) (int, bool)] *)
Fixpoint IndexOf_from (i : Z) (h : Header) (colName : string) (includeWide : bool)
  : Z * bool :=
  match h with
  | [] => (-1, false)
  | c :: h' =>
      if Wide (attrs c) && negb includeWide then IndexOf_from (i + 1) h' colName includeWide
      else if String.eqb (Name c) colName then (i, true)
      else IndexOf_from (i + 1) h' colName includeWide
  end.

Definition IndexOf (h : Header) (colName : string) (includeWide : bool) : Z * bool :=
  IndexOf_from 0 h colName includeWide.

(** ** row.go *)

Abbreviation Fields := (list string) (only parsing).

Record Row := mkRow {
  ID : string;
  RowFields : Fields
}.

(** [func NewRow(size int) Row]: [size] empty fields and the empty id. *)
Definition NewRow (size : nat) : Row := mkRow "" (replicate size "").

(** ** delta_row.go *)

Abbreviation DeltaRow := (list string) (only parsing).

(** The loop body of [NewDeltaRow] at index [i] with old value [old]: the
    slot keeps its zero value (the empty string) unless the three guards
    pass. *)
Definition delta_at (n : Row) (h : Header) (i : nat) (old : string) : string :=
  match RowFields n !! i with
  | None => ""                          (* i >= len(n.Fields): continue *)
  | Some new =>
      if negb (String.eqb old "") && negb (String.eqb old new)
         && negb (IsTimeCol h (Z.of_nat i))
      then old else ""
  end.

(** [func NewDeltaRow(o, n Row, h Header) DeltaRow] *)
Definition NewDeltaRow (o n : Row) (h : Header) : DeltaRow :=
  imap (delta_at n h) (RowFields o).

(** [func (d DeltaRow) IsBlank() bool] *)
Definition IsBlank (d : DeltaRow) : bool :=
  match d with
  | [] => true
  | _ => forallb (fun v => String.eqb v "") d
  end.

(** ** row_event.go *)

(** [type ResEvent int], with the constants [1 << iota]. *)
Abbreviation ResEvent := Z (only parsing).
Definition EventUnchanged : ResEvent := Z.shiftl 1 0.
Definition EventAdd : ResEvent := Z.shiftl 1 1.
Definition EventUpdate : ResEvent := Z.shiftl 1 2.
Definition EventDelete : ResEvent := Z.shiftl 1 3.
Definition EventClear : ResEvent := Z.shiftl 1 4.

Record RowEvent := mkRowEvent {
  Kind : ResEvent;
  EvRow : Row;
  Deltas : DeltaRow
}.

(** [func NewRowEvent(kind ResEvent, row Row) RowEvent] *)
Definition NewRowEvent (kind : ResEvent) (row : Row) : RowEvent :=
  mkRowEvent kind row [].

(** [type RowEvents struct { events []RowEvent; index map[string]int }] *)
Record RowEvents := mkRowEvents {
  events : list RowEvent;
  index : gmap string Z
}.

(** [func NewRowEvents(size int) *RowEvents]: [size] is only a capacity. *)
Definition NewRowEvents (size : Z) : RowEvents := mkRowEvents [] ∅.

(** [func (r *RowEvents) reindex()]: one map write per event, in order. *)
Fixpoint reindex_from (i : Z) (evs : list RowEvent) (ix : gmap string Z)
  : gmap string Z :=
  match evs with
  | [] => ix
  | e :: evs' => reindex_from (i + 1) evs' (<[ID (EvRow e) := i]> ix)
  end.

Definition reindex (r : RowEvents) : RowEvents :=
  mkRowEvents (events r) (reindex_from 0 (events r) (index r)).

(** [func (r *RowEvents) At(i int) (RowEvent, bool)] *)
Definition At (r : RowEvents) (i : Z) : RowEvent * bool :=
  let zero := mkRowEvent 0 (mkRow "" []) [] in
  if (i <? 0) || (i >=? Z.of_nat (length (events r))) then (zero, false)
  else match events r !! Z.to_nat i with
       | Some e => (e, true)
       | None => (zero, false)
       end.

(** [func (r *RowEvents) Add(re RowEvent)] *)
Definition Add (r : RowEvents) (re : RowEvent) : RowEvents :=
  let evs := events r ++ [re] in
  mkRowEvents evs (<[ID (EvRow re) := Z.of_nat (length evs) - 1]> (index r)).

(** [func (r *RowEvents) Len() int], [Count] and [Empty] *)
Definition Len (r : RowEvents) : Z := Z.of_nat (length (events r)).
Definition Count (r : RowEvents) : Z := Z.of_nat (length (events r)).
Definition Empty (r : RowEvents) : bool := Z.of_nat (length (events r)) =? 0.

(** [func (r *RowEvents) FindIndex(id string) (int, bool)]: a missing key
    reads as the zero value of [int]. *)
Definition FindIndex (r : RowEvents) (id : string) : Z * bool :=
  match index r !! id with
  | Some i => (i, true)
  | None => (0, false)
  end.

(** [func (r *RowEvents) Get(id string) (RowEvent, bool)] *)
Definition Get (r : RowEvents) (id : string) : RowEvent * bool :=
  match index r !! id with
  | None => (mkRowEvent 0 (mkRow "" []) [], false)
  | Some i => At r i
  end.

(** A slice store [s[i] = x]; Go panics out of range, which is [None]. *)
Definition slice_store {A} (s : list A) (i : Z) (x : A) : option (list A) :=
  if (i <? 0) || (i >=? Z.of_nat (length s)) then None
  else Some (<[Z.to_nat i := x]> s).

(** [func (r *RowEvents) Set(i int, re RowEvent)]; [None] is the panic of an
    out-of-range store. *)
Definition Set_ (r : RowEvents) (i : Z) (re : RowEvent) : option RowEvents :=
  evs ← slice_store (events r) i re;
  Some (mkRowEvents evs (<[ID (EvRow re) := i]> (index r))).

(** [func (r *RowEvents) Upsert(re RowEvent)]; [None] is the panic of an
    out-of-range store. *)
Definition Upsert (r : RowEvents) (re : RowEvent) : option RowEvents :=
  match FindIndex r (ID (EvRow re)) with
  | (idx, true) =>
      evs ← slice_store (events r) idx re;
      Some (mkRowEvents evs (index r))
  | (_, false) => Some (Add r re)
  end.

(** The error of [Delete], [fmt.Errorf("unable to delete row with id: %q", fqn)],
    kept as a value rather than as its formatted text. *)
Inductive DeleteError := UnableToDelete (fqn : string).

(** [func (r *RowEvents) Delete(fqn string) error].  The outer [option] is
    [None] when the slice expressions panic (victim out of range); the inner
    one is the returned [error]. *)
Definition Delete (r : RowEvents) (fqn : string)
  : option (RowEvents * option DeleteError) :=
  match FindIndex r fqn with
  | (_, false) => Some (r, Some (UnableToDelete fqn))
  | (victim, true) =>
      if (victim <? 0) || (victim >=? Z.of_nat (length (events r))) then None
      else
        let evs := take (Z.to_nat victim) (events r)
                   ++ drop (Z.to_nat (victim + 1)) (events r) in
        Some (reindex (mkRowEvents evs (delete fqn (index r))), None)
  end.

(** [func (r *RowEvents) Clear()] *)
Definition Clear (r : RowEvents) : RowEvents := mkRowEvents [] ∅.

(** A mutating call on a collection, and a run of such calls (a failed
    [Delete] returns its error and leaves the collection as it was). *)
Inductive Op :=
| OpAdd (re : RowEvent)
| OpUpsert (re : RowEvent)
| OpDelete (fqn : string).

Definition step (r : RowEvents) (op : Op) : option RowEvents :=
  match op with
  | OpAdd re => Some (Add r re)
  | OpUpsert re => Upsert r re
  | OpDelete fqn => fst <$> Delete r fqn
  end.

Fixpoint run (ops : list Op) (r : RowEvents) : option RowEvents :=
  match ops with
  | [] => Some r
  | op :: ops' => r' ← step r op; run ops' r'
  end.

(** Every [Add] of the run is given an identifier that the collection does
    not hold at that point. *)
Fixpoint adds_fresh (ops : list Op) (r : RowEvents) : bool :=
  match ops with
  | [] => true
  | op :: ops' =>
      match op with
      | OpAdd re => negb (snd (FindIndex r (ID (EvRow re))))
      | _ => true
      end
      && match step r op with
         | Some r' => adds_fresh ops' r'
         | None => true
         end
  end.

(** The identifier an operation (re)introduces, if any. *)
Definition introduces (id : string) (op : Op) : bool :=
  match op with
  | OpAdd re | OpUpsert re => String.eqb (ID (EvRow re)) id
  | OpDelete _ => false
  end.

(** [func (r *RowEvents) Range(f func(int, RowEvent) bool)]: the events
    handed to [f], in order, up to and including the first one [f] stops on. *)
Fixpoint Range_from (i : Z) (evs : list RowEvent) (f : Z -> RowEvent -> bool)
  : list (Z * RowEvent) :=
  match evs with
  | [] => []
  | e :: evs' => (i, e) :: (if f i e then Range_from (i + 1) evs' f else [])
  end.

Definition Range (r : RowEvents) (f : Z -> RowEvent -> bool) : list (Z * RowEvent) :=
  Range_from 0 (events r) f.

(** *** Clones

    [Row.Clone] copies the identifier and calls [Fields.Clone], which is
    declared in a file that is not among the sources: it is a parameter.
    [DeltaRow.Clone] makes a slice of the same length and copies into it. *)
Section Cloning.

Variable Fields_Clone : list string -> list string.

(** [func (r Row) Clone() Row] *)
Definition Row_Clone (r : Row) : Row := mkRow (ID r) (Fields_Clone (RowFields r)).

(** [func (d DeltaRow) Clone() DeltaRow] *)
Definition DeltaRow_Clone (d : DeltaRow) : DeltaRow := d.

(** [func (r RowEvent) Clone() RowEvent] *)
Definition RowEvent_Clone (r : RowEvent) : RowEvent :=
  mkRowEvent (Kind r) (Row_Clone (EvRow r)) (DeltaRow_Clone (Deltas r)).

(** [func (r *RowEvents) Clone() *RowEvents]: the clones are added one by
    one to a new collection. *)
Definition RowEvents_Clone (r : RowEvents) : RowEvents :=
  let re := map RowEvent_Clone (events r) in
  foldl Add (NewRowEvents (Z.of_nat (length re))) re.

End Cloning.

(** *** Delta rows as [reflect.DeepEqual] sees them

    [DeepEqual] tells a nil slice from an empty one, so [DeltaRow.Diff] is
    modelled on slice values that carry the distinction.  A nil slice has no
    element. *)
Record Slice := mkSlice {
  is_nil : bool;
  elems : list string
}.

Definition nil_slice : Slice := mkSlice true [].

Definition slice_len (s : Slice) : Z := Z.of_nat (length (elems s)).

(** [s[:hi]] and [s[lo:]], within range; slicing keeps a nil slice nil. *)
Definition slice_to (s : Slice) (hi : Z) : Slice :=
  mkSlice (is_nil s) (take (Z.to_nat hi) (elems s)).

Definition slice_from (s : Slice) (lo : Z) : Slice :=
  mkSlice (is_nil s) (drop (Z.to_nat lo) (elems s)).

Fixpoint strings_eqb (a b : list string) : bool :=
  match a, b with
  | [], [] => true
  | x :: a', y :: b' => String.eqb x y && strings_eqb a' b'
  | _, _ => false
  end.

(** [reflect.DeepEqual] on two [[]string]: both nil or both non-nil, and the
    same elements. *)
Definition DeepEqual (a b : Slice) : bool :=
  Bool.eqb (is_nil a) (is_nil b) && strings_eqb (elems a) (elems b).

(** [func (d DeltaRow) Diff(r DeltaRow, ageCol int) bool] *)
Definition DeltaRow_Diff (d r : Slice) (ageCol : Z) : bool :=
  if negb (slice_len d =? slice_len r) then true
  else if (ageCol <? 0) || (ageCol >=? slice_len d) then negb (DeepEqual d r)
  else if negb (DeepEqual (slice_to d ageCol) (slice_to r ageCol)) then true
  else if ageCol + 1 >=? slice_len d then false
  else negb (DeepEqual (slice_from d (ageCol + 1)) (slice_from r (ageCol + 1))).

(** [func (d DeltaRow) Clone() DeltaRow] on slice values: [make] never
    returns nil. *)
Definition Slice_Clone (d : Slice) : Slice := mkSlice false (elems d).

(** [func (d DeltaRow) Customize(cols []int, out DeltaRow)]: the contents of
    [out] after the call. *)
Fixpoint Customize_from (d : DeltaRow) (i : nat) (cols : list Z) (out : DeltaRow)
  : DeltaRow :=
  match cols with
  | [] => out
  | c :: cols' =>
      Customize_from d (S i) cols'
        (if c <? 0 then out
         else match d !! Z.to_nat c with
              | Some v => if (c <? Z.of_nat (length d)) && (i <? length out)%nat
                          then <[i := v]> out else out
              | None => out
              end)
  end.

Definition DeltaRow_Customize (d : DeltaRow) (cols : list Z) (out : DeltaRow) : DeltaRow :=
  if IsBlank d then out else Customize_from d 0 cols out.

(** [func (h Header) HasAge() bool] and [ColumnNames] *)
Definition ageCol : string := "AGE".

Definition HasAge (h : Header) : bool := snd (IndexOf h ageCol true).

Fixpoint ColumnNames_loop (h : Header) (wide : bool) : list string :=
  match h with
  | [] => []
  | c :: h' =>
      if negb wide && Wide (attrs c) then ColumnNames_loop h' wide
      else Name c :: ColumnNames_loop h' wide
  end.

(** [nil] and the empty slice are both the empty list here. *)
Definition ColumnNames (h : Header) (wide : bool) : list string :=
  match h with
  | [] => []
  | _ => ColumnNames_loop h wide
  end.

(** ** helpers.go: ordering *)

Definition NAValue : string := "n/a".

(** [int64] arithmetic wraps around. *)
Definition wrap64 (x : Z) : Z := (x + 2 ^ 63) mod 2 ^ 64 - 2 ^ 63.

(** A [rune] is a code point.  [for _, r := range s] decodes UTF-8: a byte
    below [0x80] is its own rune, and at any other byte the runtime's
    [decoderune] reads a sequence of two, three or four bytes.  A sequence
    that is cut short, that has a byte outside [0x80..0xBF] after the first,
    that is longer than its code point needs, or that encodes a surrogate or
    a value above [0x10FFFF] gives [RuneError], and the loop moves on by one
    byte. *)
Abbreviation rune := Z (only parsing).

Definition rune_of (a : ascii) : rune := Z.of_nat (nat_of_ascii a).

Definition RuneError : rune := 65533.

(** [locb <= b && b <= hicb] *)
Definition continuation (b : Z) : bool := (128 <=? b) && (b <=? 191).

(** [func decoderune(s string, k int) (r rune, pos int)] on the bytes from
    position [k] on (the loop only calls it inside the string): the rune and
    the number of bytes it takes. *)
Definition decoderune (s : list Z) : rune * nat :=
  let bad := (RuneError, 1%nat) in
  match s with
  | [] => bad
  | s0 :: rest =>
      if (192 <=? s0) && (s0 <? 224) then
        match rest with
        | s1 :: _ =>
            if continuation s1 then
              let r := Z.lor (Z.shiftl (Z.land s0 31) 6) (Z.land s1 63) in
              if 127 <? r then (r, 2%nat) else bad
            else bad
        | _ => bad
        end
      else if (224 <=? s0) && (s0 <? 240) then
        match rest with
        | s1 :: s2 :: _ =>
            if continuation s1 && continuation s2 then
              let r := Z.lor (Z.lor (Z.shiftl (Z.land s0 15) 12)
                                    (Z.shiftl (Z.land s1 63) 6))
                             (Z.land s2 63) in
              if (2047 <? r) && negb ((55296 <=? r) && (r <=? 57343))
              then (r, 3%nat) else bad
            else bad
        | _ => bad
        end
      else if (240 <=? s0) && (s0 <? 248) then
        match rest with
        | s1 :: s2 :: s3 :: _ =>
            if continuation s1 && continuation s2 && continuation s3 then
              let r := Z.lor (Z.lor (Z.lor (Z.shiftl (Z.land s0 7) 18)
                                           (Z.shiftl (Z.land s1 63) 12))
                                    (Z.shiftl (Z.land s2 63) 6))
                             (Z.land s3 63) in
              if (65535 <? r) && (r <=? 1114111) then (r, 4%nat) else bad
            else bad
        | _ => bad
        end
      else bad
  end.

(** The runes a [range] loop over the bytes yields; [skip] is the number of
    bytes of the rune just read that the index still has to pass. *)
Fixpoint runes_from (skip : nat) (bs : list Z) : list rune :=
  match bs with
  | [] => []
  | b :: rest =>
      match skip with
      | S k => runes_from k rest
      | O =>
          if b <? 128 then b :: runes_from 0 rest
          else let '(r, w) := decoderune bs in r :: runes_from (w - 1) rest
      end
  end.

Definition bytes_of (s : string) : list Z := map rune_of (list_ascii_of_string s).

Definition runes (s : string) : list rune := runes_from 0 (bytes_of s).

(** [func runesToNum(rr []rune) int64]: the loop runs from the last rune to
    the first, with [r += v * m] and [m *= 10] in [int64]. *)
Fixpoint runesToNum_loop (rr_rev : list rune) (r m : Z) : Z :=
  match rr_rev with
  | [] => r
  | c :: rest =>
      let v := c - rune_of "0" in
      runesToNum_loop rest (wrap64 (r + wrap64 (v * m))) (wrap64 (m * 10))
  end.

Definition runesToNum (rr : list rune) : Z := runesToNum_loop (rev rr) 0 1.

(** The [switch r] of [durationToSeconds]: the multiplier of a unit rune. *)
Definition unit_multiplier (r : rune) : option Z :=
  if r =? rune_of "y" then Some (365 * 24 * 60 * 60)
  else if r =? rune_of "d" then Some (24 * 60 * 60)
  else if r =? rune_of "h" then Some (60 * 60)
  else if r =? rune_of "m" then Some 60
  else if r =? rune_of "s" then Some 1
  else None.

Fixpoint durationToSeconds_loop (rs : list rune) (n : Z) (num : list rune) : Z :=
  match rs with
  | [] => n
  | r :: rs' =>
      match unit_multiplier r with
      | None => durationToSeconds_loop rs' n (num ++ [r])
      | Some m => durationToSeconds_loop rs' (wrap64 (n + wrap64 (runesToNum num * m))) []
      end
  end.

(** [func durationToSeconds(duration string) int64] *)
Definition durationToSeconds (duration : string) : Z :=
  if String.eqb duration "" || String.eqb duration NAValue then 0
  else durationToSeconds_loop (runes duration) 0 [].

(** [strings.ReplaceAll(s, ",", "")] *)
Fixpoint remove_commas (s : string) : string :=
  match s with
  | EmptyString => EmptyString
  | String c s' => if Ascii.eqb c "," then remove_commas s' else String c (remove_commas s')
  end.

Section Ordering.

(** [sortorder.NaturalLess] belongs to a third-party module
    (github.com/fvbommel/sortorder); the comparison functions are written
    over it. *)
Variable natural_less : string -> string -> bool.

Definition lessDuration (s1 s2 : string) : bool :=
  durationToSeconds s1 <=? durationToSeconds s2.

Definition lessCapacity (s1 s2 : string) : bool := natural_less s1 s2.

Definition lessNumber (s1 s2 : string) : bool :=
  natural_less (remove_commas s1) (remove_commas s2).

(** [func Less(isNumber, isDuration, isCapacity bool, id1, id2, v1, v2 string) bool] *)
Definition Less (isNumber isDuration isCapacity : bool) (id1 id2 v1 v2 : string) : bool :=
  let less :=
    if isNumber then lessNumber v1 v2
    else if isDuration then lessDuration v1 v2
    else if isCapacity then lessCapacity v1 v2
    else natural_less v1 v2 in
  if String.eqb v1 v2 then natural_less id1 id2 else less.

End Ordering.

(** *** The natural order of sortorder v1.1.0

    Modelled from the spec: [sortorder.NaturalLess] is not part of the
    repository; the glossary describes it as the string comparison that
    treats embedded digit runs as numbers.  The definition follows the
    published algorithm: digits sort before other bytes, other bytes compare
    bytewise, digit runs compare by length without leading zeros, then
    bytewise, then by the number of leading zeros; a string that is a proper
    prefix of the other sorts first.  The comparison functions above take
    the order as an argument; the properties of the comparator that rest on
    the order being strict and total are proved with this one. *)

Definition isdigit (b : ascii) : bool :=
  (rune_of "0" <=? rune_of b) && (rune_of b <=? rune_of "9").

Fixpoint span_while (p : ascii -> bool) (l : list ascii) : list ascii * list ascii :=
  match l with
  | c :: l' => if p c then let '(a, b) := span_while p l' in (c :: a, b) else ([], l)
  | [] => ([], [])
  end.

Fixpoint bytes_ltb (a b : list ascii) : bool :=
  match a, b with
  | [], [] => false
  | [], _ :: _ => true
  | _ :: _, [] => false
  | x :: a', y :: b' =>
      if rune_of x <? rune_of y then true
      else if rune_of y <? rune_of x then false
      else bytes_ltb a' b'
  end.

Definition bytes_eqb (a b : list ascii) : bool :=
  negb (bytes_ltb a b) && negb (bytes_ltb b a).

Fixpoint NaturalLess_loop (fuel : nat) (s1 s2 : list ascii) : bool :=
  match fuel with
  | O => false
  | S fuel' =>
      match s1, s2 with
      | c1 :: t1, c2 :: t2 =>
          let dig1 := isdigit c1 in
          let dig2 := isdigit c2 in
          if negb (Bool.eqb dig1 dig2) then dig1
          else if negb dig1 then
            if negb (Ascii.eqb c1 c2) then rune_of c1 <? rune_of c2
            else NaturalLess_loop fuel' t1 t2
          else
            let '(zeros1, r1) := span_while (Ascii.eqb "0") s1 in
            let '(zeros2, r2) := span_while (Ascii.eqb "0") s2 in
            let '(nr1, rest1) := span_while isdigit r1 in
            let '(nr2, rest2) := span_while isdigit r2 in
            if negb (length nr1 =? length nr2)%nat then (length nr1 <? length nr2)%nat
            else if negb (bytes_eqb nr1 nr2) then bytes_ltb nr1 nr2
            else if negb (length zeros1 =? length zeros2)%nat
                 then (length zeros1 <? length zeros2)%nat
            else NaturalLess_loop fuel' rest1 rest2
      | _, _ => (length s1 <? length s2)%nat
      end
  end.

Definition NaturalLess (str1 str2 : string) : bool :=
  NaturalLess_loop (S (String.length str1 + String.length str2))
    (list_ascii_of_string str1) (list_ascii_of_string str2).

(** ** table_data.go: the table snapshot

    A [*TableData] points to a struct whose [rowEvents] field is itself a
    pointer; [Clone] copies the struct and shares the collection.  Both kinds
    of object live in a store, addressed by their allocation index. *)

Abbreviation loc := nat (only parsing).

Record TableData := mkTableData {
  header : Header;
  rowEvents : loc;
  namespace : string;
  errMsg : string
}.

Record Store := mkStore {
  tables : list TableData;
  collections : list RowEvents
}.

Definition empty_store : Store := mkStore [] [].

(** Allocation appends, so a new object never aliases an older one. *)
Definition alloc_collection (r : RowEvents) (σ : Store) : loc * Store :=
  (length (collections σ), mkStore (tables σ) (collections σ ++ [r])).

Definition alloc_table (t : TableData) (σ : Store) : loc * Store :=
  (length (tables σ), mkStore (tables σ ++ [t]) (collections σ)).

Definition update_table (p : loc) (f : TableData -> TableData) (σ : Store) : Store :=
  match tables σ !! p with
  | Some t => mkStore (<[p := f t]> (tables σ)) (collections σ)
  | None => σ
  end.

Definition update_collection (q : loc) (f : RowEvents -> RowEvents) (σ : Store) : Store :=
  match collections σ !! q with
  | Some r => mkStore (tables σ) (<[q := f r]> (collections σ))
  | None => σ
  end.

(** [func NewTableData() *TableData] *)
Definition NewTableData (σ : Store) : loc * Store :=
  let '(q, σ1) := alloc_collection (NewRowEvents 10) σ in
  alloc_table (mkTableData [] q "" "") σ1.

(** [SetHeader], [SetNamespace], [SetError] *)
Definition SetHeader (p : loc) (h : Header) : Store -> Store :=
  update_table p (fun t => mkTableData h (rowEvents t) (namespace t) (errMsg t)).

Definition SetNamespace (p : loc) (ns : string) : Store -> Store :=
  update_table p (fun t => mkTableData (header t) (rowEvents t) ns (errMsg t)).

Definition SetError (p : loc) (msg : string) : Store -> Store :=
  update_table p (fun t => mkTableData (header t) (rowEvents t) (namespace t) msg).

(** The collection a table points to; a dangling pointer reads as [None]. *)
Definition table_rows (σ : Store) (p : loc) : option RowEvents :=
  t ← tables σ !! p; collections σ !! rowEvents t.

(** [func (t *TableData) Empty() bool] and [RowCount] *)
Definition TableEmpty (σ : Store) (p : loc) : option bool := Empty <$> table_rows σ p.
Definition RowCount (σ : Store) (p : loc) : option Z := Count <$> table_rows σ p.

(** [func (t *TableData) Clone() *TableData]: a new struct, the same
    collection. *)
Definition Clone (p : loc) (σ : Store) : option (loc * Store) :=
  t ← tables σ !! p; Some (alloc_table t σ).

End model1.

(* ===================================================================== *)
(** * Package aws: the TTL cache (cache.go)                              *)
(* ===================================================================== *)

Module aws.

Section Cache.

(** The cached values are [interface{}]. *)
Context {V : Type}.

Record CacheEntry := mkCacheEntry {
  Value : V;
  Timestamp : Z;
  TTL : Z;
  RefreshAt : Z
}.

Record CacheConfig := mkCacheConfig {
  DefaultTTL : Z;
  MaxEntries : Z
}.

Record ResourceCache := mkResourceCache {
  entries : gmap string CacheEntry;
  defaultTTL : Z;
  maxEntries : Z
}.

Definition second : Z := 1000000000.

(** [func NewResourceCache(cfg *CacheConfig) *ResourceCache] *)
Definition NewResourceCache (cfg : option CacheConfig) : ResourceCache :=
  let defaultTTL := 5 * second in
  let maxEntries := 1000 in
  match cfg with
  | None => mkResourceCache ∅ defaultTTL maxEntries
  | Some cfg =>
      mkResourceCache ∅
        (if DefaultTTL cfg >? 0 then DefaultTTL cfg else defaultTTL)
        (if MaxEntries cfg >? 0 then MaxEntries cfg else maxEntries)
  end.

(** [func (c *ResourceCache) Get(key string) (interface{}, bool)], with
    [now] the reading of [time.Now()]. *)
Definition Get (c : ResourceCache) (key : string) (now : Z) : option V * bool :=
  match entries c !! key with
  | None => (None, false)
  | Some entry =>
      if now >? RefreshAt entry        (* time.Now().After(entry.RefreshAt) *)
      then (None, false)
      else (Some (Value entry), true)
  end.

(** The eviction scan of [SetWithTTL]: the [range] loop with its three
    variables, over the entries in the order the loop meets them. *)
Fixpoint oldest_scan (l : list (string * CacheEntry))
    (oldestKey : string) (oldestTime : Z) (first : bool) : string :=
  match l with
  | [] => oldestKey
  | (k, v) :: l' =>
      if first || (Timestamp v <? oldestTime)
      then oldest_scan l' k (Timestamp v) false
      else oldest_scan l' oldestKey oldestTime first
  end.

(** Go leaves the order of a [range] over a map unspecified; the order is an
    argument of the model. *)
Variable range_order : gmap string CacheEntry -> list (string * CacheEntry).

(** The eviction block of [SetWithTTL]. *)
Definition evict (c : ResourceCache) : gmap string CacheEntry :=
  if Z.of_nat (size (entries c)) >=? maxEntries c then
    let oldestKey := oldest_scan (range_order (entries c)) "" 0 true in
    if negb (String.eqb oldestKey "") then delete oldestKey (entries c)
    else entries c
  else entries c.

(** [func (c *ResourceCache) SetWithTTL(key string, value interface{}, ttl time.Duration)] *)
Definition SetWithTTL (c : ResourceCache) (key : string) (value : V) (ttl : Z) (now : Z)
  : ResourceCache :=
  mkResourceCache
    (<[key := mkCacheEntry value now ttl (now + ttl)]> (evict c))
    (defaultTTL c) (maxEntries c).

(** [func (c *ResourceCache) Set(key string, value interface{})] *)
Definition Set_ (c : ResourceCache) (key : string) (value : V) (now : Z) : ResourceCache :=
  SetWithTTL c key value (defaultTTL c) now.

(** [func (c *ResourceCache) Delete(key string)] *)
Definition Delete (c : ResourceCache) (key : string) : ResourceCache :=
  mkResourceCache (delete key (entries c)) (defaultTTL c) (maxEntries c).

(** [func (c *ResourceCache) DeletePrefix(prefix string) int] *)
Definition DeletePrefix (c : ResourceCache) (prefix : string) : ResourceCache * Z :=
  if String.eqb prefix "" then (c, 0)
  else
    let kept := filter (fun kv => String.prefix prefix (fst kv) = false) (entries c) in
    (mkResourceCache kept (defaultTTL c) (maxEntries c),
     Z.of_nat (size (entries c)) - Z.of_nat (size kept)).

(** [func (c *ResourceCache) Invalidate()] and [Clear] *)
Definition Invalidate (c : ResourceCache) : ResourceCache :=
  mkResourceCache ∅ (defaultTTL c) (maxEntries c).

Definition Clear (c : ResourceCache) : ResourceCache := Invalidate c.

(** The calls of a client, each with the clock reading it met. *)
Inductive CacheOp :=
| CSet (key : string) (value : V) (now : Z)
| CSetWithTTL (key : string) (value : V) (ttl : Z) (now : Z)
| CDelete (key : string)
| CDeletePrefix (prefix : string)
| CInvalidate.

Definition cache_step (c : ResourceCache) (op : CacheOp) : ResourceCache :=
  match op with
  | CSet k v now => Set_ c k v now
  | CSetWithTTL k v ttl now => SetWithTTL c k v ttl now
  | CDelete k => Delete c k
  | CDeletePrefix p => fst (DeletePrefix c p)
  | CInvalidate => Invalidate c
  end.

Definition cache_run (ops : list CacheOp) (c : ResourceCache) : ResourceCache :=
  foldl cache_step c ops.

(** The key an operation writes, if any. *)
Definition written_key (op : CacheOp) : option string :=
  match op with
  | CSet k _ _ | CSetWithTTL k _ _ _ => Some k
  | _ => None
  end.

End Cache.

Arguments CacheEntry : clear implicits.
Arguments ResourceCache : clear implicits.
Arguments CacheOp : clear implicits.

End aws.

(* ===================================================================== *)
(** * Package model: the synchronisation engine (table_data.go)          *)
(* ===================================================================== *)

Module model.

Import model1.

Section Engine.

(** The provider objects ([dao.AWSObject]) and the errors of the data source. *)
Context {Obj : Type}.

(** What one call of [accessor.List(ctx, region)] returned.  The call is
    remote input/output: its outcome is an input of the model. *)
Inductive ListOutcome :=
| ListOk (objects : list Obj)
| ListErr (err : string).

(** [model1.Renderer], the two methods [Refresh] calls.  [Render] fills the
    row it is given and may fail. *)
Record Renderer := mkRenderer {
  RenderHeader : string -> Header;
  Render : Obj -> string -> Row -> option Row
}.

(** The errors [Refresh] returns. *)
Inductive RefreshError :=
| NoAccessor                       (* "no accessor configured" *)
| NoRenderer                       (* "no renderer configured" *)
| ListFailed (err : string).       (* "failed to list resources: %w" *)

(** A listener is known by its identity; what a listener did is recorded as
    the call it received.  Listener bodies are code of the view layer and do
    not write the engine or the snapshots. *)
Abbreviation Listener := nat (only parsing).

Inductive Notification :=
| TableNoData (l : Listener) (data : loc)
| TableDataChanged (l : Listener) (data : loc)
| TableLoadFailed (l : Listener) (err : RefreshError).

(** [type TableData struct]: [accessor] is [Some] when non-nil. *)
Record TableData := mkEngine {
  accessor : option nat;
  renderer : option Renderer;
  region : string;
  data : loc;
  refreshRate : Z;
  listeners : list Listener
}.

(** [func NewTableData(rid, factory, refreshRate) *TableData] *)
Definition NewTableData (refreshRate : Z) (σ : Store) : TableData * Store :=
  let '(d, σ') := model1.NewTableData σ in
  (mkEngine None None "" d refreshRate [], σ').

Definition SetAccessor (t : TableData) (a : option nat) : TableData :=
  mkEngine a (renderer t) (region t) (data t) (refreshRate t) (listeners t).

Definition SetRenderer (t : TableData) (r : option Renderer) : TableData :=
  mkEngine (accessor t) r (region t) (data t) (refreshRate t) (listeners t).

Definition SetRegion (t : TableData) (region : string) : TableData :=
  mkEngine (accessor t) (renderer t) region (data t) (refreshRate t) (listeners t).

Definition AddListener (t : TableData) (l : Listener) : TableData :=
  mkEngine (accessor t) (renderer t) (region t) (data t) (refreshRate t)
    (listeners t ++ [l]).

(** [RemoveListener]: the first listener equal to [l] is cut out. *)
Fixpoint remove_first (l : Listener) (ls : list Listener) : list Listener :=
  match ls with
  | [] => []
  | x :: ls' => if Nat.eqb x l then ls' else x :: remove_first l ls'
  end.

Definition RemoveListener (t : TableData) (l : Listener) : TableData :=
  mkEngine (accessor t) (renderer t) (region t) (data t) (refreshRate t)
    (remove_first l (listeners t)).

(** [func (t *TableData) Peek() *model1.TableData] *)
Definition Peek (t : TableData) (σ : Store) : option (loc * Store) :=
  Clone (data t) σ.

(** [RowCount] and [Empty] read the current snapshot. *)
Definition EngineRowCount (t : TableData) (σ : Store) : option Z := RowCount σ (data t).
Definition EngineEmpty (t : TableData) (σ : Store) : option bool := TableEmpty σ (data t).

(** The three fan-outs: the listener slice is copied, then every listener is
    called in order. *)
Definition notifyNoData (t : TableData) (d : loc) : list Notification :=
  map (fun l => TableNoData l d) (listeners t).

Definition notifyDataChanged (t : TableData) (d : loc) : list Notification :=
  map (fun l => TableDataChanged l d) (listeners t).

Definition notifyLoadFailed (t : TableData) (err : RefreshError) : list Notification :=
  map (fun l => TableLoadFailed l err) (listeners t).

(** The loop of [Refresh] over the fetched objects: a row that fails to
    render is skipped, the others are added to the collection at [q]. *)
Fixpoint render_objects (ren : Renderer) (region : string) (hdr : Header)
    (q : loc) (objects : list Obj) (σ : Store) : Store :=
  match objects with
  | [] => σ
  | obj :: objects' =>
      let row := NewRow (length hdr) in
      match Render ren obj region row with
      | None => render_objects ren region hdr q objects' σ
      | Some row' =>
          let re := NewRowEvent EventAdd row' in
          render_objects ren region hdr q objects'
            (update_collection q (fun r => Add r re) σ)
      end
  end.

(** The result of a call: the returned error, the engine and the store after
    it, and the listener calls it made, in order. *)
Record Outcome := mkOutcome {
  returned : option RefreshError;
  engine : TableData;
  store : Store;
  notified : list Notification
}.

(** [func (t *TableData) Refresh(ctx context.Context) error]; [None] stands
    for a nil dereference, which a snapshot pointer of the engine never
    meets. *)
Definition Refresh (fetched : ListOutcome) (t : TableData) (σ : Store) : option Outcome :=
  match accessor t with
  | None => Some (mkOutcome (Some NoAccessor) t σ [])
  | Some _ =>
  match renderer t with
  | None => Some (mkOutcome (Some NoRenderer) t σ [])
  | Some ren =>
  match fetched with
  | ListErr err => Some (mkOutcome (Some (ListFailed err)) t σ [])
  | ListOk objects =>
      (* newData := model1.NewTableData(); newData.SetHeader(header) *)
      let '(newData, σ1) := model1.NewTableData σ in
      let hdr := RenderHeader ren (region t) in
      let σ2 := SetHeader newData hdr σ1 in
      (* rowEvents := model1.NewRowEvents(len(objects)); the loop *)
      let '(rowEvents, σ3) :=
        alloc_collection (NewRowEvents (Z.of_nat (length objects))) σ2 in
      let σ4 := render_objects ren (region t) hdr rowEvents objects σ3 in
      (* oldEmpty := t.data.Empty(); t.data = newData *)
      oldEmpty ← TableEmpty σ4 (data t);
      let t' := mkEngine (accessor t) (renderer t) (region t) newData
                  (refreshRate t) (listeners t) in
      rows ← collections σ4 !! rowEvents;
      Some (mkOutcome None t' σ4
              (if Empty rows && negb oldEmpty
               then notifyNoData t' newData
               else notifyDataChanged t' newData))
  end end end.

(** What the [select] of [watchLoop] received. *)
Inductive LoopEvent :=
| Done                              (* <-ctx.Done() *)
| Tick (fetched : ListOutcome).     (* <-ticker.C, and what the fetch returned *)

(** [func (t *TableData) watchLoop(ctx context.Context)], over the events its
    [select] receives; when the events run out the loop is still waiting. *)
Fixpoint watchLoop (evs : list LoopEvent) (t : TableData) (σ : Store)
  : option (TableData * Store * list Notification) :=
  match evs with
  | [] => Some (t, σ, [])
  | Done :: _ => Some (t, σ, [])
  | Tick fetched :: evs' =>
      o ← Refresh fetched t σ;
      let failed :=
        match returned o with
        | Some err => notifyLoadFailed (engine o) err
        | None => []
        end in
      '(t', σ', later) ← watchLoop evs' (engine o) (store o);
      Some (t', σ', notified o ++ failed ++ later)
  end.

(** A run of direct [Refresh] calls, one per fetch outcome. *)
Fixpoint refreshes (fs : list ListOutcome) (t : TableData) (σ : Store)
  : option (TableData * Store * list Notification) :=
  match fs with
  | [] => Some (t, σ, [])
  | f :: fs' =>
      o ← Refresh f t σ;
      '(t', σ', later) ← refreshes fs' (engine o) (store o);
      Some (t', σ', notified o ++ later)
  end.

(** *** Watch and Stop

    A context is known by a number; [cancelFn] holds the context of the
    running watch, and cancelling a context records it.  The loop itself
    is [watchLoop]; [Watch] only starts it. *)
Record Watching := mkWatching {
  table : TableData;
  cancelFn : option nat;
  cancelled : list nat;
  contexts : nat                     (* the contexts made so far *)
}.

Record WatchOutcome := mkWatchOutcome {
  watch_returned : option RefreshError;
  watching : Watching;
  watch_store : Store;
  watch_notified : list Notification;
  loop_started : option nat          (* the context the loop runs under *)
}.

(** [func (t *TableData) Watch(ctx context.Context) error] *)
Definition Watch (fetched : ListOutcome) (w : Watching) (σ : Store) : option WatchOutcome :=
  let cancelled' :=
    match cancelFn w with
    | Some ctx => cancelled w ++ [ctx]
    | None => cancelled w
    end in
  let watchCtx := contexts w in
  o ← Refresh fetched (table w) σ;
  let w' := mkWatching (engine o) (Some watchCtx) cancelled' (S (contexts w)) in
  match returned o with
  | Some err =>
      Some (mkWatchOutcome (Some err) w' (store o)
              (notified o ++ notifyLoadFailed (engine o) err) None)
  | None =>
      Some (mkWatchOutcome None w' (store o) (notified o) (Some watchCtx))
  end.

(** [func (t *TableData) Stop()] *)
Definition Stop (w : Watching) : Watching :=
  match cancelFn w with
  | Some ctx => mkWatching (table w) None (cancelled w ++ [ctx]) (contexts w)
  | None => w
  end.

End Engine.

Arguments ListOutcome : clear implicits.
Arguments Renderer : clear implicits.
Arguments TableData : clear implicits.
Arguments Outcome : clear implicits.
Arguments LoopEvent : clear implicits.
Arguments Watching : clear implicits.
Arguments WatchOutcome : clear implicits.

End model.

(* ===================================================================== *)
(** * Package model: the component stack (stack.go)                      *)
(* ===================================================================== *)

Module stack.

(** A [Component] is known by its identity and has a name. *)
Record Component := mkComponent {
  comp_id : nat;
  comp_name : string
}.

(** The calls the stack makes: [Stop] on a component, and the three
    methods of a [StackListener], known by its identity. *)
Inductive StackEvent :=
| Stopped (c : Component)
| StackPushed (l : nat) (c : Component)
| StackPopped (l : nat) (old : Component) (new : option Component)
| StackTop (l : nat) (c : Component).

Record Stack := mkStack {
  components : list Component;
  listeners : list nat
}.

(** [func NewStack() *Stack] *)
Definition NewStack : Stack := mkStack [] [].

(** [Empty], [IsLast], [Top], [Peek] *)
Definition Empty (s : Stack) : bool := Z.of_nat (length (components s)) =? 0.
Definition IsLast (s : Stack) : bool := Z.of_nat (length (components s)) =? 1.
Definition Top (s : Stack) : option Component :=
  if Empty s then None else last (components s).
Definition Peek (s : Stack) : list Component := components s.

(** [func (s *Stack) AddListener(l StackListener)] *)
Definition AddListener (s : Stack) (l : nat) : Stack * list StackEvent :=
  let s' := mkStack (components s) (listeners s ++ [l]) in
  (s', if negb (Empty s') then
         match Top s' with
         | Some c => [StackTop l c]
         | None => []
         end
       else []).

(** [func (s *Stack) RemoveListener(l StackListener)] *)
Fixpoint find_listener (l : nat) (i : Z) (ls : list nat) : Z :=
  match ls with
  | [] => -1
  | x :: ls' => if Nat.eqb x l then i else find_listener l (i + 1) ls'
  end.

Definition RemoveListener (s : Stack) (l : nat) : Stack :=
  let victim := find_listener l 0 (listeners s) in
  if victim =? -1 then s
  else mkStack (components s)
         (take (Z.to_nat victim) (listeners s) ++ drop (Z.to_nat (victim + 1)) (listeners s)).

(** [func (s *Stack) Push(c Component)] *)
Definition Push (s : Stack) (c : Component) : Stack * list StackEvent :=
  let stop :=
    match Top s with
    | Some top => [Stopped top]
    | None => []
    end in
  (mkStack (components s ++ [c]) (listeners s),
   stop ++ concat (map (fun l => [StackPushed l c; StackTop l c]) (listeners s))).

(** [func (s *Stack) Pop() (Component, bool)] *)
Definition Pop (s : Stack) : (option Component * bool) * Stack * list StackEvent :=
  if Empty s then ((None, false), s, [])
  else
    match last (components s) with
    | None => ((None, false), s, [])
    | Some c =>
        let s' := mkStack (removelast (components s)) (listeners s) in
        let new := Top s' in
        ((Some c, true), s',
         Stopped c ::
         concat (map (fun l =>
                        StackPopped l c new ::
                        match new with
                        | Some n => [StackTop l n]
                        | None => []
                        end) (listeners s)))
    end.

(** [func (s *Stack) Clear()]: one [Pop] per component the stack held when
    the loop started. *)
Fixpoint pops (n : nat) (s : Stack) : Stack * list StackEvent :=
  match n with
  | O => (s, [])
  | S n' =>
      let '(_, s', evs) := Pop s in
      let '(s'', evs') := pops n' s' in
      (s'', evs ++ evs')
  end.

Definition Clear (s : Stack) : Stack * list StackEvent :=
  pops (length (components s)) s.

(** [func (s *Stack) Previous() Component] *)
Definition Previous (s : Stack) : option Component :=
  if Empty s then None
  else if IsLast s then Top s
  else components s !! (length (components s) - 2)%nat.

(** [func (s *Stack) Flatten() []string] *)
Definition Flatten (s : Stack) : list string := map comp_name (components s).

End stack.

(* ===================================================================== *)
(** * Package ui: the filter layer of the table view (table.go)          *)
(* ===================================================================== *)

Module ui.

Import model1.

(** ** The presentation surface

    [tview.Table] is a third-party widget.  The model keeps what the code
    hands to it: the cells set since the last [Clear], in the order of the
    [SetCell] calls, the title and the selection.  Two surfaces that received
    the same calls show the same thing. *)

Inductive Color := ColorDefault | ColorGray | ColorYellow | ColorWhite.

Definition AlignLeft : Z := 0.
Definition AlignCenter : Z := 1.

Record Cell := mkCell {
  Text : string;
  TextColor : Color;
  CellAlign : Z;
  Expansion : Z;
  Selectable : bool;
  Bold : bool;
  Reference : option string
}.

(** [tview.NewTableCell(text)]: white is set by the callers; a new cell is
    left-aligned and selectable. *)
Definition NewTableCell (text : string) : Cell :=
  mkCell text ColorWhite AlignLeft 0 true false None.

(** The title, [fmt.Sprintf(RegionTitleFmt, resource, region, count)] or the
    variant with the filter text, kept as its arguments. *)
Inductive Title :=
| TitleNone
| TitlePlain (resource region : string) (count : Z)
| TitleFilter (resource region : string) (count : Z) (filter : string).

Record Surface := mkSurface {
  cells : list (Z * Z * Cell);
  title : Title;
  selection : Z * Z
}.

(** [GetRowCount]: the widget has as many rows as the highest row set asks
    for. *)
Definition GetRowCount (s : Surface) : Z :=
  foldr (fun c acc => Z.max (fst (fst c) + 1) acc) 0 (cells s).

Definition SurfaceClear (s : Surface) : Surface := mkSurface [] (title s) (selection s).

Definition SetCell (row col : Z) (c : Cell) (s : Surface) : Surface :=
  mkSurface (cells s ++ [(row, col, c)]) (title s) (selection s).

Definition SetTitle (ttl : Title) (s : Surface) : Surface :=
  mkSurface (cells s) ttl (selection s).

Definition Select (row col : Z) (s : Surface) : Surface :=
  mkSurface (cells s) (title s) (row, col).

(** ** The table *)

(** [type Table struct].  [modelNamespace] is [None] when [t.model] is nil
    and otherwise what [t.model.GetNamespace()] returns; [resource] is
    [t.resourceID.String()]. *)
Record Table := mkTable {
  surface : Surface;
  resource : string;
  modelNamespace : option string;
  tblHeader : Header;
  sortColName : string;
  filterText : string;
  filterActive : bool;
  fullData : option loc;
  isUpdating : bool
}.

Definition with_surface (t : Table) (s : Surface) : Table :=
  mkTable s (resource t) (modelNamespace t) (tblHeader t) (sortColName t)
    (filterText t) (filterActive t) (fullData t) (isUpdating t).

Definition with_filter (t : Table) (text : string) (active : bool) : Table :=
  mkTable (surface t) (resource t) (modelNamespace t) (tblHeader t) (sortColName t)
    text active (fullData t) (isUpdating t).

Definition with_header (t : Table) (h : Header) : Table :=
  mkTable (surface t) (resource t) (modelNamespace t) h (sortColName t)
    (filterText t) (filterActive t) (fullData t) (isUpdating t).

Definition with_update (t : Table) (d : option loc) (updating : bool) : Table :=
  mkTable (surface t) (resource t) (modelNamespace t) (tblHeader t) (sortColName t)
    (filterText t) (filterActive t) d updating.

(** [strings.ToLower].  A string of ASCII bytes is lower-cased byte by byte.
    A string that has a byte of [0x80] or more goes to
    [strings.Map(unicode.ToLower, s)], which reads the case tables of the
    [unicode] package; that function is a parameter of the layer. *)
Class UnicodeLower := unicode_lower : string -> string.

Definition lower_ascii (c : ascii) : ascii :=
  let n := nat_of_ascii c in
  if (65 <=? n)%nat && (n <=? 90)%nat then ascii_of_nat (n + 32) else c.

Fixpoint lower_bytes (s : string) : string :=
  match s with
  | EmptyString => EmptyString
  | String c s' => String (lower_ascii c) (lower_bytes s')
  end.

Fixpoint isASCII (s : string) : bool :=
  match s with
  | EmptyString => true
  | String c s' => (nat_of_ascii c <? 128)%nat && isASCII s'
  end.

Definition ToLower {lower : UnicodeLower} (s : string) : string :=
  if isASCII s then lower_bytes s else unicode_lower s.

(** [strings.Contains(s, substr)] *)
Fixpoint Contains (s substr : string) : bool :=
  String.prefix substr s ||
  match s with
  | EmptyString => false
  | String _ s' => Contains s' substr
  end.

(** [func (t *Table) showNoData(msg string)] *)
Definition showNoData (msg : string) (t : Table) : Table :=
  let cell := mkCell msg ColorGray AlignCenter 0 false false None in
  with_surface t (SetCell 0 0 cell (SurfaceClear (surface t))).

(** [func (t *Table) updateTitleWithFilter()] *)
Definition updateTitleWithFilter (σ : Store) (t : Table) : option Table :=
  let usable ns := negb (String.eqb ns "") && negb (String.eqb ns "*") in
  region ←
    match modelNamespace t with
    | Some ns => Some (if usable ns then ns else "all")
    | None =>
        match fullData t with
        | Some d => td ← tables σ !! d;
                    Some (if usable (namespace td) then namespace td else "all")
        | None => Some "all"
        end
    end;
  let count :=
    match fullData t with
    | Some _ => GetRowCount (surface t) - 1
    | None => 0
    end in
  let ttl :=
    if filterActive t || negb (String.eqb (filterText t) "")
    then TitleFilter (resource t) region count (filterText t)
    else TitlePlain (resource t) region count in
  Some (with_surface t (SetTitle ttl (surface t))).

(** [func (t *Table) buildHeader(header model1.Header)] *)
Definition header_cell (sortColName : string) (h : HeaderColumn) : Cell :=
  let sorted := String.eqb (Name h) sortColName in
  mkCell (if sorted then Name h +:+ " ▼" else Name h)
    ColorYellow (Align (attrs h)) 1 false sorted None.

Fixpoint set_header_cells (sortColName : string) (col : Z) (hdr : Header)
    (s : Surface) : Surface :=
  match hdr with
  | [] => s
  | h :: hdr' =>
      set_header_cells sortColName (col + 1) hdr'
        (SetCell 0 col (header_cell sortColName h) s)
  end.

Definition buildHeader (hdr : Header) (t : Table) : Table :=
  let t1 := with_header t hdr in
  with_surface t1 (set_header_cells (sortColName t1) 0 hdr (surface t1)).

(** [func (t *Table) buildRow(row model1.Row, header model1.Header, rowIdx int)] *)
Definition row_cell (row : Row) (h : HeaderColumn) (col : Z) (field : string) : Cell :=
  mkCell field ColorWhite (Align (attrs h)) 1 true false
    (if col =? 0 then Some (ID row) else None).

Fixpoint set_row_cells (row : Row) (hdr : Header) (rowIdx : Z) (col : Z)
    (fields : list string) (s : Surface) : Surface :=
  match fields with
  | [] => s
  | field :: fields' =>
      if col >=? Z.of_nat (length hdr) then s            (* break *)
      else match hdr !! Z.to_nat col with
           | Some h =>
               set_row_cells row hdr rowIdx (col + 1) fields'
                 (SetCell rowIdx col (row_cell row h col field) s)
           | None => s
           end
  end.

Definition buildRow (row : Row) (hdr : Header) (rowIdx : Z) (t : Table) : Table :=
  with_surface t (set_row_cells row hdr rowIdx 0 (RowFields row) (surface t)).

(** The [Range] of [renderData]: row [idx] of the collection is built at
    surface row [idx + 1]. *)
Fixpoint build_rows (hdr : Header) (idx : Z) (evs : list RowEvent) (t : Table) : Table :=
  match evs with
  | [] => t
  | re :: evs' => build_rows hdr (idx + 1) evs' (buildRow (EvRow re) hdr (idx + 1) t)
  end.

(** [func (t *Table) renderData(data *model1.TableData)] *)
Definition renderData (data : option loc) (σ : Store) (t : Table) : option Table :=
  empty ← match data with
          | None => Some true
          | Some d => TableEmpty σ d
          end;
  if (empty : bool) then
    updateTitleWithFilter σ (showNoData "No matching resources" t)
  else
    d ← data;
    td ← tables σ !! d;
    rows ← collections σ !! rowEvents td;
    let t1 := with_surface t (SurfaceClear (surface t)) in
    let t2 := buildHeader (header td) t1 in
    let t3 := build_rows (header td) 0 (events rows) t2 in
    t4 ← updateTitleWithFilter σ t3;
    Some (if GetRowCount (surface t4) >? 1
          then with_surface t4 (Select 1 0 (surface t4))
          else t4).

Section Filtering.

Context {lower : UnicodeLower}.

(** The [Range] of [applyFilter]: an event is added to the filtered
    collection at [fq] when one of its fields contains the filter text. *)
Definition row_matches (filter : string) (re : RowEvent) : bool :=
  existsb (fun field => Contains (ToLower field) filter) (RowFields (EvRow re)).

Fixpoint filter_rows (filter : string) (fq : loc) (evs : list RowEvent) (σ : Store)
  : Store :=
  match evs with
  | [] => σ
  | re :: evs' =>
      filter_rows filter fq evs'
        (if row_matches filter re
         then update_collection fq (fun r => Add r re) σ
         else σ)
  end.

(** [func (t *Table) applyFilter()] *)
Definition applyFilter (σ : Store) (t : Table) : option (Table * Store) :=
  let filter := ToLower (filterText t) in
  match fullData t with
  | None => Some (t, σ)
  | Some d =>
      if String.eqb filter "" then
        t' ← renderData (Some d) σ t; Some (t', σ)
      else
        let '(filtered, σ1) := NewTableData σ in
        td ← tables σ1 !! d;
        let σ2 := SetNamespace filtered (namespace td)
                    (SetHeader filtered (header td) σ1) in
        rows ← collections σ2 !! rowEvents td;
        ftd ← tables σ2 !! filtered;
        let σ3 := filter_rows filter (rowEvents ftd) (events rows) σ2 in
        t' ← renderData (Some filtered) σ3 t;
        Some (t', σ3)
  end.

(** [func (t *Table) UpdateUI(data *model1.TableData)] *)
Definition UpdateUI (data : option loc) (σ : Store) (t : Table) : option (Table * Store) :=
  if isUpdating t then Some (t, σ)
  else
    let t1 := with_update t data true in
    let filter := filterText t1 in
    empty ← match data with
            | None => Some true
            | Some d => TableEmpty σ d
            end;
    '(t2, σ') ←
      (if (empty : bool) then
         t' ← updateTitleWithFilter σ (showNoData "No resources found" t1);
         Some (t', σ)
       else if negb (String.eqb filter "") then applyFilter σ t1
       else t' ← renderData data σ t1; Some (t', σ));
    (* the deferred reset *)
    Some (with_update t2 (fullData t2) false, σ').

(** The position of the first column called [name], from position [i] on,
    or [-1]: the search loop of [sortHandler]. *)
Fixpoint find_column (name : string) (i : Z) (h : Header) : Z :=
  match h with
  | [] => -1
  | c :: h' => if String.eqb (Name c) name then i else find_column name (i + 1) h'
  end.

(** [func (t *Table) sortHandler(evt *tcell.EventKey) *tcell.EventKey]: the
    sort column moves to the next column of the header.  [t.sortCol] takes
    the same column, and the refresh the handler starts runs on a goroutine
    of its own, after the call. *)
Definition sortHandler (t : Table) : Table :=
  match tblHeader t with
  | [] => t
  | _ :: _ =>
      let currentIdx := find_column (sortColName t) 0 (tblHeader t) in
      let nextIdx := (currentIdx + 1) mod Z.of_nat (length (tblHeader t)) in
      match tblHeader t !! Z.to_nat nextIdx with
      | Some c =>
          mkTable (surface t) (resource t) (modelNamespace t) (tblHeader t) (Name c)
            (filterText t) (filterActive t) (fullData t) (isUpdating t)
      | None => t
      end
  end.

(** The keys [handleFilterInput] tells apart; a rune key carries the bytes
    [string(evt.Rune())] appends. *)
Inductive Key :=
| KeyEsc
| KeyEnter
| KeyBackspace
| KeyRune (utf8 : string)
| KeyOther.

(** [t.filterText[:len(t.filterText)-1]] *)
Fixpoint drop_last_byte (s : string) : string :=
  match s with
  | EmptyString => EmptyString
  | String c EmptyString => EmptyString
  | String c s' => String c (drop_last_byte s')
  end.

(** [func (t *Table) handleFilterInput(evt *tcell.EventKey) *tcell.EventKey] *)
Definition handleFilterInput (k : Key) (σ : Store) (t : Table) : option (Table * Store) :=
  match k with
  | KeyEsc => applyFilter σ (with_filter t "" false)
  | KeyEnter =>
      t' ← updateTitleWithFilter σ (with_filter t (filterText t) false);
      Some (t', σ)
  | KeyBackspace => applyFilter σ (with_filter t (drop_last_byte (filterText t)) (filterActive t))
  | KeyRune utf8 => applyFilter σ (with_filter t (filterText t +:+ utf8) (filterActive t))
  | KeyOther => Some (t, σ)
  end.

(** [func (t *Table) filterHandler(evt *tcell.EventKey) *tcell.EventKey] *)
Definition filterHandler (σ : Store) (t : Table) : option (Table * Store) :=
  t' ← updateTitleWithFilter σ (with_filter t "" true);
  Some (t', σ).

(** [func (t *Table) clearFilterHandler(evt *tcell.EventKey) *tcell.EventKey] *)
Definition clearFilterHandler (σ : Store) (t : Table) : option (Table * Store) :=
  let wasActive := filterActive t || negb (String.eqb (filterText t) "") in
  let t1 := with_filter t "" false in
  if wasActive then applyFilter σ t1 else Some (t1, σ).

(** A run of filter keystrokes. *)
Fixpoint type_keys (ks : list Key) (σ : Store) (t : Table) : option (Table * Store) :=
  match ks with
  | [] => Some (t, σ)
  | k :: ks' => '(t', σ') ← handleFilterInput k σ t; type_keys ks' σ' t'
  end.

End Filtering.

End ui.
(* ===================================================================== *)
(** * Properties of the row model                                        *)
(* ===================================================================== *)

Section RowModelProperties.

Import model1.

Lemma eqb_string_neq (a b : string) : negb (String.eqb a b) = true <-> a <> b.
Proof.
  rewrite negb_true_iff. split.
  - intros H ->. by rewrite String.eqb_refl in H.
  - intros H. by apply String.eqb_neq.
Qed.

(** The slot the loop of [NewDeltaRow] leaves at a column both rows have: the
    guard on the empty old value does not show, since it keeps the slot
    empty where the old value is the empty string. *)
Lemma delta_at_changed (n : Row) (h : Header) (i : nat) (old new : string) :
  RowFields n !! i = Some new ->
  delta_at n h i old =
    if negb (String.eqb old new) && negb (IsTimeCol h (Z.of_nat i)) then old else "".
Proof.
  intros Hn. unfold delta_at. rewrite Hn.
  destruct (String.eqb old "") eqn:E; simpl; [|done].
  apply String.eqb_eq in E. subst old.
  by destruct (negb ("" =? new)%string && negb (IsTimeCol h (Z.of_nat i))).
Qed.

Lemma IsBlank_all_empty (d : DeltaRow) :
  (forall i v, d !! i = Some v -> v = "") -> IsBlank d = true.
Proof.
  intros H. destruct d as [|x d]; [done|].
  unfold IsBlank. apply forallb_forall. intros v Hv.
  apply list_elem_of_In, list_elem_of_lookup in Hv as [i Hi].
  rewrite (H _ _ Hi). done.
Qed.

(** C3.  For an old and a new row with the same number of fields,
    [NewDeltaRow] returns a delta row of the old row's length; its entry at
    column [i] is the old value when the old and the new value differ and
    column [i] is not a time column, and the empty placeholder otherwise.  In
    particular the delta row of two rows that differ only in time columns is
    blank. *)
Theorem NewDeltaRow_spec (o n : Row) (h : Header) :
  length (RowFields o) = length (RowFields n) ->
  length (NewDeltaRow o n h) = length (RowFields o)
  /\ (forall (i : nat) (old new : string),
        RowFields o !! i = Some old ->
        RowFields n !! i = Some new ->
        NewDeltaRow o n h !! i =
          Some (if negb (String.eqb old new) && negb (IsTimeCol h (Z.of_nat i))
                then old else ""))
  /\ ((forall (i : nat) (old new : string),
         RowFields o !! i = Some old ->
         RowFields n !! i = Some new ->
         old <> new -> IsTimeCol h (Z.of_nat i) = true) ->
      IsBlank (NewDeltaRow o n h) = true).
Proof.
  intros Hlen. unfold NewDeltaRow. split; [apply length_imap|]. split.
  - intros i old new Ho Hn.
    rewrite list_lookup_imap, Ho. simpl. f_equal. by apply delta_at_changed.
  - intros Honly. apply IsBlank_all_empty. intros i v Hv.
    apply list_lookup_imap_Some in Hv as (old & Ho & ->).
    assert (is_Some (RowFields n !! i)) as [new Hn].
    { apply lookup_lt_is_Some. rewrite <- Hlen. by eapply lookup_lt_Some. }
    rewrite (delta_at_changed _ _ _ _ _ Hn).
    destruct (negb (String.eqb old new)) eqn:E; [|done].
    apply eqb_string_neq in E. by rewrite (Honly _ _ _ Ho Hn E).
Qed.

Definition plain_col (name : string) : HeaderColumn :=
  mkHeaderColumn name (mkAttrs 0 false false false false).

Definition time_col (name : string) : HeaderColumn :=
  mkHeaderColumn name (mkAttrs 0 false true false false).

Lemma NewDeltaRow_spec_witness :
  let o := mkRow "i-1" ["web"; "running"; "3m"] in
  let n := mkRow "i-1" ["web"; "stopped"; "4m"] in
  let h := [plain_col "NAME"; plain_col "STATE"; time_col "AGE"] in
  length (RowFields o) = length (RowFields n)
  /\ length (NewDeltaRow o n h) = length (RowFields o)
  /\ NewDeltaRow o n h = [""; "running"; ""].
Proof.
  intros o n h.
  split; [reflexivity|].
  split; [apply (NewDeltaRow_spec o n h); reflexivity | reflexivity].
Defined.

End RowModelProperties.

(* ===================================================================== *)
(** * Properties of the ordering functions                               *)
(* ===================================================================== *)

Section DurationProperties.

Import model1.

#[local] Arguments wrap64 : simpl never.
#[local] Arguments rune_of : simpl never.
#[local] Arguments unit_multiplier : simpl never.
#[local] Arguments runesToNum : simpl never.

(** ** 64-bit wrap-around *)

Definition two64 : Z := 2 ^ 64.

(** Equality of the low 64 bits. *)
Definition eqm64 (a b : Z) : Prop := a mod two64 = b mod two64.

#[local] Instance eqm64_equiv : Equivalence eqm64.
Proof. unfold eqm64. split; red; intros; congruence. Qed.

#[local] Instance eqm64_add : Proper (eqm64 ==> eqm64 ==> eqm64) Z.add.
Proof.
  unfold eqm64. intros a a' Ha b b' Hb.
  rewrite (Zplus_mod a), (Zplus_mod a'), Ha, Hb. done.
Qed.

#[local] Instance eqm64_mul : Proper (eqm64 ==> eqm64 ==> eqm64) Z.mul.
Proof.
  unfold eqm64. intros a a' Ha b b' Hb.
  rewrite (Zmult_mod a), (Zmult_mod a'), Ha, Hb. done.
Qed.

Lemma wrap64_eqm (x : Z) : eqm64 (wrap64 x) x.
Proof.
  unfold eqm64, wrap64, two64.
  rewrite Zminus_mod, Z.mod_mod by lia.
  rewrite <- Zminus_mod. f_equal. lia.
Qed.

Lemma wrap64_congr (x y : Z) : eqm64 x y -> wrap64 x = wrap64 y.
Proof.
  unfold eqm64. intros H. unfold wrap64. f_equal.
  change (2 ^ 64) with two64.
  rewrite (Zplus_mod x), (Zplus_mod y), H. done.
Qed.

(** Two 64-bit results are equal when what they wrap agrees on the low 64
    bits, and a wrap inside another is absorbed. *)
Ltac wrap64_ring :=
  apply wrap64_congr; rewrite ?wrap64_eqm;
  match goal with |- eqm64 ?a ?b => replace a with b by ring; reflexivity end.

Lemma wrap64_idem (x : Z) : wrap64 (wrap64 x) = wrap64 x.
Proof. wrap64_ring. Qed.

Lemma wrap64_small (x : Z) : - 2 ^ 63 <= x < 2 ^ 63 -> wrap64 x = x.
Proof. intros H. unfold wrap64. rewrite Z.mod_small; lia. Qed.

(** ** The value of a digit run *)

(** The decimal value of the runes read as digits, most significant first
    (what the specification calls a digit run). *)
Definition digits_value (rr : list Z) : Z :=
  foldl (fun acc c => acc * 10 + (c - rune_of "0")) 0 rr.

(** The same value, least significant digit first, as [runesToNum] walks it. *)
Fixpoint value_lsd (rr_rev : list Z) : Z :=
  match rr_rev with
  | [] => 0
  | c :: rest => (c - rune_of "0") + 10 * value_lsd rest
  end.

Lemma digits_value_snoc (rr : list Z) (c : Z) :
  digits_value (rr ++ [c]) = digits_value rr * 10 + (c - rune_of "0").
Proof. unfold digits_value. by rewrite foldl_app. Qed.

Lemma value_lsd_rev (rr : list Z) : value_lsd (rev rr) = digits_value rr.
Proof.
  induction rr as [|c rr IH] using rev_ind; [done|].
  rewrite rev_app_distr, digits_value_snoc. simpl. rewrite IH. lia.
Qed.

Lemma runesToNum_loop_value (l : list Z) (r m : Z) :
  wrap64 r = r ->
  runesToNum_loop l r m = wrap64 (r + m * value_lsd l).
Proof.
  revert r m. induction l as [|c l IH]; intros r m Hr; simpl.
  - rewrite Z.mul_0_r, Z.add_0_r. done.
  - rewrite IH by apply wrap64_idem. wrap64_ring.
Qed.

Lemma runesToNum_value (rr : list Z) : runesToNum rr = wrap64 (digits_value rr).
Proof.
  unfold runesToNum. rewrite runesToNum_loop_value by done.
  rewrite value_lsd_rev. f_equal. lia.
Qed.

(** ** Compact durations *)

Inductive DurationUnit := Years | Days | Hours | Minutes | Seconds.

Definition unit_char (u : DurationUnit) : ascii :=
  match u with
  | Years => "y" | Days => "d" | Hours => "h" | Minutes => "m" | Seconds => "s"
  end%char.

(** The seconds in a unit, as the specification gives them. *)
Definition unit_seconds (u : DurationUnit) : Z :=
  match u with
  | Years => 365 * (24 * 3600)
  | Days => 24 * 3600
  | Hours => 3600
  | Minutes => 60
  | Seconds => 1
  end.

Definition digit_char (d : nat) : ascii := ascii_of_nat (48 + d).

#[local] Arguments digit_char : simpl never.
#[local] Arguments unit_seconds : simpl never.
#[local] Arguments unit_char : simpl never.

(** A compact duration: digit runs, each followed by its unit. *)
Definition segment_chars (seg : list nat * DurationUnit) : list ascii :=
  map digit_char (fst seg) ++ [unit_char (snd seg)].

Definition duration_string (segs : list (list nat * DurationUnit)) : string :=
  string_of_list_ascii (concat (map segment_chars segs)).

Definition segment_seconds (seg : list nat * DurationUnit) : Z :=
  digits_value (map (fun d => rune_of (digit_char d)) (fst seg)) * unit_seconds (snd seg).

Definition total_seconds (segs : list (list nat * DurationUnit)) : Z :=
  foldr (fun seg acc => segment_seconds seg + acc) 0 segs.

Definition well_formed_digits (segs : list (list nat * DurationUnit)) : Prop :=
  Forall (fun seg => Forall (fun d => (d < 10)%nat) (fst seg)) segs.

Lemma rune_of_digit_char (d : nat) : (d < 10)%nat -> rune_of (digit_char d) = 48 + Z.of_nat d.
Proof.
  intros H. unfold rune_of, digit_char.
  rewrite nat_ascii_embedding by lia. lia.
Qed.

Lemma unit_multiplier_digit (d : nat) :
  (d < 10)%nat -> unit_multiplier (rune_of (digit_char d)) = None.
Proof.
  intros H. do 10 (destruct d as [|d]; [reflexivity|]). lia.
Qed.

Lemma unit_multiplier_unit (u : DurationUnit) :
  unit_multiplier (rune_of (unit_char u)) = Some (unit_seconds u).
Proof. by destruct u. Qed.

Lemma loop_segment (ds : list nat) (u : DurationUnit) (rest : list Z) (n : Z) (num : list Z) :
  Forall (fun d => (d < 10)%nat) ds ->
  durationToSeconds_loop
    (map rune_of (map digit_char ds ++ [unit_char u]) ++ rest) n num =
  durationToSeconds_loop rest
    (wrap64 (n + wrap64 (runesToNum (num ++ map (fun d => rune_of (digit_char d)) ds)
                         * unit_seconds u))) [].
Proof.
  intros Hds. revert num.
  induction Hds as [|d ds Hd Hds IH]; intros num;
    cbn [map app durationToSeconds_loop].
  - rewrite unit_multiplier_unit, app_nil_r. done.
  - rewrite unit_multiplier_digit by done.
    rewrite IH, <- app_assoc. done.
Qed.

Lemma loop_segments (segs : list (list nat * DurationUnit)) (n : Z) :
  well_formed_digits segs ->
  wrap64 n = n ->
  durationToSeconds_loop (map rune_of (concat (map segment_chars segs))) n [] =
  wrap64 (n + total_seconds segs).
Proof.
  intros Hwf. revert n. induction Hwf as [|[ds u] segs Hds Hwf IH]; intros n Hn; simpl.
  - by rewrite Z.add_0_r.
  - rewrite map_app. unfold segment_chars at 1. simpl fst. simpl snd.
    rewrite loop_segment by done. simpl app.
    rewrite IH by apply wrap64_idem.
    rewrite runesToNum_value. unfold segment_seconds. simpl. wrap64_ring.
Qed.

(** On bytes below [0x80] the runes are the bytes. *)
Lemma runes_from_ascii (bs : list Z) :
  Forall (fun b => b < 128) bs -> runes_from 0 bs = bs.
Proof.
  induction 1 as [|b bs Hb Hbs IH]; cbn [runes_from]; [done|].
  destruct (Z.ltb_spec b 128); [|lia]. by rewrite IH.
Qed.

Lemma rune_of_ascii_char (c : ascii) (d : nat) (u : DurationUnit) :
  c = digit_char d /\ (d < 10)%nat \/ c = unit_char u -> rune_of c < 128.
Proof.
  intros [[-> Hd]| ->].
  - rewrite rune_of_digit_char by done. lia.
  - destruct u; vm_compute; done.
Qed.

Lemma runes_duration_string (segs : list (list nat * DurationUnit)) :
  well_formed_digits segs ->
  runes (duration_string segs) = map rune_of (concat (map segment_chars segs)).
Proof.
  intros Hwf. unfold runes, bytes_of, duration_string.
  rewrite list_ascii_of_string_of_list_ascii.
  apply runes_from_ascii.
  induction Hwf as [|[ds u] segs Hds Hwf IH]; cbn [map concat]; [constructor|].
  rewrite map_app. apply Forall_app. split; [|done].
  unfold segment_chars. cbn [fst snd]. rewrite map_app. apply Forall_app. split.
  - cbn [fst] in Hds. induction Hds as [|d ds Hd Hds IHds]; cbn [map]; constructor; [|done].
    apply (rune_of_ascii_char _ d u). by left.
  - cbn [map]. constructor; [|constructor].
    apply (rune_of_ascii_char _ 0%nat u). by right.
Qed.

(** A compact duration starts with a digit or a unit letter. *)
Lemma duration_string_head (segs : list (list nat * DurationUnit)) :
  well_formed_digits segs ->
  match list_ascii_of_string (duration_string segs) with
  | [] => segs = []
  | c :: _ => (exists d, (d < 10)%nat /\ c = digit_char d) \/ (exists u, c = unit_char u)
  end.
Proof.
  intros Hwf. unfold duration_string. rewrite list_ascii_of_string_of_list_ascii.
  destruct segs as [|[ds u] segs']; [done|].
  apply Forall_cons in Hwf as [Hds _]. cbn [fst] in Hds.
  cbn [map concat]. unfold segment_chars. cbn [fst snd].
  destruct ds as [|d ds']; cbn [map app].
  - right. by exists u.
  - apply Forall_cons in Hds as [Hd _]. left. by exists d.
Qed.

Lemma duration_string_plain (segs : list (list nat * DurationUnit)) :
  well_formed_digits segs ->
  duration_string segs <> NAValue.
Proof.
  intros Hwf E. pose proof (duration_string_head segs Hwf) as H.
  rewrite E in H. cbn in H. destruct H as [(d & Hd & H)|(u & H)].
  - apply (f_equal rune_of) in H. rewrite rune_of_digit_char in H by done.
    change (rune_of "n") with 110 in H. lia.
  - destruct u; vm_compute in H; discriminate.
Qed.

Lemma duration_string_empty (segs : list (list nat * DurationUnit)) :
  well_formed_digits segs -> duration_string segs = "" -> segs = [].
Proof.
  intros Hwf E. pose proof (duration_string_head segs Hwf) as H.
  by rewrite E in H.
Qed.

Lemma digits_value_nonneg (ds : list nat) :
  Forall (fun d => (d < 10)%nat) ds ->
  0 <= digits_value (map (fun d => rune_of (digit_char d)) ds).
Proof.
  induction ds as [|d ds IH] using rev_ind; intros Hds; [done|].
  apply Forall_app in Hds as [Hds Hd]. apply Forall_inv in Hd.
  rewrite map_app. cbn [map]. rewrite digits_value_snoc.
  rewrite rune_of_digit_char by done.
  change (rune_of "0") with 48. specialize (IH Hds). lia.
Qed.

Lemma total_seconds_nonneg (segs : list (list nat * DurationUnit)) :
  well_formed_digits segs -> 0 <= total_seconds segs.
Proof.
  induction 1 as [|[ds u] segs Hds Hwf IH]; cbn [total_seconds foldr]; [done|].
  fold (total_seconds segs).
  assert (0 <= segment_seconds (ds, u)); [|lia].
  unfold segment_seconds. cbn [fst snd].
  apply Z.mul_nonneg_nonneg; [by apply digits_value_nonneg|].
  destruct u; vm_compute; discriminate.
Qed.

(** C5.  [durationToSeconds] sums, over the digit runs of a compact
    duration, the value of the run times the seconds of its unit suffix
    (y = 365 days, d = 24 hours, h, m, s), as a 64-bit integer; the empty
    string and the placeholder ["n/a"] give zero.  In duration mode [Less]
    therefore puts ["90m"] before ["5h"] before ["2d"], whatever the
    identifiers and the natural order are. *)
Theorem durationToSeconds_spec (segs : list (list nat * DurationUnit)) :
  well_formed_digits segs ->
  durationToSeconds (duration_string segs) = wrap64 (total_seconds segs)
  /\ (total_seconds segs < 2 ^ 63 ->
      durationToSeconds (duration_string segs) = total_seconds segs)
  /\ durationToSeconds "" = 0
  /\ durationToSeconds "n/a" = 0
  /\ (forall (natural_less : string -> string -> bool) (id1 id2 : string),
        Less natural_less false true false id1 id2 "90m" "5h" = true
        /\ Less natural_less false true false id1 id2 "5h" "2d" = true
        /\ Less natural_less false true false id1 id2 "90m" "2d" = true
        /\ Less natural_less false true false id1 id2 "5h" "90m" = false
        /\ Less natural_less false true false id1 id2 "2d" "5h" = false
        /\ Less natural_less false true false id1 id2 "2d" "90m" = false).
Proof.
  intros Hwf.
  assert (durationToSeconds (duration_string segs) = wrap64 (total_seconds segs)) as Hmain.
  { unfold durationToSeconds.
    destruct (String.eqb_spec (duration_string segs) "") as [E|E].
    - cbn [orb]. by rewrite (duration_string_empty segs Hwf E).
    - destruct (String.eqb_spec (duration_string segs) NAValue) as [E'|E'].
      + by apply duration_string_plain in E'.
      + simpl. rewrite runes_duration_string by done.
        by rewrite loop_segments. }
  split; [done|]. split.
  - intros Hsmall. rewrite Hmain. apply wrap64_small.
    pose proof (total_seconds_nonneg segs Hwf). lia.
  - repeat split; reflexivity.
Qed.

Lemma durationToSeconds_spec_witness :
  well_formed_digits [([1], Years); ([2; 4], Hours); ([9; 0], Minutes)]%nat
  /\ durationToSeconds "1y24h90m" = 31536000 + 24 * 3600 + 90 * 60.
Proof.
  assert (well_formed_digits [([1], Years); ([2; 4], Hours); ([9; 0], Minutes)]%nat) as Hwf.
  { repeat constructor. }
  split; [exact Hwf|].
  destruct (durationToSeconds_spec _ Hwf) as (_ & Hexact & _).
  apply Hexact. reflexivity.
Defined.

(** ** The natural order

    The published algorithm of [sortorder.NaturalLess] is a strict total
    order on strings: no string is below itself, and of two distinct
    strings exactly one is below the other. *)

Lemma rune_of_inj (a b : ascii) : rune_of a = rune_of b -> a = b.
Proof.
  unfold rune_of. intros H. apply Nat2Z.inj in H.
  rewrite <- (ascii_nat_embedding a), <- (ascii_nat_embedding b). by rewrite H.
Qed.

Lemma bytes_ltb_irrefl (a : list ascii) : bytes_ltb a a = false.
Proof. induction a as [|x a IH]; [done|]. cbn. by rewrite Z.ltb_irrefl. Qed.

Lemma bytes_ltb_total (a b : list ascii) :
  a <> b -> bytes_ltb a b = negb (bytes_ltb b a).
Proof.
  revert b. induction a as [|x a IH]; intros [|y b] Hne; try done.
  cbn. destruct (Z.ltb_spec (rune_of x) (rune_of y)),
                (Z.ltb_spec (rune_of y) (rune_of x)); try done; try lia.
  apply IH. intros ->. apply Hne. f_equal. apply rune_of_inj. lia.
Qed.

Lemma bytes_eqb_eq (a b : list ascii) : bytes_eqb a b = true <-> a = b.
Proof.
  unfold bytes_eqb. split.
  - intros H. destruct (decide (a = b)) as [|Hne]; [done|].
    rewrite (bytes_ltb_total a b Hne) in H. by destruct (bytes_ltb b a).
  - intros ->. by rewrite bytes_ltb_irrefl.
Qed.

Lemma span_while_app (p : ascii -> bool) (l a b : list ascii) :
  span_while p l = (a, b) -> l = a ++ b.
Proof.
  revert a b. induction l as [|c l IH]; intros a b; cbn.
  - by intros [= <- <-].
  - destruct (p c).
    + destruct (span_while p l) as [a' b'] eqn:E. intros [= <- <-].
      cbn. f_equal. by apply IH.
    + by intros [= <- <-].
Qed.

Lemma span_while_all (p : ascii -> bool) (l a b : list ascii) :
  span_while p l = (a, b) -> Forall (fun c => p c = true) a.
Proof.
  revert a b. induction l as [|c l IH]; intros a b; cbn.
  - intros [= <- <-]. constructor.
  - destruct (p c) eqn:Ec.
    + destruct (span_while p l) as [a' b'] eqn:E. intros [= <- <-].
      constructor; [done|]. by eapply IH.
    + intros [= <- <-]. constructor.
Qed.

Lemma zeros_eq (a b : list ascii) :
  Forall (fun c => Ascii.eqb "0" c = true) a ->
  Forall (fun c => Ascii.eqb "0" c = true) b ->
  length a = length b -> a = b.
Proof.
  intros Ha. revert b. induction Ha as [|x a Hx Ha IH]; intros b Hb Hlen.
  - by destruct b.
  - destruct Hb as [|y b Hy Hb]; [done|].
    apply Ascii.eqb_eq in Hx, Hy. subst x y. f_equal. apply IH; [done|].
    by injection Hlen.
Qed.

(** A digit run takes at least one byte off a string that starts with a
    digit. *)
Lemma digit_run_shorter (c : ascii) (t zeros r nr rest : list ascii) :
  isdigit c = true ->
  span_while (Ascii.eqb "0") (c :: t) = (zeros, r) ->
  span_while isdigit r = (nr, rest) ->
  c :: t = zeros ++ nr ++ rest /\ (length rest <= length t)%nat.
Proof.
  intros Hc Hz Hn.
  pose proof (span_while_app _ _ _ _ Hz) as E1.
  pose proof (span_while_app _ _ _ _ Hn) as E2.
  split; [by rewrite E1, E2|].
  assert (length (c :: t) = length zeros + (length nr + length rest))%nat as Hlen
    by (by rewrite E1, E2, !length_app).
  cbn [length] in Hlen.
  assert (0 < length zeros + length nr)%nat; [|lia].
  cbn [span_while] in Hz. destruct (Ascii.eqb "0" c).
  - destruct (span_while (Ascii.eqb "0") t) as [a b]. injection Hz as <- <-. cbn. lia.
  - injection Hz as <- <-. cbn [span_while] in Hn. rewrite Hc in Hn.
    destruct (span_while isdigit t) as [a b]. injection Hn as <- <-. cbn. lia.
Qed.

#[local] Arguments span_while : simpl never.
#[local] Arguments isdigit : simpl never.
#[local] Arguments bytes_ltb : simpl never.
#[local] Arguments bytes_eqb : simpl never.

Lemma NaturalLess_loop_irrefl (fuel : nat) (s : list ascii) :
  NaturalLess_loop fuel s s = false.
Proof.
  revert s. induction fuel as [|fuel IH]; intros s; [done|].
  cbn [NaturalLess_loop]. destruct s as [|c t]; [done|].
  rewrite Bool.eqb_reflx. cbn [negb].
  destruct (isdigit c) eqn:Ed; cbn [negb].
  - destruct (span_while (Ascii.eqb "0") (c :: t)) as [zeros r].
    destruct (span_while isdigit r) as [nr rest].
    rewrite !Nat.eqb_refl. cbn [negb].
    rewrite (proj2 (bytes_eqb_eq nr nr) eq_refl). cbn [negb]. apply IH.
  - rewrite Ascii.eqb_refl. cbn [negb]. apply IH.
Qed.

Lemma NaturalLess_loop_total (f1 f2 : nat) (s1 s2 : list ascii) :
  (length s1 + length s2 < f1)%nat -> (length s1 + length s2 < f2)%nat ->
  s1 <> s2 ->
  NaturalLess_loop f1 s1 s2 = negb (NaturalLess_loop f2 s2 s1).
Proof.
  revert f2 s1 s2. induction f1 as [|f1 IH]; intros f2 s1 s2 H1 H2 Hne; [lia|].
  destruct f2 as [|f2]; [lia|].
  cbn [NaturalLess_loop].
  destruct s1 as [|c1 t1], s2 as [|c2 t2]; try done.
  cbn [length] in H1, H2.
  destruct (isdigit c1) eqn:Ed1, (isdigit c2) eqn:Ed2; cbn [Bool.eqb negb]; try done.
  - destruct (span_while (Ascii.eqb "0") (c1 :: t1)) as [zeros1 r1] eqn:Ez1.
    destruct (span_while (Ascii.eqb "0") (c2 :: t2)) as [zeros2 r2] eqn:Ez2.
    destruct (span_while isdigit r1) as [nr1 rest1] eqn:En1.
    destruct (span_while isdigit r2) as [nr2 rest2] eqn:En2.
    destruct (digit_run_shorter _ _ _ _ _ _ Ed1 Ez1 En1) as [E1 L1].
    destruct (digit_run_shorter _ _ _ _ _ _ Ed2 Ez2 En2) as [E2 L2].
    rewrite (Nat.eqb_sym (length nr2)).
    destruct (Nat.eqb_spec (length nr1) (length nr2)) as [Hlen|Hlen]; cbn [negb].
    2:{ destruct (Nat.ltb_spec (length nr1) (length nr2)),
                 (Nat.ltb_spec (length nr2) (length nr1)); try done; lia. }
    destruct (decide (nr1 = nr2)) as [Hnr|Hnr].
    2:{ assert (bytes_eqb nr1 nr2 = false) as ->.
        { apply not_true_is_false. by rewrite bytes_eqb_eq. }
        assert (bytes_eqb nr2 nr1 = false) as ->.
        { apply not_true_is_false. rewrite bytes_eqb_eq. congruence. }
        cbn [negb]. by apply bytes_ltb_total. }
    subst nr2. rewrite (proj2 (bytes_eqb_eq nr1 nr1) eq_refl). cbn [negb].
    rewrite (Nat.eqb_sym (length zeros2)).
    destruct (Nat.eqb_spec (length zeros1) (length zeros2)) as [Hz|Hz]; cbn [negb].
    2:{ destruct (Nat.ltb_spec (length zeros1) (length zeros2)),
                 (Nat.ltb_spec (length zeros2) (length zeros1)); try done; lia. }
    assert (zeros1 = zeros2) as ->.
    { apply zeros_eq; [by eapply span_while_all..|done]. }
    apply IH; [lia..|]. intros ->. apply Hne. by rewrite E1, E2.
  - destruct (Ascii.eqb_spec c1 c2) as [->|Hc].
    + rewrite Ascii.eqb_refl. cbn [negb]. apply IH; [lia..|]. congruence.
    + destruct (Ascii.eqb_spec c2 c1) as [->|_]; [done|]. cbn [negb].
      destruct (Z.ltb_spec (rune_of c1) (rune_of c2)),
               (Z.ltb_spec (rune_of c2) (rune_of c1)); try done; try lia.
      exfalso. apply Hc, rune_of_inj. lia.
Qed.

Lemma length_list_ascii_of_string (s : string) :
  length (list_ascii_of_string s) = String.length s.
Proof. induction s as [|c s IH]; cbn; [done|]. by rewrite IH. Qed.

Lemma NaturalLess_irrefl (s : string) : NaturalLess s s = false.
Proof. apply NaturalLess_loop_irrefl. Qed.

Lemma NaturalLess_total (a b : string) :
  a <> b -> NaturalLess a b = negb (NaturalLess b a).
Proof.
  intros Hne. unfold NaturalLess. apply NaturalLess_loop_total.
  - rewrite !length_list_ascii_of_string. lia.
  - rewrite !length_list_ascii_of_string. lia.
  - intros E. apply Hne.
    rewrite <- (string_of_list_ascii_of_string a), <- (string_of_list_ascii_of_string b).
    by rewrite E.
Qed.

(** ** The comparator *)

(** C4, as the specification states it, fails in two modes.  In duration
    mode two distinct values that parse to the same number of seconds
    compare as less in both directions; in number mode two distinct values
    that are equal once their commas are removed compare as less in neither
    direction.  The identifiers play no part in either. *)
Lemma Less_duration_both_ways :
  (Less NaturalLess false true false "i-1" "i-2" "60s" "1m" = true
   /\ Less NaturalLess false true false "i-2" "i-1" "1m" "60s" = true)
  /\ (Less NaturalLess true false false "i-1" "i-2" "1,000" "1000" = false
      /\ Less NaturalLess true false false "i-2" "i-1" "1000" "1,000" = false).
Proof. repeat split; reflexivity. Qed.

(** C4, amended.  In every mode, when the two values are equal [Less] is the
    natural-order comparison of the two identifiers, and exactly one
    direction holds when the identifiers differ.  When the values differ:
    in the default and capacity modes [Less] is the natural order of the
    values and exactly one direction holds; in number mode it is the natural
    order of the values without their commas, so exactly one direction holds
    when these differ and none when they are equal; in duration mode it is
    [d1 <= d2] on the parsed seconds, so exactly one direction holds when
    the seconds differ and both when they are equal. *)
Theorem Less_by_mode (isNumber isDuration isCapacity : bool) (id1 id2 v1 v2 : string) :
  let forth := Less NaturalLess isNumber isDuration isCapacity id1 id2 v1 v2 in
  let back := Less NaturalLess isNumber isDuration isCapacity id2 id1 v2 v1 in
  (v1 = v2 ->
     forth = NaturalLess id1 id2 /\ (id1 <> id2 -> forth = negb back))
  /\ (v1 <> v2 -> isNumber = false -> isDuration = false ->
      forth = NaturalLess v1 v2 /\ forth = negb back)
  /\ (v1 <> v2 -> isNumber = true ->
      forth = NaturalLess (remove_commas v1) (remove_commas v2)
      /\ (remove_commas v1 <> remove_commas v2 -> forth = negb back)
      /\ (remove_commas v1 = remove_commas v2 -> forth = false /\ back = false))
  /\ (v1 <> v2 -> isNumber = false -> isDuration = true ->
      forth = (durationToSeconds v1 <=? durationToSeconds v2)
      /\ (durationToSeconds v1 <> durationToSeconds v2 -> forth = negb back)
      /\ (durationToSeconds v1 = durationToSeconds v2 -> forth = true /\ back = true)).
Proof.
  cbv zeta. unfold Less, lessNumber, lessDuration, lessCapacity.
  split; [|split; [|split]].
  - intros ->. rewrite String.eqb_refl. split; [done|]. apply NaturalLess_total.
  - intros Hne -> ->.
    rewrite (proj2 (String.eqb_neq v1 v2)), (proj2 (String.eqb_neq v2 v1)) by done.
    destruct isCapacity; (split; [done|by apply NaturalLess_total]).
  - intros Hne ->.
    rewrite (proj2 (String.eqb_neq v1 v2)), (proj2 (String.eqb_neq v2 v1)) by done.
    split; [done|]. split.
    + apply NaturalLess_total.
    + intros ->. by rewrite NaturalLess_irrefl.
  - intros Hne -> ->.
    rewrite (proj2 (String.eqb_neq v1 v2)), (proj2 (String.eqb_neq v2 v1)) by done.
    split; [done|]. split.
    + intros Hd.
      destruct (Z.leb_spec (durationToSeconds v1) (durationToSeconds v2)),
               (Z.leb_spec (durationToSeconds v2) (durationToSeconds v1)); simpl; try done; lia.
    + intros ->. by rewrite Z.leb_refl.
Qed.

End DurationProperties.
(* ===================================================================== *)
(** * Properties of the row event collection                             *)
(* ===================================================================== *)

Section RowEventsProperties.

Import model1.

(** The identifiers of the events, in sequence order. *)
Definition ids (evs : list RowEvent) : list string := map (fun e => ID (EvRow e)) evs.

(** The index and the sequence agree: identifiers are not repeated, and the
    index maps an identifier to a position exactly when the event at that
    position carries it. *)
Definition consistent (r : RowEvents) : Prop :=
  NoDup (ids (events r))
  /\ forall (id : string) (i : Z),
       index r !! id = Some i <-> 0 <= i /\ ids (events r) !! Z.to_nat i = Some id.

Lemma consistent_new (size : Z) : consistent (NewRowEvents size).
Proof.
  split; [constructor|]. intros id i. simpl. rewrite lookup_empty.
  split; [done|]. intros [_ H]. done.
Qed.

Lemma consistent_missing (r : RowEvents) (id : string) :
  consistent r -> index r !! id = None -> id ∉ ids (events r).
Proof.
  intros [_ Hix] Hnone Hin.
  apply list_elem_of_lookup in Hin as [p Hp].
  assert (index r !! id = Some (Z.of_nat p)) as E; [|congruence].
  apply Hix. rewrite Nat2Z.id. split; [lia|done].
Qed.

Lemma consistent_found (r : RowEvents) (id : string) (i : Z) :
  consistent r -> index r !! id = Some i ->
  0 <= i < Z.of_nat (length (events r)) /\ ids (events r) !! Z.to_nat i = Some id.
Proof.
  intros [_ Hix] Hi. apply Hix in Hi as [Hpos Hi]. split; [|done].
  apply lookup_lt_Some in Hi. unfold ids in Hi. rewrite length_map in Hi. lia.
Qed.

(** *** Add *)

Lemma consistent_Add (r : RowEvents) (re : RowEvent) :
  consistent r -> index r !! ID (EvRow re) = None -> consistent (Add r re).
Proof.
  intros Hc Hnone. pose proof (consistent_missing _ _ Hc Hnone) as Hfresh.
  destruct Hc as [Hnd Hix]. unfold Add. split; simpl.
  - unfold ids. rewrite map_app. simpl. apply NoDup_app. split; [done|]. split.
    + intros x Hx Hx'. apply list_elem_of_singleton in Hx'. by subst x.
    + apply NoDup_singleton.
  - intros id i. unfold ids. rewrite map_app, length_app. simpl.
    fold (ids (events r)).
    assert (length (ids (events r)) = length (events r)) as Hlen
      by (unfold ids; apply length_map).
    destruct (decide (id = ID (EvRow re))) as [->|Hne].
    + rewrite lookup_insert_eq. split.
      * intros [= <-]. split; [lia|].
        replace (Z.to_nat (Z.of_nat (length (events r) + 1) - 1)) with (length (ids (events r))) by lia.
        by rewrite list_lookup_middle.
      * intros [Hpos Hi]. f_equal.
        apply lookup_app_Some in Hi as [Hi|[Hge Hi]].
        -- exfalso. apply Hfresh. by eapply list_elem_of_lookup_2.
        -- apply lookup_lt_Some in Hi. simpl in Hi. lia.
    + rewrite lookup_insert_ne by done. rewrite Hix. split.
      * intros [Hpos Hi]. split; [done|]. by apply lookup_app_l_Some.
      * intros [Hpos Hi]. split; [done|].
        apply lookup_app_Some in Hi as [Hi|[Hge Hi]]; [done|].
        apply list_lookup_singleton_Some in Hi as [_ Hi]. done.
Qed.

(** *** Upsert *)

Lemma Upsert_consistent (r : RowEvents) (re : RowEvent) :
  consistent r -> exists r', Upsert r re = Some r' /\ consistent r'.
Proof.
  intros Hc. unfold Upsert, FindIndex.
  destruct (index r !! ID (EvRow re)) as [idx|] eqn:E.
  - destruct (consistent_found _ _ _ Hc E) as [Hrange Hid].
    unfold slice_store.
    replace ((idx <? 0) || (idx >=? Z.of_nat (length (events r)))) with false by lia.
    simpl. eexists. split; [done|].
    assert (ids (<[Z.to_nat idx := re]> (events r)) = ids (events r)) as Hids.
    { unfold ids in *. rewrite list_fmap_insert. by apply list_insert_id. }
    destruct Hc as [Hnd Hix]. split; simpl; rewrite Hids; done.
  - eexists. split; [done|]. by apply consistent_Add.
Qed.

(** *** Delete *)

Lemma reindex_from_missing (evs : list RowEvent) (k : Z) (ix : gmap string Z) (id : string) :
  id ∉ ids evs -> reindex_from k evs ix !! id = ix !! id.
Proof.
  revert k ix. induction evs as [|e evs IH]; intros k ix Hid; simpl; [done|].
  simpl in Hid. apply not_elem_of_cons in Hid as [Hne Hid].
  rewrite IH by done. by rewrite lookup_insert_ne.
Qed.

Lemma reindex_from_position (evs : list RowEvent) (k : Z) (ix : gmap string Z)
    (id : string) (p : nat) :
  NoDup (ids evs) -> ids evs !! p = Some id ->
  reindex_from k evs ix !! id = Some (k + Z.of_nat p).
Proof.
  revert k ix p. induction evs as [|e evs IH]; intros k ix p Hnd Hp; simpl; [done|].
  simpl in Hnd. apply NoDup_cons in Hnd as [Hfresh Hnd].
  destruct p as [|p]; simpl in Hp.
  - injection Hp as <-. rewrite reindex_from_missing by done.
    rewrite lookup_insert_eq. f_equal. lia.
  - rewrite (IH _ _ p) by done. f_equal. lia.
Qed.

Lemma ids_take_drop (evs : list RowEvent) (v : nat) :
  ids (take v evs ++ drop (S v) evs) = delete v (ids evs).
Proof.
  unfold ids. rewrite map_app, fmap_take, fmap_drop.
  symmetry. apply delete_take_drop.
Qed.

Lemma filter_all {A} (P : A -> Prop) `{!forall x, Decision (P x)} (l : list A) :
  Forall P l -> filter P l = l.
Proof.
  induction 1 as [|x l Hx Hl IH]; [done|].
  rewrite filter_cons_True by done. by rewrite IH.
Qed.

(** Cutting the victim out keeps every other event, in the order it had. *)
Lemma cut_is_filter (evs : list RowEvent) (v : nat) (fqn : string) :
  NoDup (ids evs) -> ids evs !! v = Some fqn ->
  take v evs ++ drop (S v) evs = filter (fun e => ID (EvRow e) <> fqn) evs.
Proof.
  revert v. induction evs as [|e evs IH]; intros v Hnd Hv; [done|].
  simpl in Hnd. apply NoDup_cons in Hnd as [Hfresh Hnd].
  destruct v as [|v]; simpl in Hv.
  - injection Hv as Hv. simpl. rewrite drop_0.
    rewrite filter_cons_False by (intros H; by apply H).
    symmetry. apply filter_all. apply Forall_forall. intros x Hx Hid.
    apply Hfresh. rewrite Hv, <- Hid. unfold ids.
    apply list_elem_of_fmap. by exists x.
  - simpl. rewrite filter_cons_True.
    + f_equal. by apply IH.
    + intros Hid. apply Hfresh. rewrite Hid. by eapply list_elem_of_lookup_2.
Qed.

(** [Delete] on a consistent collection does not panic; when the identifier
    is present the result is consistent, no longer holds it, and keeps the
    other events in order; when it is absent the collection is returned as
    it was, with the error. *)
Lemma Delete_consistent (r : RowEvents) (fqn : string) :
  consistent r ->
  exists r' err, Delete r fqn = Some (r', err)
    /\ consistent r'
    /\ index r' !! fqn = None
    /\ events r' = filter (fun e => ID (EvRow e) <> fqn) (events r)
    /\ (err = None <-> is_Some (index r !! fqn))
    /\ (forall id, index r !! id = None -> index r' !! id = None).
Proof.
  intros Hc. unfold Delete, FindIndex.
  destruct (index r !! fqn) as [victim|] eqn:E.
  - destruct (consistent_found _ _ _ Hc E) as [Hrange Hid].
    replace ((victim <? 0) || (victim >=? Z.of_nat (length (events r)))) with false by lia.
    replace (Z.to_nat (victim + 1)) with (S (Z.to_nat victim)) by lia.
    destruct Hc as [Hnd Hix].
    set (evs := take (Z.to_nat victim) (events r) ++ drop (S (Z.to_nat victim)) (events r)).
    assert (ids evs = delete (Z.to_nat victim) (ids (events r))) as Hids
      by apply ids_take_drop.
    assert (NoDup (ids evs)) as Hnd'.
    { rewrite Hids. eapply sublist_NoDup; [|apply sublist_delete]. done. }
    assert (forall id, id ∈ ids evs <-> id ∈ ids (events r) /\ id <> fqn) as Hmem.
    { intros id. unfold evs. rewrite (cut_is_filter _ _ fqn) by done.
      unfold ids. rewrite !list_elem_of_fmap. split.
      - intros (e & -> & He). apply list_elem_of_filter in He as [Hne He].
        split; [by exists e|done].
      - intros [(e & -> & He) Hne]. exists e. split; [done|].
        by apply list_elem_of_filter. }
    eexists _, _. split; [done|]. simpl. fold evs.
    split; [|split; [|split; [|split]]].
    + split; [done|]. simpl. intros id i. split.
      * intros Hi.
        destruct (decide (id ∈ ids evs)) as [Hin|Hout].
        -- apply list_elem_of_lookup in Hin as [p Hp].
           rewrite (reindex_from_position _ _ _ _ p) in Hi by done.
           injection Hi as <-. split; [lia|]. by rewrite Z.add_0_l, Nat2Z.id.
        -- rewrite reindex_from_missing in Hi by done.
           exfalso. apply Hout, Hmem.
           destruct (decide (id = fqn)) as [->|Hne].
           ++ by rewrite lookup_delete_eq in Hi.
           ++ rewrite lookup_delete_ne in Hi by done.
              apply Hix in Hi as [_ Hi]. split; [|done].
              by eapply list_elem_of_lookup_2.
      * intros [Hpos Hi].
        rewrite (reindex_from_position _ _ _ _ (Z.to_nat i)) by done.
        f_equal. lia.
    + rewrite reindex_from_missing; [apply lookup_delete_eq|].
      intros Hin. apply Hmem in Hin as [_ Hne]. done.
    + by apply cut_is_filter.
    + split; [eauto|done].
    + intros id Hnone.
      assert (id ∉ ids (events r)) as Hout.
      { intros Hin. apply list_elem_of_lookup in Hin as [p Hp].
        assert (index r !! id = Some (Z.of_nat p)) as E'; [|congruence].
        apply Hix. rewrite Nat2Z.id. split; [lia|done]. }
      rewrite reindex_from_missing.
      * destruct (decide (id = fqn)) as [->|Hne];
          [apply lookup_delete_eq | by rewrite lookup_delete_ne].
      * intros Hin. apply Hmem in Hin as [Hin _]. done.
  - eexists _, _. split; [done|].
    split; [done|]. split; [done|]. split; [|split].
    + symmetry. apply filter_all, Forall_forall. intros e He Hid.
      apply (consistent_missing _ _ Hc E). rewrite <- Hid. unfold ids.
      apply list_elem_of_fmap. by exists e.
    + split; [done|]. intros [? ?]. done.
    + done.
Qed.

(** *** Runs *)

Lemma run_app (ops1 ops2 : list Op) (r : RowEvents) :
  run (ops1 ++ ops2) r = run ops1 r ≫= run ops2.
Proof.
  revert r. induction ops1 as [|op ops1 IH]; intros r; simpl; [done|].
  destruct (step r op) as [r'|]; simpl; [apply IH|done].
Qed.

Lemma step_consistent (r : RowEvents) (op : Op) :
  consistent r ->
  match op with
  | OpAdd re => snd (FindIndex r (ID (EvRow re))) = false
  | _ => True
  end ->
  exists r', step r op = Some r' /\ consistent r'.
Proof.
  intros Hc Hop. destruct op as [re|re|fqn]; simpl.
  - eexists. split; [done|]. apply consistent_Add; [done|].
    unfold FindIndex in Hop. by destruct (index r !! ID (EvRow re)).
  - by apply Upsert_consistent.
  - destruct (Delete_consistent r fqn Hc) as (r' & err & -> & Hc' & _).
    by exists r'.
Qed.

Lemma run_consistent (ops : list Op) (r : RowEvents) :
  consistent r -> adds_fresh ops r = true ->
  exists r', run ops r = Some r' /\ consistent r'.
Proof.
  revert r. induction ops as [|op ops IH]; intros r Hc Hfresh; simpl.
  - by exists r.
  - simpl in Hfresh. apply andb_true_iff in Hfresh as [Hop Hrest].
    destruct (step_consistent r op Hc) as (r' & Hstep & Hc').
    { destruct op; [|done..]. by apply negb_true_iff in Hop. }
    rewrite Hstep in Hrest |- *. simpl. by apply IH.
Qed.

Lemma adds_fresh_app (ops1 ops2 : list Op) (r r1 : RowEvents) :
  adds_fresh (ops1 ++ ops2) r = true -> run ops1 r = Some r1 ->
  adds_fresh ops1 r = true /\ adds_fresh ops2 r1 = true.
Proof.
  revert r. induction ops1 as [|op ops1 IH]; intros r Hfresh Hrun; simpl in *.
  - by injection Hrun as <-.
  - apply andb_true_iff in Hfresh as [Hop Hrest].
    destruct (step r op) as [r'|]; [|done]. simpl in Hrun.
    destruct (IH _ Hrest Hrun) as [H1 H2]. by rewrite Hop, H1.
Qed.

(** An operation that does not introduce [id] leaves [id] out of the index. *)
Lemma step_keeps_missing (r r' : RowEvents) (op : Op) (id : string) :
  consistent r -> introduces id op = false ->
  step r op = Some r' -> index r !! id = None -> index r' !! id = None.
Proof.
  intros Hc Hop Hstep Hnone. destruct op as [re|re|fqn]; simpl in *.
  - injection Hstep as <-. simpl. apply String.eqb_neq in Hop.
    by rewrite lookup_insert_ne.
  - apply String.eqb_neq in Hop. unfold Upsert, FindIndex in Hstep.
    destruct (index r !! ID (EvRow re)) as [idx|].
    + destruct (slice_store (events r) idx re); [|done].
      simpl in Hstep. by injection Hstep as <-.
    + injection Hstep as <-. simpl. by rewrite lookup_insert_ne.
  - destruct (Delete_consistent r fqn Hc) as (r1 & err & E & _ & _ & _ & _ & Hkeep).
    rewrite E in Hstep. simpl in Hstep. injection Hstep as <-. by apply Hkeep.
Qed.

Lemma run_keeps_missing (ops : list Op) (r r' : RowEvents) (id : string) :
  consistent r -> adds_fresh ops r = true ->
  forallb (fun op => negb (introduces id op)) ops = true ->
  run ops r = Some r' -> index r !! id = None -> index r' !! id = None.
Proof.
  revert r. induction ops as [|op ops IH]; intros r Hc Hfresh Hops Hrun Hnone; simpl in *.
  - by injection Hrun as <-.
  - apply andb_true_iff in Hfresh as [Hop Hrest].
    apply andb_true_iff in Hops as [Hintro Hops].
    apply negb_true_iff in Hintro.
    destruct (step_consistent r op Hc) as (r1 & Hstep & Hc1).
    { destruct op; [|done..]. by apply negb_true_iff in Hop. }
    rewrite Hstep in Hrest, Hrun. simpl in Hrun.
    apply (IH r1); try done.
    exact (step_keeps_missing r r1 op id Hc Hintro Hstep Hnone).
Qed.

(** ** The collection as the specification describes it

    An insertion-ordered sequence of events: [Add] appends the event;
    [Upsert] puts the event in the place of the one that carries its
    identifier, or appends it when no event does; [Delete] takes the event
    of the identifier out and leaves the others in the order they had.
    Nothing here mentions the index. *)

Definition carries (id : string) (e : RowEvent) : bool := String.eqb (ID (EvRow e)) id.

Definition replace_event (re e : RowEvent) : RowEvent :=
  if carries (ID (EvRow re)) e then re else e.

Definition spec_step (l : list RowEvent) (op : Op) : list RowEvent :=
  match op with
  | OpAdd re => l ++ [re]
  | OpUpsert re =>
      if existsb (carries (ID (EvRow re))) l then map (replace_event re) l else l ++ [re]
  | OpDelete fqn => filter (fun e => ID (EvRow e) <> fqn) l
  end.

Definition spec_sequence (ops : list Op) : list RowEvent := foldl spec_step [] ops.

(** The operation names the identifier. *)
Definition names (id : string) (op : Op) : bool :=
  match op with
  | OpAdd re | OpUpsert re => String.eqb (ID (EvRow re)) id
  | OpDelete fqn => String.eqb fqn id
  end.

Definition deletes (id : string) (op : Op) : bool :=
  match op with
  | OpDelete fqn => String.eqb fqn id
  | _ => false
  end.

Lemma existsb_carries (id : string) (l : list RowEvent) :
  existsb (carries id) l = true <-> id ∈ ids l.
Proof.
  rewrite existsb_exists. unfold ids, carries. rewrite list_elem_of_fmap. split.
  - intros (e & He & Hid). apply String.eqb_eq in Hid. exists e.
    split; [done|]. by apply list_elem_of_In.
  - intros (e & -> & He). exists e. split; [by apply list_elem_of_In|].
    apply String.eqb_refl.
Qed.

(** Where identifiers are not repeated, replacing by identifier is a store
    at the position of the identifier. *)
Lemma replace_event_store (l : list RowEvent) (re : RowEvent) (i : nat) :
  NoDup (ids l) -> ids l !! i = Some (ID (EvRow re)) ->
  map (replace_event re) l = <[i := re]> l.
Proof.
  revert i. induction l as [|e l IH]; intros i Hnd Hi; [done|].
  cbn in Hnd. apply NoDup_cons in Hnd as [Hfresh Hnd].
  destruct i as [|i]; cbn in Hi; cbn [map].
  - injection Hi as Hi. unfold replace_event at 1, carries. rewrite Hi, String.eqb_refl.
    cbn. f_equal. rewrite <- (list_fmap_id l) at 2. apply list_fmap_ext.
    intros j x Hx. unfold replace_event, carries.
    destruct (String.eqb_spec (ID (EvRow x)) (ID (EvRow re))) as [E|_]; [|done].
    exfalso. apply Hfresh. rewrite Hi, <- E. unfold ids.
    apply list_elem_of_fmap. exists x. split; [done|]. by eapply list_elem_of_lookup_2.
  - unfold replace_event at 1, carries.
    destruct (String.eqb_spec (ID (EvRow e)) (ID (EvRow re))) as [E|_].
    + exfalso. apply Hfresh. rewrite E. by eapply list_elem_of_lookup_2.
    + cbn. f_equal. by apply IH.
Qed.

(** Each call does to the sequence what the specification says. *)
Lemma step_refines (r : RowEvents) (op : Op) :
  consistent r ->
  match op with
  | OpAdd re => snd (FindIndex r (ID (EvRow re))) = false
  | _ => True
  end ->
  exists r', step r op = Some r' /\ consistent r'
    /\ events r' = spec_step (events r) op.
Proof.
  intros Hc Hop.
  destruct (step_consistent r op Hc Hop) as (r' & Hstep & Hc').
  exists r'. split; [done|]. split; [done|].
  destruct op as [re|re|fqn]; cbn in Hstep |- *.
  - by injection Hstep as <-.
  - unfold Upsert, FindIndex in Hstep.
    destruct (index r !! ID (EvRow re)) as [idx|] eqn:E.
    + destruct (consistent_found _ _ _ Hc E) as [Hrange Hid].
      assert (existsb (carries (ID (EvRow re))) (events r) = true) as ->.
      { apply existsb_carries. by eapply list_elem_of_lookup_2. }
      unfold slice_store in Hstep.
      destruct ((idx <? 0) || (idx >=? Z.of_nat (length (events r)))); [done|].
      cbn in Hstep. injection Hstep as <-. cbn.
      symmetry. apply replace_event_store; [apply Hc|done].
    + assert (existsb (carries (ID (EvRow re))) (events r) = false) as ->.
      { apply not_true_is_false. rewrite existsb_carries.
        by apply consistent_missing. }
      by injection Hstep as <-.
  - destruct (Delete_consistent r fqn Hc) as (r1 & err & E & _ & _ & Hev & _).
    rewrite E in Hstep. cbn in Hstep. by injection Hstep as <-.
Qed.

Lemma run_refines (ops : list Op) (r : RowEvents) :
  consistent r -> adds_fresh ops r = true ->
  exists r', run ops r = Some r' /\ consistent r'
    /\ events r' = foldl spec_step (events r) ops.
Proof.
  revert r. induction ops as [|op ops IH]; intros r Hc Hfresh; cbn [run foldl].
  - by exists r.
  - cbn in Hfresh. apply andb_true_iff in Hfresh as [Hop Hrest].
    destruct (step_refines r op Hc) as (r1 & Hstep & Hc1 & Hev1).
    { destruct op; [|done..]. by apply negb_true_iff in Hop. }
    rewrite Hstep in Hrest |- *. cbn.
    destruct (IH r1 Hc1 Hrest) as (r' & Hrun & Hc' & Hev').
    exists r'. split; [done|]. split; [done|]. by rewrite Hev', Hev1.
Qed.

(** What the sequence keeps. *)
Lemma spec_step_keeps_event (l : list RowEvent) (op : Op) (e : RowEvent) :
  e ∈ l -> names (ID (EvRow e)) op = false -> e ∈ spec_step l op.
Proof.
  intros He Hop. destruct op as [re|re|fqn]; cbn in Hop |- *.
  - apply elem_of_app. by left.
  - destruct (existsb (carries (ID (EvRow re))) l); [|apply elem_of_app; by left].
    apply list_elem_of_fmap. exists e. split; [|done].
    unfold replace_event, carries. rewrite String.eqb_sym in Hop. by rewrite Hop.
  - apply list_elem_of_filter. split; [|done].
    intros E. rewrite E, String.eqb_refl in Hop. done.
Qed.

Lemma spec_step_brings_event (l : list RowEvent) (op : Op) (re : RowEvent) :
  op = OpAdd re \/ op = OpUpsert re -> re ∈ spec_step l op.
Proof.
  intros [-> | ->]; cbn.
  - apply elem_of_app. right. by apply list_elem_of_singleton.
  - destruct (existsb (carries (ID (EvRow re))) l) eqn:E.
    + apply existsb_exists in E as (e & He & Hid).
      apply list_elem_of_fmap. exists e. split; [|by apply list_elem_of_In].
      unfold replace_event. by rewrite Hid.
    + apply elem_of_app. right. by apply list_elem_of_singleton.
Qed.

Lemma ids_replace_event (l : list RowEvent) (re : RowEvent) :
  ids (map (replace_event re) l) = ids l.
Proof.
  unfold ids. rewrite map_map. apply map_ext. intros e.
  unfold replace_event, carries.
  by destruct (String.eqb_spec (ID (EvRow e)) (ID (EvRow re))).
Qed.

Lemma spec_step_keeps_id (l : list RowEvent) (op : Op) (id : string) :
  id ∈ ids l -> deletes id op = false -> id ∈ ids (spec_step l op).
Proof.
  intros Hid Hop. destruct op as [re|re|fqn]; cbn in Hop |- *.
  - unfold ids. rewrite map_app. apply elem_of_app. by left.
  - destruct (existsb (carries (ID (EvRow re))) l).
    + by rewrite ids_replace_event.
    + unfold ids. rewrite map_app. apply elem_of_app. by left.
  - unfold ids in *. apply list_elem_of_fmap in Hid as (e & -> & He).
    apply list_elem_of_fmap. exists e. split; [done|].
    apply list_elem_of_filter. split; [|done].
    intros E. rewrite E, String.eqb_refl in Hop. done.
Qed.

Lemma foldl_keeps_event (ops : list Op) (l : list RowEvent) (e : RowEvent) :
  e ∈ l -> forallb (fun op => negb (names (ID (EvRow e)) op)) ops = true ->
  e ∈ foldl spec_step l ops.
Proof.
  revert l. induction ops as [|op ops IH]; intros l He Hops; cbn in *; [done|].
  apply andb_true_iff in Hops as [Hop Hops]. apply negb_true_iff in Hop.
  apply IH; [|done]. by apply spec_step_keeps_event.
Qed.

Lemma foldl_keeps_id (ops : list Op) (l : list RowEvent) (id : string) :
  id ∈ ids l -> forallb (fun op => negb (deletes id op)) ops = true ->
  id ∈ ids (foldl spec_step l ops).
Proof.
  revert l. induction ops as [|op ops IH]; intros l He Hops; cbn in *; [done|].
  apply andb_true_iff in Hops as [Hop Hops]. apply negb_true_iff in Hop.
  apply IH; [|done]. by apply spec_step_keeps_id.
Qed.

(** In a consistent collection an event of the sequence is the one [Get]
    returns for its identifier. *)
Lemma consistent_Get (r : RowEvents) (e : RowEvent) :
  consistent r -> e ∈ events r -> Get r (ID (EvRow e)) = (e, true).
Proof.
  intros Hc He. apply list_elem_of_lookup in He as [p Hp].
  assert (index r !! ID (EvRow e) = Some (Z.of_nat p)) as E.
  { apply Hc. rewrite Nat2Z.id. split; [lia|].
    unfold ids. by rewrite list_lookup_fmap, Hp. }
  unfold Get, At. rewrite E.
  pose proof (lookup_lt_Some _ _ _ Hp) as Hlt.
  destruct (Z.ltb_spec (Z.of_nat p) 0); [lia|].
  destruct (Z.geb_spec (Z.of_nat p) (Z.of_nat (length (events r)))); [lia|].
  cbn. by rewrite Nat2Z.id, Hp.
Qed.

(** C8.  Start from an empty collection and run any finite sequence of
    [Add], [Upsert] and [Delete] in which every [Add] brings an identifier
    the collection does not hold.  No call panics.  The events of the
    collection reached are the insertion-ordered sequence the specification
    describes, with no identifier repeated; [FindIndex] finds an identifier
    exactly at the position its event has in that sequence and reports
    every other identifier as absent; an identifier that was added or
    upserted and not deleted afterwards is found, and [Get] returns the
    event last brought under it; an identifier that was deleted and not
    brought again is not found; and a further [Delete] keeps the remaining
    events in the order they had. *)
Theorem RowEvents_index_consistent (size : Z) (ops : list Op) :
  adds_fresh ops (NewRowEvents size) = true ->
  exists r : RowEvents,
    run ops (NewRowEvents size) = Some r
    /\ events r = spec_sequence ops
    /\ NoDup (ids (spec_sequence ops))
    /\ (forall (id : string) (i : Z),
          FindIndex r id = (i, true) <->
          0 <= i /\ exists e, spec_sequence ops !! Z.to_nat i = Some e /\ ID (EvRow e) = id)
    /\ (forall id : string,
          snd (FindIndex r id) = false <->
          Forall (fun e => ID (EvRow e) <> id) (spec_sequence ops))
    /\ (forall (before after : list Op) (op : Op) (re : RowEvent),
          ops = before ++ op :: after ->
          op = OpAdd re \/ op = OpUpsert re ->
          (forallb (fun op => negb (deletes (ID (EvRow re)) op)) after = true ->
           snd (FindIndex r (ID (EvRow re))) = true)
          /\ (forallb (fun op => negb (names (ID (EvRow re)) op)) after = true ->
              Get r (ID (EvRow re)) = (re, true)))
    /\ (forall (before after : list Op) (fqn : string),
          ops = before ++ OpDelete fqn :: after ->
          forallb (fun op => negb (introduces fqn op)) after = true ->
          FindIndex r fqn = (0, false))
    /\ (forall fqn : string,
          exists r' err,
            Delete r fqn = Some (r', err)
            /\ events r' = filter (fun e => ID (EvRow e) <> fqn) (events r)
            /\ snd (FindIndex r' fqn) = false).
Proof.
  intros Hfresh.
  destruct (run_refines ops _ (consistent_new size) Hfresh) as (r & Hrun & Hc & Hev).
  change (foldl spec_step (events (NewRowEvents size)) ops) with (spec_sequence ops) in Hev.
  exists r. split; [done|]. split; [done|]. rewrite <- Hev.
  split; [apply Hc|]. split; [|split; [|split; [|split]]].
  - intros id i. unfold FindIndex. destruct Hc as [_ Hix].
    destruct (index r !! id) as [j|] eqn:E.
    + split.
      * intros [= ->]. apply Hix in E as [Hpos E]. split; [done|].
        unfold ids in E. apply list_lookup_fmap_Some in E as (e & He & ->). eauto.
      * intros [Hpos (e & He & Hid)].
        assert (index r !! id = Some i) as E'; [|congruence].
        apply Hix. split; [done|]. unfold ids. rewrite list_lookup_fmap, He. simpl.
        by rewrite Hid.
    + split; [done|]. intros [Hpos (e & He & Hid)].
      assert (index r !! id = Some i) as E'; [|congruence].
      apply Hix. split; [done|]. unfold ids. rewrite list_lookup_fmap, He. simpl.
      by rewrite Hid.
  - intros id. unfold FindIndex.
    destruct (index r !! id) as [j|] eqn:E; simpl.
    + split; [done|]. intros Hall.
      destruct (consistent_found _ _ _ Hc E) as [_ Hj].
      unfold ids in Hj. apply list_lookup_fmap_Some in Hj as (e & He & Hid).
      rewrite Forall_forall in Hall. exfalso. eapply Hall; [|done].
      by eapply list_elem_of_lookup_2.
    + split; [|done]. intros _. apply Forall_forall. intros e He Hid.
      apply (consistent_missing _ _ Hc E). rewrite <- Hid. unfold ids.
      apply list_elem_of_fmap. by exists e.
  - intros before after op re -> Hop.
    assert (re ∈ spec_step (foldl spec_step [] before) op) as Hin
      by (by apply spec_step_brings_event).
    unfold spec_sequence in Hev. rewrite foldl_app in Hev. cbn [foldl] in Hev.
    split.
    + intros Hafter.
      assert (ID (EvRow re) ∈ ids (events r)) as Hid.
      { rewrite Hev. apply foldl_keeps_id; [|done].
        unfold ids. apply list_elem_of_fmap. by exists re. }
      unfold FindIndex. destruct (index r !! ID (EvRow re)) eqn:E; [done|].
      by apply (consistent_missing _ _ Hc) in E.
    + intros Hafter. apply consistent_Get; [done|].
      rewrite Hev. by apply foldl_keeps_event.
  - intros before after fqn -> Hafter.
    rewrite run_app in Hrun.
    destruct (run before (NewRowEvents size)) as [r1|] eqn:E1; [|done].
    simpl in Hrun.
    destruct (adds_fresh_app _ _ _ _ Hfresh E1) as [Hf1 Hf2].
    destruct (run_consistent _ _ (consistent_new size) Hf1) as (r1' & E1' & Hc1).
    rewrite E1 in E1'. injection E1' as <-.
    destruct (Delete_consistent r1 fqn Hc1) as (r2 & err & Hdel & Hc2 & Hgone & _).
    rewrite Hdel in Hrun. simpl in Hrun.
    simpl in Hf2. rewrite Hdel in Hf2. simpl in Hf2.
    unfold FindIndex.
    by rewrite (run_keeps_missing after r2 r fqn Hc2 Hf2 Hafter Hrun Hgone).
  - intros fqn.
    destruct (Delete_consistent r fqn Hc) as (r' & err & Hdel & _ & Hgone & Hev' & _).
    exists r', err. split; [done|]. split; [done|].
    unfold FindIndex. by rewrite Hgone.
Qed.

Definition row_event_of (id : string) (fields : list string) : RowEvent :=
  NewRowEvent EventAdd (mkRow id fields).

Lemma RowEvents_index_consistent_witness :
  let ops := [OpAdd (row_event_of "a" ["1"]); OpAdd (row_event_of "b" ["2"]);
              OpAdd (row_event_of "c" ["3"]); OpUpsert (row_event_of "b" ["4"]);
              OpDelete "a"] in
  adds_fresh ops (NewRowEvents 3) = true
  /\ exists r : RowEvents,
       run ops (NewRowEvents 3) = Some r
       /\ events r = [row_event_of "b" ["4"]; row_event_of "c" ["3"]]
       /\ FindIndex r "a" = (0, false)
       /\ FindIndex r "b" = (0, true)
       /\ FindIndex r "c" = (1, true)
       /\ Get r "b" = (row_event_of "b" ["4"], true).
Proof.
  cbv zeta. split; [reflexivity|].
  destruct (RowEvents_index_consistent 3
              [OpAdd (row_event_of "a" ["1"]); OpAdd (row_event_of "b" ["2"]);
               OpAdd (row_event_of "c" ["3"]); OpUpsert (row_event_of "b" ["4"]);
               OpDelete "a"] eq_refl) as (r & Hrun & Hev & _).
  exists r. split; [exact Hrun|]. split; [exact Hev|].
  vm_compute in Hrun. injection Hrun as <-.
  repeat split; vm_compute; reflexivity.
Defined.

End RowEventsProperties.

(* ===================================================================== *)
(** * Properties of the TTL cache                                        *)
(* ===================================================================== *)

(** The order of the [range] over the entries, for the concrete runs below:
    the one [map_to_list] gives. *)
Definition listed_order {V : Type}
  : gmap string (aws.CacheEntry V) -> list (string * aws.CacheEntry V) := map_to_list.


(* ===================================================================== *)
(** * Properties of the TTL cache                                        *)
(* ===================================================================== *)

Section CacheProperties.

Import aws.

Context {V : Type}.

(** ** Get *)

(** C7, amended.  [Get] reports a miss exactly when the key is absent or
    the expiry timestamp of its entry is strictly before the current time;
    a miss is an ordinary result, [(nil, false)], and a hit returns the
    stored value.  After [SetWithTTL] or [Set] of [k], whatever the cache
    held, [Get k] returns the value as long as no more than the TTL has
    passed, and a miss once more than the TTL has passed. *)
Theorem Get_spec (range_order : gmap string (CacheEntry V) -> list (string * CacheEntry V))
    (c : ResourceCache V) (key : string) (now : Z) :
  (snd (Get c key now) = false <->
     entries c !! key = None
     \/ exists e, entries c !! key = Some e /\ RefreshAt e < now)
  /\ (snd (Get c key now) = false -> Get c key now = (None, false))
  /\ (forall e, entries c !! key = Some e -> now <= RefreshAt e ->
        Get c key now = (Some (Value e), true))
  /\ (forall (v : V) (ttl set_at : Z),
        (set_at <= now <= set_at + ttl ->
           Get (SetWithTTL range_order c key v ttl set_at) key now = (Some v, true))
        /\ (set_at + ttl < now ->
           Get (SetWithTTL range_order c key v ttl set_at) key now = (None, false)))
  /\ (forall (v : V) (set_at : Z),
        (set_at <= now <= set_at + defaultTTL c ->
           Get (Set_ range_order c key v set_at) key now = (Some v, true))
        /\ (set_at + defaultTTL c < now ->
           Get (Set_ range_order c key v set_at) key now = (None, false))).
Proof.
  assert (forall (v : V) (ttl set_at : Z),
        (set_at <= now <= set_at + ttl ->
           Get (SetWithTTL range_order c key v ttl set_at) key now = (Some v, true))
        /\ (set_at + ttl < now ->
           Get (SetWithTTL range_order c key v ttl set_at) key now = (None, false))) as Hset.
  { intros v ttl set_at. unfold Get, SetWithTTL. simpl. rewrite lookup_insert_eq. simpl.
    split; intros H.
    - by replace (now >? set_at + ttl) with false by lia.
    - by replace (now >? set_at + ttl) with true by lia. }
  split; [|split; [|split; [|split]]].
  - unfold Get. destruct (entries c !! key) as [e|]; simpl.
    + destruct (Z.gtb_spec now (RefreshAt e)); simpl.
      * split; [|done]. intros _. right. eauto.
      * split; [done|]. intros [?|(e' & [= <-] & ?)]; [done|lia].
    + split; [|done]. by left.
  - unfold Get. destruct (entries c !! key) as [e|]; simpl; [|done].
    by destruct (now >? RefreshAt e).
  - intros e He Hnow. unfold Get. rewrite He.
    by replace (now >? RefreshAt e) with false by lia.
  - exact Hset.
  - intros v set_at. apply Hset.
Qed.

(** ** Eviction *)

Section Eviction.

(** The order in which the eviction loop meets the entries: any
    enumeration of the map. *)
Variable range_order : gmap string (CacheEntry V) -> list (string * CacheEntry V).
Hypothesis range_order_perm : forall m, range_order m ≡ₚ map_to_list m.

Lemma range_order_elem (m : gmap string (CacheEntry V)) (k : string) (e : CacheEntry V) :
  (k, e) ∈ range_order m <-> m !! k = Some e.
Proof. rewrite (range_order_perm m). apply elem_of_map_to_list. Qed.

(** Once the scan holds a candidate, it ends on the candidate if nothing
    later is strictly older, and else on a later entry that is strictly
    older than the candidate and as old as any later one. *)
Lemma oldest_scan_candidate (l : list (string * CacheEntry V)) (k : string) (t : Z) :
  (oldest_scan l k t false = k
   /\ forall k' e', (k', e') ∈ l -> t <= Timestamp e')
  \/ (exists e, (oldest_scan l k t false, e) ∈ l
      /\ Timestamp e < t
      /\ forall k' e', (k', e') ∈ l -> Timestamp e <= Timestamp e').
Proof.
  revert k t. induction l as [|[k1 e1] l IH]; intros k t; cbn.
  - left. split; [done|]. intros k' e' H. by apply elem_of_nil in H.
  - destruct (Z.ltb_spec (Timestamp e1) t) as [Hlt|Hge].
    + right. destruct (IH k1 (Timestamp e1)) as [[-> Hall]|(e & Hin & Hlt' & Hall)].
      * exists e1. split; [apply elem_of_cons; by left|]. split; [done|].
        intros k' e' H. apply elem_of_cons in H as [[= -> ->]|H]; [lia|by eapply Hall].
      * exists e. split; [apply elem_of_cons; by right|]. split; [lia|].
        intros k' e' H. apply elem_of_cons in H as [[= -> ->]|H]; [lia|by eapply Hall].
    + destruct (IH k t) as [[-> Hall]|(e & Hin & Hlt' & Hall)].
      * left. split; [done|].
        intros k' e' H. apply elem_of_cons in H as [[= -> ->]|H]; [lia|by eapply Hall].
      * right. exists e. split; [apply elem_of_cons; by right|]. split; [done|].
        intros k' e' H. apply elem_of_cons in H as [[= -> ->]|H]; [lia|by eapply Hall].
Qed.

(** The scan over a non-empty list ends on an entry of the list that no
    entry is older than. *)
Lemma oldest_scan_oldest (l : list (string * CacheEntry V)) (k0 : string) (t0 : Z) :
  l <> [] ->
  exists e, (oldest_scan l k0 t0 true, e) ∈ l
    /\ forall k' e', (k', e') ∈ l -> Timestamp e <= Timestamp e'.
Proof.
  destruct l as [|[k1 e1] l]; [done|]. intros _. cbn.
  destruct (oldest_scan_candidate l k1 (Timestamp e1)) as [[-> Hall]|(e & Hin & Hlt & Hall)].
  - exists e1. split; [apply elem_of_cons; by left|].
    intros k' e' H. apply elem_of_cons in H as [[= -> ->]|H]; [lia|by eapply Hall].
  - exists e. split; [apply elem_of_cons; by right|].
    intros k' e' H. apply elem_of_cons in H as [[= -> ->]|H]; [lia|by eapply Hall].
Qed.

(** The key the eviction block of a full cache picks. *)
Definition victim (c : ResourceCache V) : string :=
  oldest_scan (range_order (entries c)) "" 0 true.

Lemma victim_oldest (c : ResourceCache V) :
  entries c <> ∅ ->
  exists e, entries c !! victim c = Some e
    /\ forall k' e', entries c !! k' = Some e' -> Timestamp e <= Timestamp e'.
Proof.
  intros Hne. unfold victim.
  destruct (oldest_scan_oldest (range_order (entries c)) "" 0) as (e & Hin & Hall).
  - intros Hnil. apply Hne. apply map_to_list_empty_iff.
    apply Permutation_nil_r. rewrite <- Hnil. symmetry. apply range_order_perm.
  - exists e. split; [by apply range_order_elem|].
    intros k' e' H. eapply Hall. by apply range_order_elem.
Qed.

(** When one entry is strictly older than every other, it is the victim,
    whatever the order of the scan. *)
Lemma victim_strictly_oldest (c : ResourceCache V) (k : string) (e : CacheEntry V) :
  entries c !! k = Some e ->
  (forall k' e', entries c !! k' = Some e' -> k' <> k -> Timestamp e < Timestamp e') ->
  victim c = k.
Proof.
  intros Hk Hstrict.
  destruct (victim_oldest c) as (ev & Hv & Hall).
  { intros Hempty. rewrite Hempty in Hk. by rewrite lookup_empty in Hk. }
  destruct (decide (victim c = k)) as [|Hne]; [done|].
  specialize (Hstrict _ _ Hv Hne). specialize (Hall _ _ Hk). lia.
Qed.

Lemma evict_below_capacity (c : ResourceCache V) :
  Z.of_nat (size (entries c)) < maxEntries c -> evict range_order c = entries c.
Proof.
  intros H. unfold evict.
  by replace (Z.of_nat (size (entries c)) >=? maxEntries c) with false by lia.
Qed.

Lemma evict_at_capacity (c : ResourceCache V) :
  maxEntries c <= Z.of_nat (size (entries c)) ->
  evict range_order c =
    if String.eqb (victim c) "" then entries c else delete (victim c) (entries c).
Proof.
  intros H. unfold evict, victim.
  replace (Z.of_nat (size (entries c)) >=? maxEntries c) with true by lia.
  by destruct (String.eqb _ "").
Qed.

(** The bound on the resident count, and the condition under which the
    code keeps it: no entry is stored under the empty key. *)
Definition bounded (c : ResourceCache V) : Prop :=
  0 < maxEntries c
  /\ Z.of_nat (size (entries c)) <= maxEntries c
  /\ entries c !! "" = None.

Lemma NewResourceCache_bounded (cfg : option CacheConfig) : bounded (NewResourceCache cfg).
Proof.
  unfold bounded, NewResourceCache.
  destruct cfg as [cfg|]; cbn [maxEntries entries].
  - rewrite map_size_empty.
    destruct (Z.gtb_spec (MaxEntries cfg) 0);
      (split; [lia|split; [lia|apply lookup_empty]]).
  - rewrite map_size_empty. split; [lia|split; [lia|apply lookup_empty]].
Qed.

Lemma SetWithTTL_bounded (c : ResourceCache V) (key : string) (v : V) (ttl now : Z) :
  bounded c -> key <> "" -> bounded (SetWithTTL range_order c key v ttl now).
Proof.
  intros (Hmax & Hsize & Hempty) Hkey. unfold bounded, SetWithTTL. cbn.
  split; [done|].
  destruct (Z.lt_ge_cases (Z.of_nat (size (entries c))) (maxEntries c)) as [Hlt|Hge].
  - rewrite evict_below_capacity by done. split.
    + rewrite map_size_insert. destruct (entries c !! key); cbn; lia.
    + by rewrite lookup_insert_ne.
  - rewrite evict_at_capacity by done.
    destruct (victim_oldest c) as (e & Hv & _).
    { intros E. rewrite E, map_size_empty in Hge. lia. }
    destruct (String.eqb_spec (victim c) "") as [E|E].
    { rewrite E in Hv. congruence. }
    split.
    + rewrite map_size_insert, map_size_delete, Hv.
      destruct (delete (victim c) (entries c) !! key); cbn; lia.
    + rewrite lookup_insert_ne by done.
      destruct (decide (victim c = "")) as [|Hne]; [done|].
      by rewrite lookup_delete_ne.
Qed.

Lemma DeletePrefix_entries (c : ResourceCache V) (prefix : string) (k : string) :
  entries (fst (DeletePrefix c prefix)) !! k =
    if String.eqb prefix "" then entries c !! k
    else if String.prefix prefix k then None else entries c !! k.
Proof.
  unfold DeletePrefix. destruct (String.eqb prefix ""); [done|]. cbn.
  destruct (String.prefix prefix k) eqn:E.
  - apply map_lookup_filter_None. right. intros e _. cbn. congruence.
  - destruct (entries c !! k) as [e|] eqn:Ek.
    + by apply map_lookup_filter_Some.
    + apply map_lookup_filter_None. by left.
Qed.

Lemma DeletePrefix_size (c : ResourceCache V) (prefix : string) :
  (size (entries (fst (DeletePrefix c prefix))) <= size (entries c))%nat.
Proof.
  unfold DeletePrefix. destruct (String.eqb prefix ""); [done|]. cbn.
  apply map_subseteq_size, map_filter_subseteq.
Qed.

Lemma cache_step_bounded (c : ResourceCache V) (op : CacheOp V) :
  bounded c -> written_key op <> Some "" -> bounded (cache_step range_order c op).
Proof.
  intros Hb Hop. destruct op as [k v now|k v ttl now|k|p|]; cbn.
  - apply SetWithTTL_bounded; [done|]. intros ->. by apply Hop.
  - apply SetWithTTL_bounded; [done|]. intros ->. by apply Hop.
  - destruct Hb as (Hmax & Hsize & Hempty). split; [done|]. cbn. split.
    + rewrite map_size_delete. destruct (entries c !! k); cbn; lia.
    + destruct (decide (k = "")) as [->|Hne];
        [apply lookup_delete_eq | by rewrite lookup_delete_ne].
  - destruct Hb as (Hmax & Hsize & Hempty). split.
    + unfold DeletePrefix. by destruct (String.eqb p "").
    + split.
      * pose proof (DeletePrefix_size c p).
        unfold DeletePrefix in *. destruct (String.eqb p ""); cbn in *; lia.
      * rewrite DeletePrefix_entries.
        destruct (String.eqb p ""); [done|]. by destruct (String.prefix p "").
  - destruct Hb as (Hmax & _ & _). split; [done|]. cbn.
    rewrite map_size_empty. split; [lia|apply lookup_empty].
Qed.

(** After any sequence of [Set], [SetWithTTL], [Delete], [DeletePrefix] and
    [Invalidate] on a new cache, none of which stores under the empty key,
    the resident count is at most [MaxEntries]. *)
Lemma cache_run_bounded (cfg : option CacheConfig) (ops : list (CacheOp V)) :
  Forall (fun op => written_key op <> Some "") ops ->
  let c := cache_run range_order ops (NewResourceCache cfg) in
  Z.of_nat (size (entries c)) <= maxEntries c.
Proof.
  intros Hops. cbv zeta.
  assert (bounded (cache_run range_order ops (NewResourceCache cfg))) as (_ & H & _); [|done].
  unfold cache_run.
  generalize (NewResourceCache_bounded cfg). generalize (NewResourceCache (V:=V) cfg).
  induction Hops as [|op ops Hop Hops IH]; intros c Hb; cbn; [done|].
  apply IH. by apply cache_step_bounded.
Qed.

(** A [SetWithTTL] into a full cache, when one entry is strictly older than
    every other and is not stored under the empty key: exactly that entry is
    evicted, the key that is set holds the new value, and every other entry
    stays. *)
Lemma SetWithTTL_evicts_oldest (c : ResourceCache V) (key : string) (v : V) (ttl now : Z)
    (old : string) (e : CacheEntry V) :
  maxEntries c <= Z.of_nat (size (entries c)) ->
  entries c !! old = Some e -> old <> "" ->
  (forall k' e', entries c !! k' = Some e' -> k' <> old -> Timestamp e < Timestamp e') ->
  let c' := SetWithTTL range_order c key v ttl now in
  entries c' !! key = Some (mkCacheEntry v now ttl (now + ttl))
  /\ (old <> key -> entries c' !! old = None)
  /\ (forall k, k <> old -> k <> key -> entries c' !! k = entries c !! k).
Proof.
  intros Hfull Hold Hne Hstrict. cbv zeta. unfold SetWithTTL. cbn.
  rewrite evict_at_capacity by done.
  rewrite (victim_strictly_oldest c old e Hold Hstrict).
  rewrite (proj2 (String.eqb_neq old "")) by done.
  split; [apply lookup_insert_eq|]. split.
  - intros Hk. rewrite lookup_insert_ne by done. apply lookup_delete_eq.
  - intros k Hk1 Hk2. rewrite lookup_insert_ne by done. by rewrite lookup_delete_ne.
Qed.

(** The overwrite of a resident key in a full cache still evicts: when the
    strictly oldest entry belongs to another, non-empty key, that entry is
    lost and the resident count drops by one. *)
Lemma SetWithTTL_resident_evicts_other (c : ResourceCache V) (key : string) (v : V)
    (ttl now : Z) (old : string) (e : CacheEntry V) :
  Z.of_nat (size (entries c)) = maxEntries c ->
  is_Some (entries c !! key) ->
  entries c !! old = Some e -> old <> "" -> old <> key ->
  (forall k' e', entries c !! k' = Some e' -> k' <> old -> Timestamp e < Timestamp e') ->
  let c' := SetWithTTL range_order c key v ttl now in
  entries c' !! old = None
  /\ Z.of_nat (size (entries c')) = maxEntries c - 1.
Proof.
  intros Hfull [ek Hkey] Hold Hne Hdiff Hstrict. cbv zeta.
  destruct (SetWithTTL_evicts_oldest c key v ttl now old e) as (_ & Hgone & _);
    [lia|done..|].
  split; [by apply Hgone|].
  unfold SetWithTTL. cbn. rewrite evict_at_capacity by lia.
  rewrite (victim_strictly_oldest c old e Hold Hstrict).
  rewrite (proj2 (String.eqb_neq old "")) by done.
  rewrite map_size_insert, lookup_delete_ne, Hkey by done. cbn.
  rewrite map_size_delete, Hold.
  assert (size (entries c) <> 0%nat).
  { apply (map_size_ne_0_lookup_2 _ old). eauto. }
  lia.
Qed.

End Eviction.

End CacheProperties.

Section CacheExamples.

Import aws.

(** C7, as the specification states it, fails at the boundary: an entry
    whose expiry timestamp equals the current time is still found. *)
Lemma Get_at_expiry_is_a_hit :
  let c := SetWithTTL listed_order (NewResourceCache None) "k" "v" 5 100 in
  (exists e, entries c !! "k" = Some e /\ RefreshAt e = 105)
  /\ Get c "k" 105 = (Some "v", true).
Proof.
  cbv zeta. split; [|reflexivity].
  eexists. split; [vm_compute; reflexivity|reflexivity].
Qed.

(** ** Eviction at the empty key *)

(** C6 at its failing input: with room for one entry, a [Set] of the empty
    key followed by a [Set] of another key leaves two entries resident. *)
Lemma eviction_skips_empty_key :
  let c0 : ResourceCache string := NewResourceCache (Some (mkCacheConfig 0 1)) in
  let c2 := cache_run listed_order [CSet "" "x" 1; CSet "a" "y" 2] c0 in
  maxEntries c2 = 1
  /\ size (entries c2) = 2%nat
  /\ fst (Get c2 "" 2) = Some "x"
  /\ fst (Get c2 "a" 2) = Some "y".
Proof. cbv zeta. repeat split; vm_compute; reflexivity. Qed.

(** C10 at its failing input: the cache is full, the key being set is
    resident, and the oldest entry is the one of the empty key; that entry
    stays and the count does not drop. *)
Lemma overwrite_keeps_empty_key :
  let c0 : ResourceCache string := NewResourceCache (Some (mkCacheConfig 0 2)) in
  let c2 := cache_run listed_order [CSet "" "x" 1; CSet "a" "y" 2] c0 in
  let c3 := Set_ listed_order c2 "a" "z" 3 in
  size (entries c2) = 2%nat
  /\ maxEntries c2 = 2
  /\ size (entries c3) = 2%nat
  /\ fst (Get c3 "" 3) = Some "x"
  /\ fst (Get c3 "a" 3) = Some "z".
Proof. cbv zeta. repeat split; vm_compute; reflexivity. Qed.
End CacheExamples.

(* ===================================================================== *)
(** * Properties of the synchronisation engine                           *)
(* ===================================================================== *)

Section EngineProperties.

Import model1 model.

Context {Obj : Type}.

(** A snapshot pointer is usable when the struct and its collection are
    allocated, as every pointer a Go program holds is. *)
Definition valid_table (σ : Store) (p : nat) : Prop :=
  exists td, tables σ !! p = Some td /\ is_Some (collections σ !! rowEvents td).

(** The events [Refresh] collects from the fetched objects, starting from
    the collection [r]: the rows that render, in order. *)
Fixpoint rendered_rows (ren : Renderer Obj) (region : string) (hdr : Header)
    (objects : list Obj) (r : RowEvents) : RowEvents :=
  match objects with
  | [] => r
  | obj :: objects' =>
      match Render ren obj region (NewRow (length hdr)) with
      | None => rendered_rows ren region hdr objects' r
      | Some row' => rendered_rows ren region hdr objects' (Add r (NewRowEvent EventAdd row'))
      end
  end.

Lemma update_collection_at (σ : Store) (q : nat) (f : RowEvents -> RowEvents) (r : RowEvents) :
  collections σ !! q = Some r ->
  update_collection q f σ = mkStore (tables σ) (<[q := f r]> (collections σ)).
Proof. intros H. unfold update_collection. by rewrite H. Qed.

(** The loop of [Refresh] writes the collection it was given and nothing
    else. *)
Lemma render_objects_store (ren : Renderer Obj) (region : string) (hdr : Header)
    (q : nat) (objects : list Obj) (σ : Store) (r : RowEvents) :
  collections σ !! q = Some r ->
  render_objects ren region hdr q objects σ =
  mkStore (tables σ) (<[q := rendered_rows ren region hdr objects r]> (collections σ)).
Proof.
  revert σ r. induction objects as [|obj objects IH]; intros σ r Hq; simpl.
  - rewrite list_insert_id by done. by destruct σ.
  - destruct (Render ren obj region (NewRow (length hdr))) as [row'|]; [|by apply IH].
    rewrite (update_collection_at _ _ _ _ Hq).
    erewrite IH.
    + simpl. by rewrite list_insert_insert_eq.
    + simpl. apply list_lookup_insert_eq. by eapply lookup_lt_Some.
Qed.

(** What a [Refresh] with a successful fetch does, on an engine with an
    accessor, a renderer and a usable snapshot pointer. *)
Lemma Refresh_ok (t : TableData Obj) (σ : Store) (objects : list Obj)
    (acc : nat) (ren : Renderer Obj) (td : model1.TableData) (old : RowEvents) :
  accessor t = Some acc -> renderer t = Some ren ->
  tables σ !! data t = Some td -> collections σ !! rowEvents td = Some old ->
  let hdr := RenderHeader ren (region t) in
  let newData := length (tables σ) in
  let fresh := length (collections σ) in
  let rows := rendered_rows ren (region t) hdr objects
                (NewRowEvents (Z.of_nat (length objects))) in
  let t' := mkEngine (accessor t) (renderer t) (region t) newData
              (refreshRate t) (listeners t) in
  Refresh (ListOk objects) t σ =
  Some (mkOutcome None t'
          (mkStore (tables σ ++ [mkTableData hdr fresh "" ""])
                   (collections σ ++ [NewRowEvents 10; rows]))
          (if Empty rows && negb (Empty old)
           then notifyNoData t' newData
           else notifyDataChanged t' newData)).
Proof.
  intros Hacc Hren Htd Hold. cbv zeta.
  unfold Refresh. rewrite Hacc, Hren.
  unfold model1.NewTableData, alloc_collection, alloc_table. cbn [tables collections].
  unfold SetHeader, update_table. cbn [tables collections].
  rewrite list_lookup_middle by done. cbn [rowEvents namespace errMsg].
  rewrite (render_objects_store _ _ _ _ _ _ (NewRowEvents (Z.of_nat (length objects)))).
  2:{ cbn [collections]. rewrite length_app. cbn [length].
      replace (length (collections σ) + 1)%nat
        with (length (collections σ ++ [NewRowEvents 10])) by (rewrite length_app; done).
      apply list_lookup_middle. done. }
  cbn [tables collections].
  assert (<[length (tables σ) := mkTableData (RenderHeader ren (region t))
              (length (collections σ)) "" ""]> (tables σ ++ [mkTableData [] (length (collections σ)) "" ""])
          = tables σ ++ [mkTableData (RenderHeader ren (region t)) (length (collections σ)) "" ""]) as ->.
  { rewrite insert_app_r_alt by done. by rewrite Nat.sub_diag. }
  assert (<[length (collections σ ++ [NewRowEvents 10]) :=
              rendered_rows ren (region t) (RenderHeader ren (region t)) objects
                (NewRowEvents (Z.of_nat (length objects)))]>
            ((collections σ ++ [NewRowEvents 10]) ++ [NewRowEvents (Z.of_nat (length objects))])
          = collections σ ++ [NewRowEvents 10;
               rendered_rows ren (region t) (RenderHeader ren (region t)) objects
                 (NewRowEvents (Z.of_nat (length objects)))]) as Hcols.
  { rewrite insert_app_r_alt by done. rewrite Nat.sub_diag. cbn.
    by rewrite <- app_assoc. }
  rewrite length_app in Hcols |- *. cbn [length] in Hcols |- *.
  rewrite Hcols.
  unfold TableEmpty, table_rows. cbn [tables collections].
  rewrite (lookup_app_l_Some _ _ _ _ Htd). cbn.
  rewrite (lookup_app_l_Some _ _ _ _ Hold). cbn.
  replace (length (collections σ) + 1)%nat with (length (collections σ) + 1 + 0)%nat by lia.
  rewrite <- Nat.add_assoc.
  rewrite lookup_app_r by lia.
  replace (length (collections σ) + (1 + 0) - length (collections σ))%nat with 1%nat by lia.
  cbn. done.
Qed.

(** ** A failed fetch *)

(** C2.  When the fetch of a [Refresh] returns an error, on an engine that
    has an accessor and a renderer: the engine and every snapshot are as
    they were, so [Peek] returns the same rows as before; no listener is
    called; [Refresh] returns the error.  In the watch loop such a tick
    calls every listener's [TableLoadFailed] with that error and the loop
    goes on with the next event from the same state. *)
Theorem Refresh_fetch_error (t : TableData Obj) (σ : Store) (err : string)
    (acc : nat) (ren : Renderer Obj) (later : list (LoopEvent Obj)) :
  accessor t = Some acc -> renderer t = Some ren ->
  (exists o, Refresh (ListErr err) t σ = Some o
     /\ returned o = Some (ListFailed err)
     /\ engine o = t /\ store o = σ
     /\ notified o = []
     /\ Peek (engine o) (store o) = Peek t σ
     /\ table_rows (store o) (data (engine o)) = table_rows σ (data t))
  /\ watchLoop (Tick (ListErr err) :: later) t σ =
       '(t', σ', ns) ← watchLoop later t σ;
       Some (t', σ', map (fun l => TableLoadFailed l (ListFailed err)) (listeners t) ++ ns).
Proof.
  intros Hacc Hren.
  assert (Refresh (ListErr err) t σ = Some (mkOutcome (Some (ListFailed err)) t σ [])) as E.
  { unfold Refresh. by rewrite Hacc, Hren. }
  split.
  - eexists. split; [exact E|]. by repeat split.
  - cbn [watchLoop]. rewrite E. cbn.
    by destruct (watchLoop later t σ) as [[[t' σ'] ns]|].
Qed.

(** ** A successful fetch *)

(** The engine's current snapshot is usable and holds no row. *)
Definition snapshot_empty (t : TableData Obj) (σ : Store) : Prop :=
  exists td r, tables σ !! data t = Some td
    /\ collections σ !! rowEvents td = Some r
    /\ events r = [].

Definition configured (t : TableData Obj) : Prop :=
  is_Some (accessor t) /\ is_Some (renderer t).

Definition is_no_data (n : Notification) : bool :=
  match n with
  | TableNoData _ _ => true
  | _ => false
  end.

Lemma NewTableData_snapshot_empty (refreshRate : Z) (σ : Store) :
  snapshot_empty (fst (model.NewTableData (Obj:=Obj) refreshRate σ))
                 (snd (model.NewTableData (Obj:=Obj) refreshRate σ)).
Proof.
  unfold model.NewTableData, model1.NewTableData, alloc_collection, alloc_table.
  cbn. exists (mkTableData [] (length (collections σ)) "" ""), (NewRowEvents 10).
  split; [by apply list_lookup_middle|]. split; [|done].
  cbn. by apply list_lookup_middle.
Qed.

(** The snapshot a successful [Refresh] installs is always empty: the rows
    it rendered are in a collection of their own that the new snapshot does
    not point to. *)
Lemma Refresh_snapshot_empty (fetched : ListOutcome Obj) (t : TableData Obj) (σ : Store) :
  configured t -> snapshot_empty t σ ->
  exists o, Refresh fetched t σ = Some o
    /\ configured (engine o)
    /\ snapshot_empty (engine o) (store o)
    /\ listeners (engine o) = listeners t
    /\ forallb (fun n => negb (is_no_data n)) (notified o) = true
    /\ (forall objects, fetched = ListOk objects ->
          returned o = None
          /\ notified o = map (fun l => TableDataChanged l (data (engine o))) (listeners t)).
Proof.
  intros [[acc Hacc] [ren Hren]] (td & r & Htd & Hr & Hev).
  destruct fetched as [objects|err].
  - rewrite (Refresh_ok t σ objects acc ren td r Hacc Hren Htd Hr).
    eexists. split; [done|]. cbn [engine store notified returned].
    assert (Empty r = true) as -> by (unfold Empty; by rewrite Hev).
    rewrite andb_false_r.
    split; [split; cbn; eauto|]. split.
    { exists (mkTableData (RenderHeader ren (region t)) (length (collections σ)) "" ""),
             (NewRowEvents 10).
      cbn. split; [by apply list_lookup_middle|]. split; [|done].
      by apply (list_lookup_middle _ [_]). }
    split; [done|]. split.
    + unfold notifyDataChanged. cbn. by induction (listeners t).
    + intros ? _. done.
  - unfold Refresh. rewrite Hacc, Hren. eexists. split; [done|]. cbn.
    split; [split; eauto|]. split; [by exists td, r|]. done.
Qed.

(** The engine never reports "no data": along any run of [Refresh] calls
    from an engine whose snapshot is empty, as [NewTableData] makes it,
    every successful call notifies [TableDataChanged], no call notifies
    [TableNoData], and the current snapshot stays empty. *)
Lemma refreshes_never_no_data (fs : list (ListOutcome Obj)) (t : TableData Obj) (σ : Store) :
  configured t -> snapshot_empty t σ ->
  exists t' σ' ns, refreshes fs t σ = Some (t', σ', ns)
    /\ configured t' /\ snapshot_empty t' σ'
    /\ forallb (fun n => negb (is_no_data n)) ns = true
    /\ RowCount σ' (data t') = Some 0.
Proof.
  revert t σ. induction fs as [|f fs IH]; intros t σ Hcfg Hemp.
  - exists t, σ, []. cbn. split; [done|]. split; [done|]. split; [done|]. split; [done|].
    destruct Hemp as (td & r & Htd & Hr & Hev).
    unfold RowCount, table_rows. rewrite Htd. cbn. rewrite Hr. cbn.
    unfold Count. by rewrite Hev.
  - destruct (Refresh_snapshot_empty f t σ Hcfg Hemp)
      as (o & Ho & Hcfg' & Hemp' & _ & Hns & _).
    destruct (IH _ _ Hcfg' Hemp') as (t' & σ' & ns & Hrun & ? & ? & Hns' & ?).
    exists t', σ', (notified o ++ ns). cbn [refreshes]. rewrite Ho. cbn. rewrite Hrun. cbn.
    split; [done|]. split; [done|]. split; [done|]. split; [|done].
    rewrite forallb_app. by rewrite Hns, Hns'.
Qed.

End EngineProperties.

Section EngineExamples.

Import model1 model.

(** A renderer for the examples: the object is its own identifier and only
    field; an object named ["broken"] fails to render. *)
Definition name_renderer : Renderer string :=
  mkRenderer
    (fun _ => [mkHeaderColumn "NAME" (mkAttrs 0 false false false false)])
    (fun obj _ row =>
       if String.eqb obj "broken" then None else Some (mkRow obj [obj])).

Definition example_engine : TableData string * Store :=
  let '(t, σ) := model.NewTableData 0 empty_store in
  (AddListener (SetRenderer (SetAccessor t (Some 0%nat)) (Some name_renderer)) 7%nat, σ).

(** C1 at its failing input: a first [Refresh] fetches two objects, a
    second one fetches none.  The snapshot the first call installed has no
    row, so the second call sees an empty previous snapshot and notifies
    [TableDataChanged], not [TableNoData]. *)
Lemma Refresh_after_rows_notifies_data_changed :
  let t0 := fst example_engine in
  let σ0 := snd example_engine in
  let first := Refresh (ListOk ["i-1"; "i-2"]) t0 σ0 in
  let second := o1 ← first; Refresh (ListOk []) (engine o1) (store o1) in
  (returned <$> first) = Some None
  /\ (notified <$> first) = Some [TableDataChanged 7 1]
  /\ (o1 ← first; RowCount (store o1) (data (engine o1))) = Some 0
  /\ (returned <$> second) = Some None
  /\ (notified <$> second) = Some [TableDataChanged 7 2]
  /\ (o2 ← second; RowCount (store o2) (data (engine o2))) = Some 0.
Proof. cbv zeta. repeat split; vm_compute; reflexivity. Qed.

Lemma Refresh_fetch_error_witness :
  let t0 := fst example_engine in
  let σ0 := snd example_engine in
  accessor t0 = Some 0%nat /\ renderer t0 = Some name_renderer
  /\ watchLoop [Tick (ListErr "timeout"); Tick (ListErr "timeout"); Done] t0 σ0
     = Some (t0, σ0, [TableLoadFailed 7 (ListFailed "timeout");
                      TableLoadFailed 7 (ListFailed "timeout")]).
Proof.
  cbv zeta. split; [reflexivity|]. split; [reflexivity|].
  destruct (Refresh_fetch_error (fst example_engine) (snd example_engine) "timeout"
              0%nat name_renderer [Tick (ListErr "timeout"); Done] eq_refl eq_refl)
    as [_ Hloop].
  rewrite Hloop. reflexivity.
Defined.

End EngineExamples.

(* ===================================================================== *)
(** * Properties of the filter layer                                     *)
(* ===================================================================== *)

Section FilterProperties.

Import model1 ui.

Context {lower : UnicodeLower}.

(** ** The store only grows *)

(** [σ'] holds every object of [σ], unchanged, and possibly newer ones. *)
Definition extends (σ σ' : Store) : Prop :=
  tables σ `prefix_of` tables σ' /\ collections σ `prefix_of` collections σ'.

Lemma extends_refl (σ : Store) : extends σ σ.
Proof. by split. Qed.

Lemma extends_trans (σ1 σ2 σ3 : Store) : extends σ1 σ2 -> extends σ2 σ3 -> extends σ1 σ3.
Proof. intros [? ?] [? ?]. split; by etrans. Qed.

Lemma extends_table (σ σ' : Store) (p : nat) (td : TableData) :
  extends σ σ' -> tables σ !! p = Some td -> tables σ' !! p = Some td.
Proof. intros [H _] Hp. by eapply prefix_lookup_Some. Qed.

Lemma extends_collection (σ σ' : Store) (q : nat) (r : RowEvents) :
  extends σ σ' -> collections σ !! q = Some r -> collections σ' !! q = Some r.
Proof. intros [_ H] Hq. by eapply prefix_lookup_Some. Qed.

Lemma prefix_insert_after {A} (l k : list A) (i : nat) (x : A) :
  l `prefix_of` k -> (length l <= i)%nat -> l `prefix_of` <[i := x]> k.
Proof.
  intros [m ->] Hi. rewrite insert_app_r_alt by done. by apply prefix_app_r.
Qed.

Lemma update_table_extends (σ0 σ : Store) (p : nat) (f : TableData -> TableData) :
  extends σ0 σ -> (length (tables σ0) <= p)%nat -> extends σ0 (update_table p f σ).
Proof.
  intros [Ht Hc] Hp. unfold update_table.
  destruct (tables σ !! p); [|done].
  split; cbn; [by apply prefix_insert_after|done].
Qed.

Lemma update_collection_extends (σ0 σ : Store) (q : nat) (f : RowEvents -> RowEvents) :
  extends σ0 σ -> (length (collections σ0) <= q)%nat -> extends σ0 (update_collection q f σ).
Proof.
  intros [Ht Hc] Hq. unfold update_collection.
  destruct (collections σ !! q); [|done].
  split; cbn; [done|by apply prefix_insert_after].
Qed.

Lemma NewTableData_extends (σ : Store) : extends σ (snd (NewTableData σ)).
Proof. split; cbn; by apply prefix_app_r. Qed.

Lemma filter_rows_extends (σ0 σ : Store) (filter : string) (fq : nat) (evs : list RowEvent) :
  extends σ0 σ -> (length (collections σ0) <= fq)%nat ->
  extends σ0 (filter_rows filter fq evs σ).
Proof.
  revert σ. induction evs as [|re evs IH]; intros σ Hext Hfq; cbn; [done|].
  apply IH; [|done]. destruct (row_matches filter re); [|done].
  by apply update_collection_extends.
Qed.

(** ** Usable snapshots *)

Lemma valid_table_extends (σ σ' : Store) (p : nat) :
  extends σ σ' -> valid_table σ p -> valid_table σ' p.
Proof.
  intros Hext (td & Htd & [r Hr]). exists td.
  split; [by eapply extends_table|]. exists r. by eapply extends_collection.
Qed.

Lemma table_rows_extends (σ σ' : Store) (p : nat) :
  extends σ σ' -> valid_table σ p -> table_rows σ' p = table_rows σ p.
Proof.
  intros Hext (td & Htd & [r Hr]). unfold table_rows.
  rewrite Htd, (extends_table _ _ _ _ Hext Htd). cbn.
  by rewrite Hr, (extends_collection _ _ _ _ Hext Hr).
Qed.

(** ** What a render writes *)

(** The fields of the table that rendering does not touch. *)
Definition settings (t : Table) :=
  (resource t, modelNamespace t, sortColName t, filterText t, filterActive t,
   fullData t, isUpdating t).

Fixpoint header_writes (sortColName : string) (col : Z) (hdr : Header)
  : list (Z * Z * Cell) :=
  match hdr with
  | [] => []
  | h :: hdr' => (0, col, header_cell sortColName h) :: header_writes sortColName (col + 1) hdr'
  end.

Fixpoint row_writes (row : Row) (hdr : Header) (rowIdx col : Z) (fields : list string)
  : list (Z * Z * Cell) :=
  match fields with
  | [] => []
  | field :: fields' =>
      if col >=? Z.of_nat (length hdr) then []
      else match hdr !! Z.to_nat col with
           | Some h => (rowIdx, col, row_cell row h col field)
                       :: row_writes row hdr rowIdx (col + 1) fields'
           | None => []
           end
  end.

Fixpoint rows_writes (hdr : Header) (idx : Z) (evs : list RowEvent) : list (Z * Z * Cell) :=
  match evs with
  | [] => []
  | re :: evs' =>
      row_writes (EvRow re) hdr (idx + 1) 0 (RowFields (EvRow re))
      ++ rows_writes hdr (idx + 1) evs'
  end.

Definition message_cell (msg : string) : Cell :=
  mkCell msg ColorGray AlignCenter 0 false false None.

(** The cells of the view of a snapshot: the message when it has no row,
    else the header row and one row per event. *)
Definition view_cells (sortColName : string) (td : TableData) (rows : RowEvents)
  : list (Z * Z * Cell) :=
  if Empty rows then [(0, 0, message_cell "No matching resources")]
  else header_writes sortColName 0 (header td) ++ rows_writes (header td) 0 (events rows).

(** The texts of the cells written at row [r] of a surface, in the order
    they were written: what the row shows, read back from the widget. *)
Definition texts_at (r : Z) (cs : list (Z * Z * Cell)) : list string :=
  map (fun c => Text (snd c)) (filter (fun c => fst (fst c) = r) cs).

Definition row_texts (s : Surface) (r : Z) : list string := texts_at r (cells s).

Lemma set_header_cells_writes (scn : string) (col : Z) (hdr : Header) (s : Surface) :
  set_header_cells scn col hdr s =
  mkSurface (cells s ++ header_writes scn col hdr) (title s) (selection s).
Proof.
  revert col s. induction hdr as [|h hdr IH]; intros col s; cbn.
  - rewrite app_nil_r. by destruct s.
  - rewrite IH. cbn. by rewrite <- app_assoc.
Qed.

Lemma set_row_cells_writes (row : Row) (hdr : Header) (rowIdx col : Z)
    (fields : list string) (s : Surface) :
  set_row_cells row hdr rowIdx col fields s =
  mkSurface (cells s ++ row_writes row hdr rowIdx col fields) (title s) (selection s).
Proof.
  revert col s. induction fields as [|field fields IH]; intros col s; cbn.
  - rewrite app_nil_r. by destruct s.
  - destruct (col >=? Z.of_nat (length hdr)).
    + rewrite app_nil_r. by destruct s.
    + destruct (hdr !! Z.to_nat col) as [h|].
      * rewrite IH. cbn. by rewrite <- app_assoc.
      * rewrite app_nil_r. by destruct s.
Qed.

Lemma build_rows_writes (hdr : Header) (idx : Z) (evs : list RowEvent) (t : Table) :
  build_rows hdr idx evs t =
  with_surface t (mkSurface (cells (surface t) ++ rows_writes hdr idx evs)
                            (title (surface t)) (selection (surface t))).
Proof.
  revert idx t. induction evs as [|re evs IH]; intros idx t; cbn.
  - rewrite app_nil_r. by destruct t as [[] ? ? ? ? ? ? ? ?].
  - rewrite IH. unfold buildRow. rewrite set_row_cells_writes. cbn.
    by rewrite <- app_assoc.
Qed.

(** The title can be computed when the stored snapshot, if any, is
    allocated. *)
Definition title_ok (σ : Store) (t : Table) : Prop :=
  forall f, fullData t = Some f -> is_Some (tables σ !! f).

Lemma updateTitleWithFilter_total (σ : Store) (t : Table) :
  title_ok σ t ->
  exists t', updateTitleWithFilter σ t = Some t'
    /\ settings t' = settings t
    /\ tblHeader t' = tblHeader t
    /\ cells (surface t') = cells (surface t)
    /\ selection (surface t') = selection (surface t).
Proof.
  intros Hok. unfold updateTitleWithFilter.
  destruct (modelNamespace t) as [ns|] eqn:Ens; cbn.
  - eexists. split; [done|]. unfold settings. cbn. by rewrite Ens.
  - destruct (fullData t) as [f|] eqn:Ef; cbn.
    + destruct (Hok f Ef) as [td ->]. cbn.
      eexists. split; [done|]. unfold settings. cbn. by rewrite Ens, Ef.
    + eexists. split; [done|]. unfold settings. cbn. by rewrite Ens, Ef.
Qed.

#[local] Arguments updateTitleWithFilter : simpl never.
#[local] Arguments showNoData : simpl never.
#[local] Arguments buildHeader : simpl never.
#[local] Arguments build_rows : simpl never.
#[local] Arguments renderData : simpl never.

(** [renderData] on a usable snapshot: the cells it leaves are the view of
    the snapshot, whatever the surface showed before. *)
Lemma renderData_view (σ : Store) (t : Table) (d : nat) (td : TableData) (rows : RowEvents) :
  tables σ !! d = Some td -> collections σ !! rowEvents td = Some rows ->
  title_ok σ t ->
  exists t', renderData (Some d) σ t = Some t'
    /\ settings t' = settings t
    /\ cells (surface t') = view_cells (sortColName t) td rows.
Proof.
  intros Htd Hrows Hok. unfold renderData, TableEmpty, table_rows.
  rewrite Htd. cbn. rewrite Hrows. cbn. unfold view_cells.
  destruct (Empty rows).
  - destruct (updateTitleWithFilter_total σ (showNoData "No matching resources" t))
      as (t' & -> & Hset & _ & Hcells & _); [done|].
    exists t'. split; [done|]. split; [done|]. by rewrite Hcells.
  - rewrite Htd. cbn. rewrite Hrows. cbn.
    rewrite build_rows_writes. unfold buildHeader. rewrite set_header_cells_writes. cbn.
    match goal with |- context [updateTitleWithFilter σ ?u] =>
      destruct (updateTitleWithFilter_total σ u) as (t' & -> & Hset & _ & Hcells & _);
        [done|]
    end.
    cbn in Hcells. cbn.
    exists (if GetRowCount (surface t') >? 1
            then with_surface t' (Select 1 0 (surface t')) else t').
    split; [done|].
    destruct (GetRowCount (surface t') >? 1); cbn; rewrite ?Hcells; done.
Qed.

(** ** Filtering *)

Lemma filter_rows_tables (filter : string) (fq : nat) (evs : list RowEvent) (σ : Store) :
  tables (filter_rows filter fq evs σ) = tables σ
  /\ length (collections (filter_rows filter fq evs σ)) = length (collections σ).
Proof.
  revert σ. induction evs as [|re evs IH]; intros σ; cbn; [done|].
  destruct (IH (if row_matches filter re
                then update_collection fq (fun r => Add r re) σ else σ)) as [-> ->].
  destruct (row_matches filter re); [|done].
  unfold update_collection. destruct (collections σ !! fq); [|done].
  cbn. by rewrite length_insert.
Qed.

(** The snapshot [applyFilter] builds for a non-empty filter is a new
    object: the header and the namespace are copied into it. *)
Lemma filtered_table_allocated (σ : Store) (hdr : Header) (ns : string) :
  SetNamespace (length (tables σ)) ns
    (SetHeader (length (tables σ)) hdr (snd (NewTableData σ))) =
  mkStore (tables σ ++ [mkTableData hdr (length (collections σ)) ns ""])
          (collections σ ++ [NewRowEvents 10]).
Proof.
  unfold NewTableData, alloc_collection, alloc_table. cbn [snd fst tables collections].
  unfold SetHeader, update_table. cbn [tables collections].
  rewrite list_lookup_middle by done. cbn [rowEvents namespace errMsg].
  rewrite insert_app_r_alt, Nat.sub_diag by done. cbn [insert list_insert].
  unfold SetNamespace, update_table. cbn [tables collections].
  rewrite list_lookup_middle by done. cbn [rowEvents header errMsg].
  rewrite insert_app_r_alt, Nat.sub_diag by done. done.
Qed.

(** [applyFilter] on a table that holds a usable snapshot: it returns, the
    settings and the stored pointer are as before, every object of the
    store is as before, and with an empty filter text the cells are the
    view of the stored snapshot. *)
Lemma applyFilter_spec (σ : Store) (t : Table) (d : nat) :
  fullData t = Some d -> valid_table σ d ->
  exists t' σ', applyFilter σ t = Some (t', σ')
    /\ settings t' = settings t
    /\ extends σ σ'
    /\ (ToLower (filterText t) = "" ->
        forall td rows, tables σ !! d = Some td ->
          collections σ !! rowEvents td = Some rows ->
          cells (surface t') = view_cells (sortColName t) td rows).
Proof.
  intros Hd (td & Htd & [rows Hrows]).
  assert (title_ok σ t) as Hok.
  { intros f Hf. rewrite Hd in Hf. injection Hf as <-. eauto. }
  unfold applyFilter. rewrite Hd.
  destruct (String.eqb_spec (ToLower (filterText t)) "") as [E|E].
  - destruct (renderData_view σ t d td rows Htd Hrows Hok) as (t' & -> & Hset & Hcells).
    cbn. exists t', σ. split; [done|]. split; [done|]. split; [apply extends_refl|].
    intros _ td' rows' Htd' Hrows'.
    rewrite Htd in Htd'. injection Htd' as <-.
    rewrite Hrows in Hrows'. by injection Hrows' as <-.
  - pose proof (filtered_table_allocated σ (header td) (namespace td)) as Halloc.
    pose proof (NewTableData_extends σ) as Hext1.
    destruct (NewTableData σ) as [filtered σ1] eqn:Enew.
    assert (filtered = length (tables σ)) as -> by (by injection Enew as <- _).
    cbn [snd] in Halloc, Hext1.
    rewrite (extends_table _ _ _ _ Hext1 Htd). cbn [mbind option_bind].
    rewrite Halloc. cbn [tables collections].
    rewrite (lookup_app_l_Some _ _ _ _ Hrows). cbn [mbind option_bind].
    rewrite list_lookup_middle by done. cbn [mbind option_bind rowEvents].
    set (σ2 := mkStore (tables σ ++ [mkTableData (header td) (length (collections σ)) (namespace td) ""])
                       (collections σ ++ [NewRowEvents 10])).
    set (σ3 := filter_rows (ToLower (filterText t)) (length (collections σ)) (events rows) σ2).
    assert (extends σ σ2) as Hext2 by (split; cbn; by apply prefix_app_r).
    assert (extends σ σ3) as Hext3 by (by apply filter_rows_extends).
    destruct (filter_rows_tables (ToLower (filterText t)) (length (collections σ))
                (events rows) σ2) as [Htabs Hlen].
    fold σ3 in Htabs, Hlen.
    assert (is_Some (collections σ3 !! length (collections σ))) as [frows Hfrows].
    { apply lookup_lt_is_Some. rewrite Hlen. cbn. rewrite length_app. cbn. lia. }
    destruct (renderData_view σ3 t (length (tables σ))
                (mkTableData (header td) (length (collections σ)) (namespace td) "") frows)
      as (t' & Hrender & Hset & _).
    + rewrite Htabs. cbn. by apply list_lookup_middle.
    + done.
    + intros f Hf. rewrite Hd in Hf. injection Hf as <-.
      exists td. by eapply extends_table.
    + rewrite Hrender. cbn. exists t', σ3.
      split; [done|]. split; [done|]. split; [done|]. intros Hempty. done.
Qed.

Lemma settings_eq (t t' : Table) :
  settings t' = settings t ->
  fullData t' = fullData t /\ sortColName t' = sortColName t
  /\ filterText t' = filterText t /\ isUpdating t' = isUpdating t.
Proof. unfold settings. intros [= ? ? ? ? ? ? ?]. done. Qed.

#[local] Arguments applyFilter : simpl never.

(** A filter keystroke on a table that holds a usable snapshot: the stored
    pointer and the sort column are as before, and every object of the
    store is as before. *)
Lemma handleFilterInput_spec (k : Key) (σ : Store) (t : Table) (d : nat) :
  fullData t = Some d -> valid_table σ d ->
  exists t' σ', handleFilterInput k σ t = Some (t', σ')
    /\ fullData t' = Some d
    /\ sortColName t' = sortColName t
    /\ extends σ σ'.
Proof.
  intros Hd Hvalid.
  assert (forall text active, exists t' σ',
            applyFilter σ (with_filter t text active) = Some (t', σ')
            /\ fullData t' = Some d /\ sortColName t' = sortColName t /\ extends σ σ') as Happly.
  { intros text active.
    destruct (applyFilter_spec σ (with_filter t text active) d Hd Hvalid)
      as (t' & σ' & E & Hset & Hext & _).
    apply settings_eq in Hset as (Hfull & Hsort & _).
    exists t', σ'. split; [done|]. cbn in Hfull, Hsort.
    rewrite Hfull, Hsort. done. }
  destruct k as [| | |utf8|]; cbn [handleFilterInput].
  - apply Happly.
  - destruct (updateTitleWithFilter_total σ (with_filter t (filterText t) false))
      as (t' & -> & Hset & _).
    { intros f Hf. cbn in Hf. rewrite Hd in Hf. injection Hf as <-.
      destruct Hvalid as (td & -> & _). eauto. }
    apply settings_eq in Hset as (Hfull & Hsort & _). cbn in Hfull, Hsort.
    cbn. exists t', σ. rewrite Hfull, Hsort. split; [done|]. split; [done|].
    split; [done|apply extends_refl].
  - apply Happly.
  - apply Happly.
  - exists t, σ. split; [done|]. split; [done|]. split; [done|apply extends_refl].
Qed.

Lemma type_keys_spec (ks : list Key) (σ : Store) (t : Table) (d : nat) :
  fullData t = Some d -> valid_table σ d ->
  exists t' σ', type_keys ks σ t = Some (t', σ')
    /\ fullData t' = Some d
    /\ sortColName t' = sortColName t
    /\ extends σ σ'.
Proof.
  revert σ t. induction ks as [|k ks IH]; intros σ t Hd Hvalid; cbn [type_keys].
  - exists t, σ. split; [done|]. split; [done|]. split; [done|apply extends_refl].
  - destruct (handleFilterInput_spec k σ t d Hd Hvalid) as (t1 & σ1 & -> & Hd1 & Hs1 & Hext1).
    cbn. destruct (IH σ1 t1 Hd1 (valid_table_extends _ _ _ Hext1 Hvalid))
      as (t' & σ' & -> & Hd' & Hs' & Hext').
    exists t', σ'. split; [done|]. split; [done|]. split; [congruence|].
    by eapply extends_trans.
Qed.

(** [UpdateUI] with no filter text, when no update is running: the snapshot
    is stored and shown. *)
Lemma UpdateUI_spec (σ : Store) (t : Table) (d : nat) (td : TableData) (rows : RowEvents) :
  isUpdating t = false -> filterText t = "" ->
  tables σ !! d = Some td -> collections σ !! rowEvents td = Some rows ->
  exists t0, UpdateUI (Some d) σ t = Some (t0, σ)
    /\ fullData t0 = Some d
    /\ sortColName t0 = sortColName t
    /\ isUpdating t0 = false
    /\ cells (surface t0) =
         if Empty rows then [(0, 0, message_cell "No resources found")]
         else view_cells (sortColName t) td rows.
Proof.
  intros Hup Hfilter Htd Hrows. unfold UpdateUI. rewrite Hup.
  unfold TableEmpty, table_rows. rewrite Htd. cbn [mbind option_bind fmap option_fmap option_map].
  rewrite Hrows. cbn [mbind option_bind fmap option_fmap option_map].
  assert (title_ok σ (with_update t (Some d) true)) as Hok.
  { intros f Hf. cbn in Hf. injection Hf as <-. eauto. }
  destruct (Empty rows) eqn:Eempty.
  - destruct (updateTitleWithFilter_total σ
                (showNoData "No resources found" (with_update t (Some d) true)))
      as (t' & -> & Hset & _ & Hcells & _).
    { intros f Hf. apply Hok. exact Hf. }
    apply settings_eq in Hset as (Hfull & Hsort & _). cbn in Hfull, Hsort.
    cbn. eexists. split; [done|]. cbn. rewrite Hfull, Hsort, Hcells. done.
  - cbn [filterText with_update]. rewrite Hfilter. cbn [String.eqb negb].
    destruct (renderData_view σ (with_update t (Some d) true) d td rows Htd Hrows Hok)
      as (t' & -> & Hset & Hcells).
    apply settings_eq in Hset as (Hfull & Hsort & _). cbn in Hfull, Hsort.
    cbn. eexists. split; [done|]. cbn. rewrite Hfull, Hsort, Hcells.
    unfold view_cells. rewrite Eempty. done.
Qed.

(** *** Reading the rows back *)

Lemma texts_at_app (r : Z) (cs1 cs2 : list (Z * Z * Cell)) :
  texts_at r (cs1 ++ cs2) = texts_at r cs1 ++ texts_at r cs2.
Proof. unfold texts_at. by rewrite filter_app, map_app. Qed.

Lemma texts_at_header (scn : string) (col : Z) (hdr : Header) (r : Z) :
  r <> 0 -> texts_at r (header_writes scn col hdr) = [].
Proof.
  intros Hr. revert col. induction hdr as [|h hdr IH]; intros col; [done|].
  cbn [header_writes]. unfold texts_at in *.
  rewrite filter_cons_False by (cbn; lia). apply IH.
Qed.

Lemma texts_at_row (row : Row) (hdr : Header) (rowIdx col : Z) (fields : list string) (r : Z) :
  0 <= col ->
  texts_at r (row_writes row hdr rowIdx col fields) =
  if decide (r = rowIdx) then take (length hdr - Z.to_nat col) fields else [].
Proof.
  revert col. induction fields as [|field fields IH]; intros col Hcol; cbn [row_writes].
  - destruct (decide (r = rowIdx)); [by rewrite take_nil|done].
  - destruct (Z.geb_spec col (Z.of_nat (length hdr))) as [Hge|Hlt].
    + replace (length hdr - Z.to_nat col)%nat with 0%nat by lia.
      by destruct (decide (r = rowIdx)).
    + destruct (lookup_lt_is_Some_2 hdr (Z.to_nat col)) as [h ->]; [lia|].
      unfold texts_at in *. specialize (IH (col + 1) ltac:(lia)).
      replace (length hdr - Z.to_nat col)%nat
        with (S (length hdr - Z.to_nat (col + 1)))%nat by lia.
      destruct (decide (r = rowIdx)) as [->|Hne].
      * rewrite filter_cons_True by done. cbn [map snd Text row_cell take].
        by rewrite IH.
      * rewrite filter_cons_False by (cbn; congruence). apply IH.
Qed.

(** Row [idx + 1 + i] of what [renderData] writes for the events shows the
    fields of event [i], cut at the width of the header; no other row below
    or above is written. *)
Lemma texts_at_rows (hdr : Header) (idx : Z) (evs : list RowEvent) (r : Z) :
  texts_at r (rows_writes hdr idx evs) =
  if decide (idx < r <= idx + Z.of_nat (length evs)) then
    match evs !! Z.to_nat (r - idx - 1) with
    | Some e => take (length hdr) (RowFields (EvRow e))
    | None => []
    end
  else [].
Proof.
  revert idx. induction evs as [|e evs IH]; intros idx; cbn [rows_writes length].
  - destruct (decide _); [|done]. cbn in *. lia.
  - rewrite texts_at_app, texts_at_row, IH by lia.
    rewrite Nat.sub_0_r.
    destruct (decide (r = idx + 1)) as [->|Hne].
    + rewrite decide_False by lia. rewrite app_nil_r.
      rewrite decide_True by lia.
      by replace (Z.to_nat (idx + 1 - idx - 1)) with 0%nat by lia.
    + cbn [app]. destruct (decide (idx + 1 < r <= idx + 1 + Z.of_nat (length evs))).
      * rewrite decide_True by lia.
        replace (Z.to_nat (r - idx - 1)) with (S (Z.to_nat (r - (idx + 1) - 1))) by lia.
        done.
      * by rewrite decide_False by lia.
Qed.

(** What the view of a snapshot shows, row for row. *)
Lemma view_cells_rows (scn : string) (td : TableData) (rows : RowEvents) :
  (forall (i : nat) (e : RowEvent), events rows !! i = Some e ->
     texts_at (Z.of_nat i + 1) (view_cells scn td rows)
     = take (length (header td)) (RowFields (EvRow e)))
  /\ (forall r : Z, Z.of_nat (length (events rows)) < r ->
        texts_at r (view_cells scn td rows) = []).
Proof.
  unfold view_cells, Empty. split.
  - intros i e Hi. pose proof (lookup_lt_Some _ _ _ Hi) as Hlt.
    destruct (Z.eqb_spec (Z.of_nat (length (events rows))) 0); [lia|].
    rewrite texts_at_app, texts_at_header by lia. cbn [app].
    rewrite texts_at_rows. rewrite decide_True by lia.
    replace (Z.to_nat (Z.of_nat i + 1 - 0 - 1)) with i by lia. by rewrite Hi.
  - intros r Hr.
    destruct (Z.eqb_spec (Z.of_nat (length (events rows))) 0).
    + unfold texts_at. rewrite filter_cons_False by (cbn; lia). done.
    + rewrite texts_at_app, texts_at_header by lia. cbn [app].
      rewrite texts_at_rows. by rewrite decide_False by lia.
Qed.

(** C9, amended.  Store a snapshot with [UpdateUI] (no update running, no
    filter text), type any filter keystrokes, then clear the filter with
    [Esc].  Every call returns; the table still holds the same snapshot
    pointer; every object of the store, and so the header, the namespace
    and the row events of the stored snapshot, is as it was.  When the
    snapshot has rows, the cells after clearing are those [UpdateUI] showed:
    the header row, then the events of the snapshot in their order, row
    [i + 1] showing the fields of event [i] up to the width of the header,
    and nothing below.  When the snapshot has no row, the surface shows the
    one message ["No matching resources"], where [UpdateUI] showed
    ["No resources found"]. *)
Theorem filter_round_trip (σ : Store) (t : Table) (d : nat) (td : TableData)
    (rows : RowEvents) (keys : list Key) :
  isUpdating t = false -> filterText t = "" ->
  tables σ !! d = Some td -> collections σ !! rowEvents td = Some rows ->
  exists t0 σ0 t1 σ1 t2 σ2,
    UpdateUI (Some d) σ t = Some (t0, σ0)
    /\ type_keys keys σ0 t0 = Some (t1, σ1)
    /\ handleFilterInput KeyEsc σ1 t1 = Some (t2, σ2)
    /\ fullData t0 = Some d /\ fullData t1 = Some d /\ fullData t2 = Some d
    /\ filterText t2 = ""
    /\ (forall σ', σ' = σ0 \/ σ' = σ1 \/ σ' = σ2 ->
          extends σ σ'
          /\ tables σ' !! d = Some td
          /\ collections σ' !! rowEvents td = Some rows)
    /\ cells (surface t0) =
         (if Empty rows then [(0, 0, message_cell "No resources found")]
          else header_writes (sortColName t) 0 (header td)
               ++ rows_writes (header td) 0 (events rows))
    /\ cells (surface t2) =
         (if Empty rows then [(0, 0, message_cell "No matching resources")]
          else header_writes (sortColName t) 0 (header td)
               ++ rows_writes (header td) 0 (events rows))
    /\ (forall (i : nat) (e : RowEvent), events rows !! i = Some e ->
          row_texts (surface t2) (Z.of_nat i + 1)
          = take (length (header td)) (RowFields (EvRow e)))
    /\ (forall r : Z, Z.of_nat (length (events rows)) < r ->
          row_texts (surface t2) r = []).
Proof.
  intros Hup Hfilter Htd Hrows.
  assert (valid_table σ d) as Hvalid by (exists td; eauto).
  destruct (UpdateUI_spec σ t d td rows Hup Hfilter Htd Hrows)
    as (t0 & E0 & Hd0 & Hs0 & _ & Hcells0).
  destruct (type_keys_spec keys σ t0 d Hd0 Hvalid) as (t1 & σ1 & E1 & Hd1 & Hs1 & Hext1).
  pose proof (valid_table_extends _ _ _ Hext1 Hvalid) as Hvalid1.
  destruct (applyFilter_spec σ1 (with_filter t1 "" false) d Hd1 Hvalid1)
    as (t2 & σ2 & E2 & Hset2 & Hext12 & Hview).
  apply settings_eq in Hset2 as (Hd2 & _ & Hf2 & _). cbn in Hd2, Hf2.
  assert (extends σ σ2) as Hext2 by (by eapply extends_trans).
  specialize (Hview eq_refl td rows (extends_table _ _ _ _ Hext1 Htd)
                (extends_collection _ _ _ _ Hext1 Hrows)).
  cbn in Hview. rewrite Hs1, Hs0 in Hview.
  destruct (view_cells_rows (sortColName t) td rows) as [Hrow Hbelow].
  exists t0, σ, t1, σ1, t2, σ2.
  split; [done|]. split; [done|]. split; [done|].
  split; [done|]. split; [done|]. split; [congruence|]. split; [done|].
  split.
  { intros σ' [->|[->| ->]].
    - split; [apply extends_refl|done].
    - split; [done|]. split; [by eapply extends_table|by eapply extends_collection].
    - split; [done|]. split; [by eapply extends_table|by eapply extends_collection]. }
  split.
  { rewrite Hcells0. unfold view_cells. by destruct (Empty rows). }
  split; [by rewrite Hview|].
  unfold row_texts. rewrite Hview. done.
Qed.

End FilterProperties.

Section FilterExamples.

Import model1 ui.

(** For the examples, whose letters are ASCII: strings that have other
    bytes are left as they are. *)
Definition unmapped : UnicodeLower := fun s => s.

#[local] Existing Instance unmapped.

Definition demo_header : Header :=
  [mkHeaderColumn "NAME" (mkAttrs 0 false false false false);
   mkHeaderColumn "STATE" (mkAttrs 0 false false false false)].

(** A store with one snapshot of two rows. *)
Definition demo_store : Store :=
  mkStore
    [mkTableData demo_header 0 "us-east-1" ""]
    [Add (Add (NewRowEvents 2)
            (NewRowEvent EventAdd (mkRow "i-1" ["web"; "running"])))
         (NewRowEvent EventAdd (mkRow "i-2" ["db"; "stopped"]))].

(** A store with one snapshot that has no row. *)
Definition bare_store : Store :=
  mkStore [mkTableData demo_header 0 "us-east-1" ""] [NewRowEvents 0].

Definition demo_table : Table :=
  mkTable (mkSurface [] TitleNone (0, 0)) "ec2/instance" None [] "" "" false None false.

(** The texts the surface shows, in the order they were written. *)
Definition shown (t : Table) : list string := map (fun c => Text (snd c)) (cells (surface t)).

(** C9, as the specification states it, fails on a snapshot that has no
    row: [UpdateUI] shows "No resources found", and after a filter is typed
    and cleared the view shows "No matching resources", with no filter
    set. *)
Lemma round_trip_on_empty_snapshot :
  ('(t0, σ0) ← UpdateUI (Some 0%nat) bare_store demo_table;
   '(t1, σ1) ← type_keys [KeyRune "w"] σ0 t0;
   '(t2, σ2) ← handleFilterInput KeyEsc σ1 t1;
   Some (shown t0, filterText t1, shown t2, filterText t2))
  = Some (["No resources found"], "w", ["No matching resources"], "").
Proof. reflexivity. Qed.

Lemma filter_round_trip_witness :
  isUpdating demo_table = false /\ filterText demo_table = ""
  /\ exists t0 σ0 t1 σ1 t2 σ2,
       UpdateUI (Some 0%nat) demo_store demo_table = Some (t0, σ0)
       /\ type_keys [KeyRune "W"; KeyRune "e"; KeyBackspace] σ0 t0 = Some (t1, σ1)
       /\ handleFilterInput KeyEsc σ1 t1 = Some (t2, σ2)
       /\ cells (surface t2) = cells (surface t0)
       /\ row_texts (surface t2) 1 = ["web"; "running"]
       /\ row_texts (surface t2) 2 = ["db"; "stopped"]
       /\ row_texts (surface t2) 3 = [].
Proof.
  split; [reflexivity|]. split; [reflexivity|].
  destruct (filter_round_trip demo_store demo_table 0
              (mkTableData demo_header 0 "us-east-1" "")
              (Add (Add (NewRowEvents 2)
                      (NewRowEvent EventAdd (mkRow "i-1" ["web"; "running"])))
                 (NewRowEvent EventAdd (mkRow "i-2" ["db"; "stopped"])))
              [KeyRune "W"; KeyRune "e"; KeyBackspace]
              eq_refl eq_refl eq_refl eq_refl)
    as (t0 & σ0 & t1 & σ1 & t2 & σ2 & E0 & E1 & E2 & _ & _ & _ & _ & _ & C0 & C2 & R & B).
  exists t0, σ0, t1, σ1, t2, σ2.
  split; [exact E0|]. split; [exact E1|]. split; [exact E2|].
  split; [by rewrite C0, C2|].
  split; [exact (R 0%nat _ eq_refl)|].
  split; [exact (R 1%nat _ eq_refl)|].
  apply B. reflexivity.
Defined.

End FilterExamples.

(* ===================================================================== *)
(** * Further properties of the row model                                *)
(* ===================================================================== *)

Section DeltaRowMore.

Import model1.

(** The delta row has one entry per field of the old row whatever the
    length of the new row; it is empty at every column the new row lacks;
    and the delta row of a row against itself is blank. *)
Theorem NewDeltaRow_lengths (o n : Row) (h : Header) :
  length (NewDeltaRow o n h) = length (RowFields o)
  /\ (forall i : nat,
        (length (RowFields n) <= i < length (RowFields o))%nat ->
        NewDeltaRow o n h !! i = Some "")
  /\ IsBlank (NewDeltaRow o o h) = true.
Proof.
  unfold NewDeltaRow. split; [apply length_imap|]. split.
  - intros i [Hn Ho]. rewrite list_lookup_imap.
    destruct (lookup_lt_is_Some_2 (RowFields o) i Ho) as [old ->]. cbn.
    unfold delta_at. by rewrite (lookup_ge_None_2 (RowFields n) i Hn).
  - apply IsBlank_all_empty. intros i v Hv.
    apply list_lookup_imap_Some in Hv as (old & Ho & ->).
    rewrite (delta_at_changed _ _ _ _ _ Ho). by rewrite String.eqb_refl.
Qed.

(** ** DeltaRow.Diff *)

Lemma strings_eqb_eq (a b : list string) : strings_eqb a b = true <-> a = b.
Proof.
  revert b. induction a as [|x a IH]; intros [|y b]; cbn; try done.
  rewrite andb_true_iff, String.eqb_eq, IH. split; [intros [-> ->]|intros [= -> ->]]; done.
Qed.

Lemma DeepEqual_eq (a b : Slice) :
  DeepEqual a b = true <-> is_nil a = is_nil b /\ elems a = elems b.
Proof.
  unfold DeepEqual. rewrite andb_true_iff, strings_eqb_eq.
  split; intros [H1 H2]; split; try done.
  - by apply Bool.eqb_prop.
  - rewrite H1. by destruct (is_nil b).
Qed.

Lemma lists_agree_around {A} (a b : list A) (k : nat) :
  length a = length b ->
  (take k a = take k b /\ drop (S k) a = drop (S k) b) <->
  (forall i : nat, i <> k -> a !! i = b !! i).
Proof.
  intros Hlen. split.
  - intros [Ht Hd] i Hi.
    destruct (decide (i < k)%nat) as [Hlt|Hge].
    + rewrite <- (lookup_take_lt a k i), <- (lookup_take_lt b k i) by done. by rewrite Ht.
    + replace i with (S k + (i - S k))%nat by lia.
      rewrite <- !lookup_drop. by rewrite Hd.
  - intros Hall. split; apply list_eq; intros i.
    + destruct (decide (i < k)%nat) as [Hlt|Hge].
      * rewrite !lookup_take_lt by done. apply Hall. lia.
      * rewrite !lookup_take_ge by lia. done.
    + rewrite !lookup_drop. apply Hall. lia.
Qed.

Lemma DeltaRow_Diff_false_iff (d r : Slice) (ageCol : Z) :
  DeltaRow_Diff d r ageCol = false <->
  length (elems d) = length (elems r)
  /\ is_nil d = is_nil r
  /\ forall i : nat, Z.of_nat i <> ageCol -> elems d !! i = elems r !! i.
Proof.
  unfold DeltaRow_Diff, slice_len.
  destruct (Z.eqb_spec (Z.of_nat (length (elems d))) (Z.of_nat (length (elems r)))) as [Hlen|Hlen];
    cbn [negb].
  2:{ split; [done|]. intros [H _]. lia. }
  apply Nat2Z.inj in Hlen.
  destruct ((ageCol <? 0) || (ageCol >=? Z.of_nat (length (elems d)))) eqn:Hout.
  - rewrite negb_false_iff, DeepEqual_eq. split.
    + intros [Hnil Hel]. split; [done|]. split; [done|]. intros i _. by rewrite Hel.
    + intros (_ & Hnil & Hall). split; [done|]. apply list_eq. intros i.
      destruct (decide (Z.of_nat i = ageCol)) as [E|E]; [|by apply Hall].
      rewrite !lookup_ge_None_2; [done|lia..].
  - assert (0 <= ageCol < Z.of_nat (length (elems d))) as Hin by lia.
    pose proof (lists_agree_around (elems d) (elems r) (Z.to_nat ageCol) Hlen) as Hagree.
    replace (Z.to_nat (ageCol + 1)) with (S (Z.to_nat ageCol)) by lia.
    destruct (DeepEqual (slice_to d ageCol) (slice_to r ageCol)) eqn:E1; cbn [negb].
    + apply DeepEqual_eq in E1 as [Hnil Htake]. cbn in Hnil, Htake.
      destruct (Z.geb_spec (ageCol + 1) (Z.of_nat (length (elems d)))) as [Hlast|Hmore].
      * split; [|done]. intros _. split; [done|]. split; [done|].
        intros i Hi. apply Hagree; [|lia]. split; [done|].
        rewrite !drop_ge by lia. done.
      * rewrite negb_false_iff, DeepEqual_eq. cbn.
        replace (Z.to_nat (ageCol + 1)) with (S (Z.to_nat ageCol)) by lia.
        split.
        -- intros [_ Hdrop]. split; [done|]. split; [done|].
           intros i Hi. apply Hagree; [done|lia].
        -- intros (_ & _ & Hall). split; [done|].
           apply Hagree. intros i Hi. apply Hall. lia.
    + split; [done|]. intros (_ & Hnil & Hall).
      assert (DeepEqual (slice_to d ageCol) (slice_to r ageCol) = true); [|congruence].
      apply DeepEqual_eq. cbn. split; [done|].
      apply Hagree. intros i Hi. apply Hall. lia.
Qed.

(** [DeltaRow.Diff] reports no difference exactly when the two delta rows
    have the same length, are both nil or both non-nil, and hold the same
    value at every index other than [ageCol]. *)
Theorem DeltaRow_Diff_spec (d r : Slice) (ageCol : Z) :
  DeltaRow_Diff d r ageCol = false <->
  length (elems d) = length (elems r)
  /\ is_nil d = is_nil r
  /\ forall i : nat, Z.of_nat i <> ageCol -> elems d !! i = elems r !! i.
Proof. apply DeltaRow_Diff_false_iff. Qed.

(** [Diff] is reflexive and symmetric; a non-nil delta row does not differ
    from its [Clone], but a nil one does: [Clone] returns an empty slice
    that is not nil. *)
Theorem DeltaRow_Diff_clone (d r : Slice) (ageCol : Z) :
  DeltaRow_Diff d d ageCol = false
  /\ DeltaRow_Diff d r ageCol = DeltaRow_Diff r d ageCol
  /\ DeltaRow_Diff d (Slice_Clone d) ageCol = is_nil d
  /\ DeltaRow_Diff nil_slice (Slice_Clone nil_slice) ageCol = true.
Proof.
  assert (forall a b, DeltaRow_Diff a b ageCol = DeltaRow_Diff b a ageCol) as Hsym.
  { intros a b.
    destruct (DeltaRow_Diff a b ageCol) eqn:E1, (DeltaRow_Diff b a ageCol) eqn:E2; try done.
    - apply DeltaRow_Diff_false_iff in E2 as (? & ? & Hall).
      assert (DeltaRow_Diff a b ageCol = false); [|congruence].
      apply DeltaRow_Diff_false_iff. split; [done|]. split; [done|].
      intros i Hi. symmetry. by apply Hall.
    - apply DeltaRow_Diff_false_iff in E1 as (? & ? & Hall).
      assert (DeltaRow_Diff b a ageCol = false); [|congruence].
      apply DeltaRow_Diff_false_iff. split; [done|]. split; [done|].
      intros i Hi. symmetry. by apply Hall. }
  split; [by apply DeltaRow_Diff_false_iff|]. split; [apply Hsym|].
  assert (DeltaRow_Diff d (Slice_Clone d) ageCol = is_nil d) as Hclone.
  { destruct (is_nil d) eqn:Hnil.
    - destruct (DeltaRow_Diff d (Slice_Clone d) ageCol) eqn:E; [done|].
      apply DeltaRow_Diff_false_iff in E as (_ & E & _). cbn in E. congruence.
    - apply DeltaRow_Diff_false_iff. cbn. done. }
  split; [done|].
  destruct (DeltaRow_Diff nil_slice (Slice_Clone nil_slice) ageCol) eqn:E; [done|].
  apply DeltaRow_Diff_false_iff in E as (_ & E & _). done.
Qed.

End DeltaRowMore.

(* ===================================================================== *)
(** * Further properties of headers, row events and durations            *)
(* ===================================================================== *)

Section HeaderMore.

Import model1.

(** A column [IndexOf] may return: wide columns only count when asked for. *)
Definition selectable (includeWide : bool) (c : HeaderColumn) : bool :=
  includeWide || negb (Wide (attrs c)).

Lemma IndexOf_from_spec (h : Header) (k : Z) (colName : string) (includeWide : bool) :
  match IndexOf_from k h colName includeWide with
  | (i, true) =>
      k <= i
      /\ (exists c, h !! Z.to_nat (i - k) = Some c
            /\ Name c = colName /\ selectable includeWide c = true)
      /\ forall (j : nat) c, (Z.of_nat j < i - k) -> h !! j = Some c ->
           selectable includeWide c = true -> Name c <> colName
  | (i, false) =>
      i = -1
      /\ forall (j : nat) c, h !! j = Some c ->
           selectable includeWide c = true -> Name c <> colName
  end.
Proof.
  revert k. induction h as [|c h IH]; intros k; cbn.
  - split; [done|]. intros j c H. done.
  - assert (forall rest,
        match rest with
        | (i, true) =>
            k + 1 <= i
            /\ (exists c0, h !! Z.to_nat (i - (k + 1)) = Some c0
                  /\ Name c0 = colName /\ selectable includeWide c0 = true)
            /\ (forall (j : nat) c0, Z.of_nat j < i - (k + 1) -> h !! j = Some c0 ->
                  selectable includeWide c0 = true -> Name c0 <> colName)
        | (i, false) =>
            i = -1
            /\ (forall (j : nat) c0, h !! j = Some c0 ->
                  selectable includeWide c0 = true -> Name c0 <> colName)
        end ->
        (selectable includeWide c = true -> Name c <> colName) ->
        match rest with
        | (i, true) =>
            k <= i
            /\ (exists c0, (c :: h) !! Z.to_nat (i - k) = Some c0
                  /\ Name c0 = colName /\ selectable includeWide c0 = true)
            /\ (forall (j : nat) c0, Z.of_nat j < i - k -> (c :: h) !! j = Some c0 ->
                  selectable includeWide c0 = true -> Name c0 <> colName)
        | (i, false) =>
            i = -1
            /\ (forall (j : nat) c0, (c :: h) !! j = Some c0 ->
                  selectable includeWide c0 = true -> Name c0 <> colName)
        end) as Hskip.
    { intros [i [|]] Hrest Hc.
      - destruct Hrest as (Hle & (c0 & Hc0 & Hn & Hs) & Hfirst).
        split; [lia|]. split.
        + exists c0. replace (Z.to_nat (i - k)) with (S (Z.to_nat (i - (k + 1)))) by lia.
          done.
        + intros [|j] c1 Hj Hc1; cbn in Hc1.
          * injection Hc1 as <-. done.
          * apply (Hfirst j). lia. done.
      - destruct Hrest as (-> & Hnone). split; [done|].
        intros [|j] c1 Hc1; cbn in Hc1.
        + injection Hc1 as <-. done.
        + by apply (Hnone j). }
    destruct (Wide (attrs c) && negb includeWide) eqn:Hw.
    + apply Hskip; [apply IH|].
      unfold selectable. apply andb_true_iff in Hw as [-> Hi].
      apply negb_true_iff in Hi. rewrite Hi. done.
    + destruct (String.eqb_spec (Name c) colName) as [E|E].
      * split; [lia|]. split.
        -- exists c. rewrite Z.sub_diag. split; [done|]. split; [done|].
           unfold selectable. destruct includeWide; [done|].
           cbn in Hw |- *. rewrite andb_true_r in Hw. by rewrite Hw.
        -- intros j c0 Hj. lia.
      * apply Hskip; [apply IH|done].
Qed.

(** [IndexOf] returns the position of the first column that has the name
    and may be returned (a wide column only when [includeWide] is set), and
    [(-1, false)] when there is none. *)
Theorem IndexOf_first_match (h : Header) (colName : string) (includeWide : bool) :
  match IndexOf h colName includeWide with
  | (i, true) =>
      0 <= i
      /\ (exists c, h !! Z.to_nat i = Some c
            /\ Name c = colName /\ selectable includeWide c = true)
      /\ forall (j : nat) c, (Z.of_nat j < i) -> h !! j = Some c ->
           selectable includeWide c = true -> Name c <> colName
  | (i, false) =>
      i = -1
      /\ forall (j : nat) c, h !! j = Some c ->
           selectable includeWide c = true -> Name c <> colName
  end.
Proof.
  pose proof (IndexOf_from_spec h 0 colName includeWide) as H.
  unfold IndexOf. destruct (IndexOf_from 0 h colName includeWide) as [i [|]]; [|done].
  by rewrite Z.sub_0_r in H.
Qed.

End HeaderMore.

Section RowEventsMore.

Import model1.

Lemma Add_Get_added (r : RowEvents) (re : RowEvent) :
  Get (Add r re) (ID (EvRow re)) = (re, true)
  /\ FindIndex (Add r re) (ID (EvRow re)) = (Len r, true)
  /\ Len (Add r re) = Len r + 1.
Proof.
  unfold Get, FindIndex, Add, Len, At. cbn [events index].
  rewrite lookup_insert_eq, length_app. cbn [length].
  replace (Z.of_nat (length (events r) + 1) - 1) with (Z.of_nat (length (events r))) by lia.
  split; [|split; [done|lia]].
  destruct (Z.ltb_spec (Z.of_nat (length (events r))) 0) as [?|_]; [lia|].
  destruct (Z.geb_spec (Z.of_nat (length (events r))) (Z.of_nat (length (events r) + 1)))
    as [?|_]; [lia|].
  cbn [orb]. rewrite Nat2Z.id. by rewrite list_lookup_middle.
Qed.

(** [Add] always indexes the position it appends at: a lookup of the added
    identifier returns the added event, whatever the collection held. *)
Theorem Add_then_Get (r : RowEvents) (re : RowEvent) :
  Get (Add r re) (ID (EvRow re)) = (re, true)
  /\ FindIndex (Add r re) (ID (EvRow re)) = (Len r, true)
  /\ Len (Add r re) = Len r + 1.
Proof. apply Add_Get_added. Qed.

(** [Upsert] on a consistent collection: the event is then found under its
    identifier, the length grows by one exactly when the identifier was
    absent, and the events of the other identifiers are untouched. *)
Theorem Upsert_then_Get (r : RowEvents) (re : RowEvent) :
  consistent r ->
  exists r', Upsert r re = Some r'
    /\ Get r' (ID (EvRow re)) = (re, true)
    /\ Len r' = Len r + (if snd (FindIndex r (ID (EvRow re))) then 0 else 1)
    /\ forall id, id <> ID (EvRow re) -> Get r' id = Get r id.
Proof.
  intros Hc. unfold Upsert, FindIndex.
  destruct (index r !! ID (EvRow re)) as [idx|] eqn:E; cbn [snd].
  - destruct (consistent_found _ _ _ Hc E) as [Hrange Hid].
    unfold slice_store.
    replace ((idx <? 0) || (idx >=? Z.of_nat (length (events r)))) with false by lia.
    cbn. eexists. split; [done|]. split; [|split].
    + unfold Get, At. cbn. rewrite E. rewrite length_insert.
      replace ((idx <? 0) || (idx >=? Z.of_nat (length (events r)))) with false by lia.
      rewrite list_lookup_insert_eq by lia. done.
    + unfold Len. cbn. rewrite length_insert. lia.
    + intros id Hid'. unfold Get, At. cbn. rewrite length_insert.
      destruct (index r !! id) as [j|] eqn:Ej; [|done].
      destruct (consistent_found _ _ _ Hc Ej) as [Hj Hidj].
      replace ((j <? 0) || (j >=? Z.of_nat (length (events r)))) with false by lia.
      rewrite list_lookup_insert_ne; [done|].
      intros Heq. apply Hid'. assert (idx = j) as -> by lia. congruence.
  - eexists. split; [done|].
    destruct (Add_Get_added r re) as (HG & _ & HL).
    split; [done|]. split; [done|].
    intros id Hid. unfold Get, At, Add. cbn.
    rewrite lookup_insert_ne by done.
    destruct (index r !! id) as [j|] eqn:Ej; [|done].
    destruct (consistent_found _ _ _ Hc Ej) as [Hj Hidj].
    rewrite length_app. cbn [length].
    replace ((j <? 0) || (j >=? Z.of_nat (length (events r)))) with false by lia.
    destruct (Z.ltb_spec j 0) as [?|_]; [lia|].
    destruct (Z.geb_spec j (Z.of_nat (length (events r) + 1))) as [?|_]; [lia|].
    cbn [orb].
    rewrite lookup_app_l by lia. done.
Qed.

Lemma Upsert_then_Get_witness :
  consistent (NewRowEvents 0)
  /\ exists r', Upsert (NewRowEvents 0) (row_event_of "a" ["1"]) = Some r'
       /\ Get r' "a" = (row_event_of "a" ["1"], true).
Proof.
  split; [apply consistent_new|].
  destruct (Upsert_then_Get (NewRowEvents 0) (row_event_of "a" ["1"]) (consistent_new 0))
    as (r' & E & HG & _).
  exists r'. split; [exact E|exact HG].
Defined.

(** [Set] writes the index entry of the new identifier and leaves the entry
    of the identifier it replaces: after a [Set] that changes the identifier
    at a position, a lookup by the replaced identifier still succeeds and
    returns the new event. *)
Theorem Set_leaves_stale_index (r : RowEvents) (i : Z) (old re : RowEvent) :
  consistent r ->
  0 <= i -> events r !! Z.to_nat i = Some old ->
  ID (EvRow old) <> ID (EvRow re) ->
  exists r', Set_ r i re = Some r'
    /\ FindIndex r' (ID (EvRow old)) = (i, true)
    /\ Get r' (ID (EvRow old)) = (re, true)
    /\ Get r' (ID (EvRow re)) = (re, true).
Proof.
  intros [Hnd Hix] Hpos Hold Hne.
  pose proof (lookup_lt_Some _ _ _ Hold) as Hlt.
  assert (index r !! ID (EvRow old) = Some i) as Hidx.
  { apply Hix. split; [done|]. unfold ids. by rewrite list_lookup_fmap, Hold. }
  unfold Set_, slice_store.
  replace ((i <? 0) || (i >=? Z.of_nat (length (events r)))) with false by lia.
  cbn. eexists. split; [done|].
  unfold FindIndex, Get, At. cbn.
  rewrite lookup_insert_ne by done. rewrite Hidx, lookup_insert_eq, length_insert.
  replace ((i <? 0) || (i >=? Z.of_nat (length (events r)))) with false by lia.
  rewrite list_lookup_insert_eq by lia. done.
Qed.

Lemma Set_leaves_stale_index_witness :
  let r := Add (NewRowEvents 1) (row_event_of "a" ["1"]) in
  consistent r
  /\ exists r', Set_ r 0 (row_event_of "b" ["2"]) = Some r'
       /\ Get r' "a" = (row_event_of "b" ["2"], true).
Proof.
  cbv zeta.
  assert (consistent (Add (NewRowEvents 1) (row_event_of "a" ["1"]))) as Hc.
  { apply consistent_Add; [apply consistent_new|reflexivity]. }
  split; [exact Hc|].
  destruct (Set_leaves_stale_index _ 0 (row_event_of "a" ["1"]) (row_event_of "b" ["2"]) Hc)
    as (r' & E & _ & HG & _); [lia|reflexivity|discriminate|].
  exists r'. split; [exact E|exact HG].
Defined.

(** *** Clone *)

Lemma foldl_Add_events (l : list RowEvent) (r : RowEvents) :
  events (foldl Add r l) = events r ++ l.
Proof.
  revert r. induction l as [|e l IH]; intros r; cbn.
  - by rewrite app_nil_r.
  - rewrite IH. cbn. by rewrite <- app_assoc.
Qed.

Lemma foldl_Add_consistent (l : list RowEvent) (r : RowEvents) :
  consistent r -> NoDup (ids (events r) ++ ids l) -> consistent (foldl Add r l).
Proof.
  revert r. induction l as [|e l IH]; intros r Hc Hnd; cbn; [done|].
  apply IH.
  - apply consistent_Add; [done|].
    destruct (index r !! ID (EvRow e)) as [i|] eqn:E; [|done].
    destruct (consistent_found _ _ _ Hc E) as [_ Hi].
    apply NoDup_app in Hnd as (_ & Hdisj & _).
    exfalso. apply (Hdisj (ID (EvRow e))).
    + by eapply list_elem_of_lookup_2.
    + cbn. apply elem_of_cons. by left.
  - cbn. unfold ids in *. rewrite map_app, <- app_assoc. done.
Qed.

Lemma consistent_index_unique (r1 r2 : RowEvents) :
  consistent r1 -> consistent r2 -> ids (events r1) = ids (events r2) ->
  index r1 = index r2.
Proof.
  intros [_ H1] [_ H2] Hids. apply map_eq. intros id.
  destruct (index r1 !! id) as [i|] eqn:E1.
  - symmetry. apply H2. rewrite <- Hids. by apply H1.
  - destruct (index r2 !! id) as [j|] eqn:E2; [|done].
    assert (index r1 !! id = Some j) as E; [|congruence].
    apply H1. rewrite Hids. by apply H2.
Qed.

(** The clone of a consistent collection holds the clones of its events in
    the same order, and the same index, whatever [Fields.Clone] does to the
    fields. *)
Theorem RowEvents_Clone_same_index (Fields_Clone : list string -> list string)
    (r : RowEvents) :
  consistent r ->
  events (RowEvents_Clone Fields_Clone r) = map (RowEvent_Clone Fields_Clone) (events r)
  /\ index (RowEvents_Clone Fields_Clone r) = index r
  /\ consistent (RowEvents_Clone Fields_Clone r).
Proof.
  intros Hc. unfold RowEvents_Clone.
  set (l := map (RowEvent_Clone Fields_Clone) (events r)).
  assert (ids l = ids (events r)) as Hids.
  { unfold l, ids. rewrite map_map. done. }
  assert (consistent (foldl Add (NewRowEvents (Z.of_nat (length l))) l)) as Hc'.
  { apply foldl_Add_consistent; [apply consistent_new|].
    cbn. rewrite Hids. by destruct Hc. }
  split; [by rewrite foldl_Add_events|]. split; [|done].
  apply consistent_index_unique; [done..|].
  by rewrite foldl_Add_events.
Qed.

Lemma RowEvents_Clone_same_index_witness :
  let r := Add (Add (NewRowEvents 2) (row_event_of "a" ["1"])) (row_event_of "b" ["2"]) in
  consistent r
  /\ index (RowEvents_Clone (fun f => f) r) = index r.
Proof.
  cbv zeta.
  assert (consistent (Add (Add (NewRowEvents 2) (row_event_of "a" ["1"]))
                          (row_event_of "b" ["2"]))) as Hc.
  { apply consistent_Add; [apply consistent_Add; [apply consistent_new|reflexivity]|].
    reflexivity. }
  split; [exact Hc|].
  exact (proj1 (proj2 (RowEvents_Clone_same_index (fun f => f) _ Hc))).
Defined.

End RowEventsMore.

Section DurationMore.

Import model1.

#[local] Arguments wrap64 : simpl never.
#[local] Arguments rune_of : simpl never.
#[local] Arguments unit_multiplier : simpl never.
#[local] Arguments runesToNum : simpl never.

Lemma digits_value_bound (rr : list Z) :
  Forall (fun c => rune_of "0" <= c <= rune_of "9") rr ->
  0 <= digits_value rr < 10 ^ Z.of_nat (length rr).
Proof.
  induction rr as [|c rr IH] using rev_ind; intros Hrr; [cbn; lia|].
  apply Forall_app in Hrr as [Hrr Hc]. apply Forall_inv in Hc.
  rewrite digits_value_snoc, length_app. cbn [length].
  rewrite Nat2Z.inj_add, Z.pow_add_r by lia.
  specialize (IH Hrr). change (rune_of "0") with 48 in *. change (rune_of "9") with 57 in *.
  change (10 ^ Z.of_nat 1) with 10. lia.
Qed.

(** [runesToNum] walks the runes from the last to the first with a running
    multiplier; the result is the base-10 reading of the runes, first rune
    most significant, each rune counting for its distance from ['0'], in
    64-bit arithmetic.  Up to eighteen decimal digits are read exactly. *)
Theorem runesToNum_decimal (rr : list Z) :
  runesToNum rr = wrap64 (digits_value rr)
  /\ (Forall (fun c => rune_of "0" <= c <= rune_of "9") rr ->
      (length rr <= 18)%nat ->
      runesToNum rr = digits_value rr).
Proof.
  split; [apply runesToNum_value|].
  intros Hrr Hlen. rewrite runesToNum_value. apply wrap64_small.
  pose proof (digits_value_bound rr Hrr) as [H0 H1].
  assert (10 ^ Z.of_nat (length rr) <= 10 ^ 18) by (apply Z.pow_le_mono_r; lia).
  lia.
Qed.

Lemma durationToSeconds_loop_no_unit (rs : list Z) (n : Z) (num : list Z) :
  Forall (fun r => unit_multiplier r = None) rs ->
  durationToSeconds_loop rs n num = n.
Proof.
  intros Hrs. revert num. induction Hrs as [|r rs Hr Hrs IH]; intros num; cbn; [done|].
  rewrite Hr. apply IH.
Qed.

Lemma durationToSeconds_loop_tail (rs tail : list Z) (n : Z) (num : list Z) :
  Forall (fun r => unit_multiplier r = None) tail ->
  durationToSeconds_loop (rs ++ tail) n num = durationToSeconds_loop rs n num.
Proof.
  intros Htail. revert n num. induction rs as [|r rs IH]; intros n num; cbn.
  - by apply durationToSeconds_loop_no_unit.
  - destruct (unit_multiplier r); apply IH.
Qed.

(** The two special cases of [durationToSeconds] agree with its loop. *)
Lemma durationToSeconds_is_loop (s : string) :
  durationToSeconds s = durationToSeconds_loop (runes s) 0 [].
Proof.
  unfold durationToSeconds.
  destruct (String.eqb_spec s "") as [->|_]; [done|].
  destruct (String.eqb_spec s NAValue) as [->|_]; [|done].
  reflexivity.
Qed.

(** *** Decoding around an ASCII byte

    A byte below [0x80] is never part of a longer sequence: the decoding of
    what stands before it does not depend on what follows it, and the byte
    is a rune of its own. *)

Lemma continuation_ascii (a : Z) : a < 128 -> continuation a = false.
Proof. intros Ha. unfold continuation. destruct (Z.leb_spec 128 a); [lia|done]. Qed.

#[local] Arguments Z.lor : simpl never.
#[local] Arguments Z.land : simpl never.
#[local] Arguments Z.shiftl : simpl never.
#[local] Arguments continuation : simpl never.

Lemma decoderune_ascii_stop (xs : list Z) (a : Z) (ys : list Z) :
  a < 128 ->
  decoderune (xs ++ a :: ys) = decoderune xs
  /\ (snd (decoderune xs) - 1 <= length xs - 1)%nat.
Proof.
  intros Ha. pose proof (continuation_ascii a Ha) as Hc.
  assert (forall b, b && continuation a = false) as Hc1
    by (intros; rewrite Hc; apply andb_false_r).
  assert (forall b c, b && continuation a && c = false) as Hc2
    by (intros; rewrite Hc1; done).
  split.
  - destruct xs as [|b0 [|b1 [|b2 [|b3 xs]]]]; cbn [app decoderune]; try done.
    + destruct (Z.leb_spec 192 a); [lia|]. destruct (Z.leb_spec 224 a); [lia|].
      destruct (Z.leb_spec 240 a); [lia|]. done.
    + rewrite Hc. destruct ys as [|y0 [|y1 ys]]; rewrite ?andb_false_l; done.
    + rewrite !Hc1. by destruct ys.
    + by rewrite Hc1.
  - destruct xs as [|b0 [|b1 [|b2 [|b3 xs]]]]; cbn [decoderune length];
      repeat case_match; cbn [snd]; lia.
Qed.

Lemma runes_from_ascii_split (xs : list Z) (a : Z) (ys : list Z) (k : nat) :
  a < 128 -> (k <= length xs)%nat ->
  runes_from k (xs ++ a :: ys) = runes_from k xs ++ a :: runes_from 0 ys.
Proof.
  intros Ha. revert k. induction xs as [|b xs IH]; intros k Hk.
  - assert (k = 0%nat) as -> by (cbn in Hk; lia). cbn [app runes_from].
    destruct (Z.ltb_spec a 128); [done|lia].
  - cbn [app runes_from length] in *. destruct k as [|k]; [|apply IH; lia].
    destruct (Z.ltb_spec b 128); [by rewrite IH by lia|].
    destruct (decoderune_ascii_stop (b :: xs) a ys Ha) as [E Hw].
    cbn [app] in E. rewrite E. cbn [length] in Hw.
    destruct (decoderune (b :: xs)) as [r w]. cbn [snd] in Hw.
    cbn [app]. f_equal. apply IH. lia.
Qed.

(** A rune that is not a byte of the string is [0x80] or more. *)
Lemma decoderune_high (xs : list Z) : 128 <= fst (decoderune xs).
Proof.
  unfold decoderune, RuneError.
  repeat case_match; cbn [fst]; try lia.
Qed.

Lemma unit_multiplier_high (r : Z) : 128 <= r -> unit_multiplier r = None.
Proof.
  intros Hr. unfold unit_multiplier.
  change (rune_of "y") with 121. change (rune_of "d") with 100.
  change (rune_of "h") with 104. change (rune_of "m") with 109.
  change (rune_of "s") with 115.
  destruct (Z.eqb_spec r 121); [lia|]. destruct (Z.eqb_spec r 100); [lia|].
  destruct (Z.eqb_spec r 104); [lia|]. destruct (Z.eqb_spec r 109); [lia|].
  destruct (Z.eqb_spec r 115); [lia|]. done.
Qed.

Lemma unit_multiplier_low (b : Z) : unit_multiplier b <> None -> b < 128.
Proof.
  intros Hb. destruct (Z.lt_ge_cases b 128) as [|Hge]; [done|].
  by apply unit_multiplier_high in Hge.
Qed.

(** A string without unit letters has no unit rune, and a unit letter of a
    string is one of its runes. *)
Lemma runes_from_no_unit (bs : list Z) (k : nat) :
  Forall (fun b => unit_multiplier b = None) bs ->
  Forall (fun r => unit_multiplier r = None) (runes_from k bs).
Proof.
  intros Hbs. revert k. induction Hbs as [|b bs Hb Hbs IH]; intros k; cbn [runes_from].
  - constructor.
  - destruct k as [|k]; [|apply IH].
    destruct (Z.ltb_spec b 128); [by constructor|].
    pose proof (decoderune_high (b :: bs)) as Hhigh.
    destruct (decoderune (b :: bs)) as [r w]. cbn [fst] in Hhigh.
    constructor; [by apply unit_multiplier_high|apply IH].
Qed.

Lemma runes_no_unit_bytes (bs : list Z) :
  Forall (fun r => unit_multiplier r = None) (runes_from 0 bs) ->
  Forall (fun b => unit_multiplier b = None) bs.
Proof.
  intros Hrs. apply Forall_forall. intros b Hb.
  destruct (unit_multiplier b) as [m|] eqn:E; [|done].
  apply list_elem_of_split in Hb as (bs1 & bs2 & ->).
  rewrite runes_from_ascii_split in Hrs by (try lia; apply unit_multiplier_low; congruence).
  apply Forall_app in Hrs as [_ Hrs]. apply Forall_inv in Hrs. congruence.
Qed.

(** The bytes of a string split at its last unit letter, if it has one. *)
Lemma last_unit_split (bs : list Z) :
  Forall (fun b => unit_multiplier b = None) bs
  \/ exists bs1 u bs2, bs = bs1 ++ u :: bs2
       /\ unit_multiplier u <> None
       /\ Forall (fun b => unit_multiplier b = None) bs2.
Proof.
  induction bs as [|b bs IH]; [left; constructor|].
  destruct IH as [Hall|(bs1 & u & bs2 & -> & Hu & Hbs2)].
  - destruct (unit_multiplier b) as [m|] eqn:E.
    + right. exists [], b, bs. split; [done|]. split; [congruence|done].
    + left. by constructor.
  - right. by exists (b :: bs1), u, bs2.
Qed.

Lemma bytes_of_app (s1 s2 : string) :
  bytes_of (String.append s1 s2) = bytes_of s1 ++ bytes_of s2.
Proof.
  unfold bytes_of. induction s1 as [|c s1 IH]; [done|].
  simpl. by rewrite IH.
Qed.

(** What follows the last unit suffix is ignored: appending characters that
    are not unit suffixes (digits, for one) changes nothing, so ["5h30"]
    parses like ["5h"] and a bare number parses to zero. *)
Theorem durationToSeconds_ignores_tail (s tail : string) :
  Forall (fun r => unit_multiplier r = None) (runes tail) ->
  durationToSeconds (String.append s tail) = durationToSeconds s.
Proof.
  intros Htail. rewrite !durationToSeconds_is_loop. unfold runes in *.
  rewrite bytes_of_app.
  apply runes_no_unit_bytes in Htail.
  destruct (last_unit_split (bytes_of s)) as [Hall|(bs1 & u & bs2 & -> & Hu & Hbs2)].
  - rewrite !durationToSeconds_loop_no_unit; [done|by apply runes_from_no_unit..|].
    apply runes_from_no_unit, Forall_app. done.
  - apply unit_multiplier_low in Hu.
    rewrite <- app_assoc. cbn [app].
    rewrite !runes_from_ascii_split by (try lia; done).
    assert (forall X Y : list Z, X ++ u :: Y = (X ++ [u]) ++ Y) as Hmid
      by (intros; by rewrite <- app_assoc).
    rewrite (Hmid _ (runes_from 0 (bs2 ++ bytes_of tail))), (Hmid _ (runes_from 0 bs2)).
    rewrite (durationToSeconds_loop_tail _ (runes_from 0 (bs2 ++ bytes_of tail)))
      by (apply runes_from_no_unit, Forall_app; done).
    by rewrite (durationToSeconds_loop_tail _ (runes_from 0 bs2))
      by (by apply runes_from_no_unit).
Qed.

Lemma durationToSeconds_ignores_tail_witness :
  Forall (fun r => unit_multiplier r = None) (runes "30")
  /\ durationToSeconds "5h30" = durationToSeconds "5h"
  /\ durationToSeconds "5h30" = 18000.
Proof.
  assert (Forall (fun r => unit_multiplier r = None) (runes "30")) as H.
  { repeat constructor. }
  split; [exact H|]. split; [|reflexivity].
  exact (durationToSeconds_ignores_tail "5h" "30" H).
Defined.

(** A letter outside ASCII is read as one rune: ["é"] is the code point 233,
    which counts as the digit 233 - 48. *)
Lemma durationToSeconds_decodes : durationToSeconds "éh" = (233 - 48) * 3600.
Proof. reflexivity. Qed.

End DurationMore.

(* ===================================================================== *)
(** * Further properties of the TTL cache                                *)
(* ===================================================================== *)

Section CacheMore.

Import aws.

Context {V : Type}.

Variable range_order : gmap string (CacheEntry V) -> list (string * CacheEntry V).
Hypothesis range_order_perm : forall m, range_order m ≡ₚ map_to_list m.

(** Whatever order the eviction loop meets the entries in: after any
    sequence of [Set], [SetWithTTL], [Delete], [DeletePrefix] and
    [Invalidate] on a new cache, none of which stores under the empty key,
    the resident count is at most [MaxEntries]. *)
Theorem cache_bounded_without_empty_key (cfg : option CacheConfig) (ops : list (CacheOp V)) :
  Forall (fun op => written_key op <> Some "") ops ->
  Z.of_nat (size (entries (cache_run range_order ops (NewResourceCache cfg))))
  <= maxEntries (cache_run range_order ops (NewResourceCache cfg)).
Proof. intros Hops. by apply (cache_run_bounded range_order range_order_perm cfg ops). Qed.

(** A [SetWithTTL] into a full cache in which one entry, not stored under
    the empty key, is strictly older than every other: that entry is the
    one evicted, whatever the order of the scan; the key that is set holds
    the new entry, which expires at [now + ttl]; every other entry stays. *)
Theorem eviction_removes_the_oldest (c : ResourceCache V) (key : string) (v : V)
    (ttl now : Z) (old : string) (e : CacheEntry V) :
  maxEntries c <= Z.of_nat (size (entries c)) ->
  entries c !! old = Some e -> old <> "" ->
  (forall k' e', entries c !! k' = Some e' -> k' <> old -> Timestamp e < Timestamp e') ->
  entries (SetWithTTL range_order c key v ttl now) !! key
    = Some (mkCacheEntry v now ttl (now + ttl))
  /\ (old <> key -> entries (SetWithTTL range_order c key v ttl now) !! old = None)
  /\ (forall k, k <> old -> k <> key ->
        entries (SetWithTTL range_order c key v ttl now) !! k = entries c !! k).
Proof.
  intros. by apply (SetWithTTL_evicts_oldest range_order range_order_perm c key v ttl now old e).
Qed.

(** Overwriting a resident key in a full cache still evicts: when the
    strictly oldest entry belongs to another key, not the empty one, that
    entry is lost and one entry fewer is resident. *)
Theorem overwrite_in_full_cache_evicts (c : ResourceCache V) (key : string) (v : V)
    (ttl now : Z) (old : string) (e : CacheEntry V) :
  Z.of_nat (size (entries c)) = maxEntries c ->
  is_Some (entries c !! key) ->
  entries c !! old = Some e -> old <> "" -> old <> key ->
  (forall k' e', entries c !! k' = Some e' -> k' <> old -> Timestamp e < Timestamp e') ->
  entries (SetWithTTL range_order c key v ttl now) !! old = None
  /\ Z.of_nat (size (entries (SetWithTTL range_order c key v ttl now))) = maxEntries c - 1.
Proof.
  intros.
  by apply (SetWithTTL_resident_evicts_other range_order range_order_perm
              c key v ttl now old e).
Qed.

(** Below capacity nothing is evicted: a [SetWithTTL] leaves every other
    key as it was and the count grows by one exactly when the key is new. *)
Theorem SetWithTTL_below_capacity (c : ResourceCache V) (key : string) (v : V) (ttl now : Z) :
  Z.of_nat (size (entries c)) < maxEntries c ->
  (forall k, k <> key ->
     entries (SetWithTTL range_order c key v ttl now) !! k = entries c !! k)
  /\ size (entries (SetWithTTL range_order c key v ttl now))
     = (if entries c !! key then size (entries c) else S (size (entries c))).
Proof.
  intros Hlt. unfold SetWithTTL. cbn. rewrite evict_below_capacity by done. split.
  - intros k Hk. by rewrite lookup_insert_ne.
  - rewrite map_size_insert. by destruct (entries c !! key).
Qed.

(** [DeletePrefix] removes exactly the entries whose key starts with the
    prefix and returns how many it removed; with the empty prefix it
    removes nothing and returns zero. *)
Theorem DeletePrefix_spec (c : ResourceCache V) (prefix : string) :
  (forall k, entries (fst (DeletePrefix c prefix)) !! k =
     if negb (String.eqb prefix "") && String.prefix prefix k then None
     else entries c !! k)
  /\ snd (DeletePrefix c prefix)
     = Z.of_nat (size (entries c)) - Z.of_nat (size (entries (fst (DeletePrefix c prefix))))
  /\ 0 <= snd (DeletePrefix c prefix)
  /\ DeletePrefix c "" = (c, 0).
Proof.
  split; [|split; [|split; [|done]]].
  - intros k. rewrite DeletePrefix_entries. by destruct (String.eqb prefix "").
  - unfold DeletePrefix. destruct (String.eqb prefix ""); cbn; lia.
  - pose proof (DeletePrefix_size c prefix) as Hsize.
    unfold DeletePrefix in *. destruct (String.eqb prefix ""); cbn in *; lia.
Qed.

(** [Delete] and [Invalidate] make the next [Get] a miss and leave the
    other keys, for [Delete], as they were. *)
Theorem removed_entries_miss (c : ResourceCache V) (key : string) (now : Z) :
  Get (Delete c key) key now = (None, false)
  /\ (forall k, k <> key -> Get (Delete c key) k now = Get c k now)
  /\ (forall k, Get (Invalidate c) k now = (None, false))
  /\ (forall k, Get (Clear c) k now = (None, false))
  /\ size (entries (Invalidate c)) = 0%nat.
Proof.
  unfold Get, Delete, Clear, Invalidate. cbn.
  split; [by rewrite lookup_delete_eq|]. split.
  - intros k Hk. by rewrite lookup_delete_ne.
  - split; [|split]; try (intros k; by rewrite lookup_empty). apply map_size_empty.
Qed.

End CacheMore.

Section CacheMoreExamples.

Import aws.

Lemma listed_order_perm {V : Type} (m : gmap string (CacheEntry V)) :
  listed_order m ≡ₚ map_to_list m.
Proof. done. Qed.

Definition three_sets : list (CacheOp string) :=
  [CSet "a" "1" 10; CSet "b" "2" 20; CSet "c" "3" 30].

Lemma cache_bounded_without_empty_key_witness :
  Forall (fun op => written_key op <> Some "") three_sets
  /\ Z.of_nat (size (entries (cache_run listed_order three_sets
                               (NewResourceCache (Some (mkCacheConfig 0 2))))))
     <= 2.
Proof.
  assert (Forall (fun op => written_key op <> Some "") three_sets) as H.
  { repeat constructor; discriminate. }
  split; [exact H|].
  exact (cache_bounded_without_empty_key listed_order listed_order_perm
           (Some (mkCacheConfig 0 2)) three_sets H).
Defined.

(** A full cache of two entries, ["a"] set at time 10 and ["b"] at 20. *)
Definition two_entries : ResourceCache string :=
  cache_run listed_order [CSet "a" "1" 10; CSet "b" "2" 20]
    (NewResourceCache (Some (mkCacheConfig 0 2))).

Lemma two_entries_oldest :
  forall k' e', entries two_entries !! k' = Some e' -> k' <> "a" ->
    Timestamp (mkCacheEntry "1" 10 (5 * second) (10 + 5 * second)) < Timestamp e'.
Proof.
  intros k' e' He Hk.
  assert (entries two_entries =
          <["b" := mkCacheEntry "2" 20 (5 * second) (20 + 5 * second)]>
            (<["a" := mkCacheEntry "1" 10 (5 * second) (10 + 5 * second)]> ∅)) as E
    by (vm_compute; reflexivity).
  rewrite E in He.
  apply lookup_insert_Some in He as [[<- <-]|[_ He]]; [cbn; lia|].
  apply lookup_insert_Some in He as [[<- _]|[_ He]]; [done|].
  by rewrite lookup_empty in He.
Qed.

Lemma eviction_removes_the_oldest_witness :
  entries (SetWithTTL listed_order two_entries "c" "3" 7 30) !! "a" = None
  /\ entries (SetWithTTL listed_order two_entries "c" "3" 7 30) !! "c"
     = Some (mkCacheEntry "3" 30 7 37).
Proof.
  destruct (eviction_removes_the_oldest listed_order listed_order_perm two_entries
              "c" "3" 7 30 "a" (mkCacheEntry "1" 10 (5 * second) (10 + 5 * second)))
    as (Hnew & Hgone & _).
  - vm_compute. discriminate.
  - vm_compute. reflexivity.
  - discriminate.
  - exact two_entries_oldest.
  - split; [apply Hgone; discriminate|exact Hnew].
Defined.

Lemma overwrite_in_full_cache_evicts_witness :
  entries (SetWithTTL listed_order two_entries "b" "9" 7 30) !! "a" = None
  /\ Z.of_nat (size (entries (SetWithTTL listed_order two_entries "b" "9" 7 30))) = 1.
Proof.
  destruct (overwrite_in_full_cache_evicts listed_order listed_order_perm two_entries
              "b" "9" 7 30 "a" (mkCacheEntry "1" 10 (5 * second) (10 + 5 * second)))
    as (Hgone & Hsize).
  - vm_compute. reflexivity.
  - eexists. vm_compute. reflexivity.
  - vm_compute. reflexivity.
  - discriminate.
  - discriminate.
  - exact two_entries_oldest.
  - split; [exact Hgone|]. rewrite Hsize. reflexivity.
Defined.

Lemma SetWithTTL_below_capacity_witness :
  let c : ResourceCache string := NewResourceCache None in
  Z.of_nat (size (entries c)) < maxEntries c
  /\ size (entries (SetWithTTL listed_order c "a" "1" 5 0)) = 1%nat.
Proof.
  cbv zeta.
  assert (Z.of_nat (size (entries (NewResourceCache (V:=string) None)))
          < maxEntries (NewResourceCache (V:=string) None)) as H by (vm_compute; reflexivity).
  split; [exact H|].
  destruct (SetWithTTL_below_capacity listed_order (NewResourceCache None) "a" "1" 5 0 H)
    as [_ Hsize].
  rewrite Hsize. reflexivity.
Defined.

End CacheMoreExamples.

(* ===================================================================== *)
(** * Further properties of the synchronisation engine                   *)
(* ===================================================================== *)

Section EngineMore.

Import model1 model.

Context {Obj : Type}.

(** On an engine with an accessor and a renderer whose current snapshot is
    empty, as [NewTableData] leaves it, no run of [Refresh] calls ever
    calls [TableNoData], and the current snapshot has no row after it:
    the rows a call renders go to a collection the new snapshot does not
    point to. *)
Theorem engine_never_reports_no_data (fs : list (ListOutcome Obj))
    (t : TableData Obj) (σ : Store) :
  configured t -> snapshot_empty t σ ->
  exists t' σ' ns,
    refreshes fs t σ = Some (t', σ', ns)
    /\ forallb (fun n => negb (is_no_data n)) ns = true
    /\ RowCount σ' (data t') = Some 0.
Proof.
  intros Hcfg Hemp.
  destruct (refreshes_never_no_data fs t σ Hcfg Hemp) as (t' & σ' & ns & E & _ & _ & Hns & Hrows).
  by exists t', σ', ns.
Qed.

(** Every object allocated before a [Refresh] is as it was after it: a
    snapshot handed to a listener or returned by [Peek] is never written
    again.  On success the new current snapshot carries the header the
    renderer gives for the engine's region, and the listeners are called
    once each, in the order they registered. *)
Theorem Refresh_keeps_published_snapshots (fetched : ListOutcome Obj)
    (t : TableData Obj) (σ : Store) :
  configured t -> valid_table σ (data t) ->
  exists o, Refresh fetched t σ = Some o
    /\ extends σ (store o)
    /\ (forall p, valid_table σ p ->
          tables (store o) !! p = tables σ !! p
          /\ table_rows (store o) p = table_rows σ p)
    /\ (forall objects ren, fetched = ListOk objects -> renderer t = Some ren ->
          (header <$> tables (store o) !! data (engine o))
            = Some (RenderHeader ren (region t))
          /\ map (fun n => match n with
                           | TableNoData l _ | TableDataChanged l _
                           | TableLoadFailed l _ => l
                           end) (notified o) = listeners t).
Proof.
  intros [[acc Hacc] [ren Hren]] (td & Htd & [old Hold]).
  assert (forall σ', extends σ σ' ->
            forall p, valid_table σ p ->
              tables σ' !! p = tables σ !! p
              /\ table_rows σ' p = table_rows σ p) as Hframe.
  { intros σ' Hext p Hp. split; [|by apply table_rows_extends].
    destruct Hp as (tp & Htp & _). rewrite Htp. by eapply extends_table. }
  destruct fetched as [objects|err].
  - rewrite (Refresh_ok t σ objects acc ren td old Hacc Hren Htd Hold).
    eexists. split; [done|]. cbn [store engine notified].
    assert (extends σ (mkStore (tables σ ++ [mkTableData (RenderHeader ren (region t))
                                               (length (collections σ)) "" ""])
                               (collections σ ++
                                  [NewRowEvents 10;
                                   rendered_rows ren (region t) (RenderHeader ren (region t))
                                     objects (NewRowEvents (Z.of_nat (length objects)))])))
      as Hext by (split; cbn; by apply prefix_app_r).
    split; [done|]. split; [by apply Hframe|].
    intros objects' ren' _ Hren'. rewrite Hren in Hren'. injection Hren' as <-.
    cbn. rewrite list_lookup_middle by done. split; [done|].
    destruct (Empty _ && negb (Empty old)); unfold notifyNoData, notifyDataChanged; cbn;
      rewrite map_map; apply map_id.
  - unfold Refresh. rewrite Hacc, Hren. eexists. split; [done|]. cbn.
    split; [apply extends_refl|]. split; [done|]. intros ? ? [=].
Qed.

(** [Peek] returns a new struct that points to the same row collection as
    the current snapshot, with the same header, namespace and error; the
    engine and the existing objects are untouched. *)
Theorem Peek_is_a_shallow_clone (t : TableData Obj) (σ : Store) :
  valid_table σ (data t) ->
  exists p σ' td, Peek t σ = Some (p, σ')
    /\ p <> data t
    /\ tables σ !! p = None
    /\ tables σ !! data t = Some td
    /\ tables σ' !! p = Some td
    /\ table_rows σ' p = table_rows σ (data t)
    /\ extends σ σ'.
Proof.
  intros (td & Htd & [rows Hrows]).
  unfold Peek, Clone, alloc_table. rewrite Htd. cbn.
  exists (length (tables σ)), (mkStore (tables σ ++ [td]) (collections σ)), td.
  pose proof (lookup_lt_Some _ _ _ Htd) as Hlt.
  split; [done|]. split; [lia|]. split; [by apply lookup_ge_None_2|]. split; [done|].
  split; [by apply list_lookup_middle|]. split.
  - unfold table_rows. cbn. rewrite list_lookup_middle by done. by rewrite Htd.
  - split; cbn; [by apply prefix_app_r|done].
Qed.

(** [RemoveListener] cuts the first registration of the listener and only
    that one; it undoes an [AddListener] of a listener that was not
    registered, and does nothing for a listener that is not registered. *)
Theorem RemoveListener_first_registration (t : TableData Obj) (l : nat) :
  (l ∉ listeners t -> listeners (RemoveListener (AddListener t l) l) = listeners t)
  /\ (l ∉ listeners t -> listeners (RemoveListener t l) = listeners t)
  /\ (forall before after, listeners t = before ++ l :: after -> l ∉ before ->
        listeners (RemoveListener t l) = before ++ after).
Proof.
  assert (forall before after, l ∉ before ->
            remove_first l (before ++ l :: after) = before ++ after) as Hcut.
  { intros before after Hb. induction before as [|x before IH]; cbn.
    - by rewrite Nat.eqb_refl.
    - apply not_elem_of_cons in Hb as [Hx Hb].
      destruct (Nat.eqb_spec x l) as [->|_]; [done|]. by rewrite IH. }
  split; [|split].
  - intros Hl. cbn. rewrite (Hcut (listeners t) [] Hl). by rewrite app_nil_r.
  - intros Hl. cbn. induction (listeners t) as [|x ls IH]; cbn; [done|].
    apply not_elem_of_cons in Hl as [Hx Hl].
    destruct (Nat.eqb_spec x l) as [->|_]; [done|]. by rewrite IH.
  - intros before after E Hb. cbn. rewrite E. by apply Hcut.
Qed.

End EngineMore.

Section EngineMoreExamples.

Import model1 model.

Lemma example_engine_ready :
  configured (fst example_engine) /\ snapshot_empty (fst example_engine) (snd example_engine).
Proof.
  split; [split; eexists; reflexivity|].
  eexists _, _. split; [reflexivity|]. split; reflexivity.
Qed.

Lemma engine_never_reports_no_data_witness :
  configured (fst example_engine)
  /\ snapshot_empty (fst example_engine) (snd example_engine)
  /\ exists t' σ' ns,
       refreshes [ListOk ["i-1"]; ListOk []; ListErr "x"; ListOk ["broken"]]
         (fst example_engine) (snd example_engine) = Some (t', σ', ns)
       /\ forallb (fun n => negb (is_no_data n)) ns = true.
Proof.
  destruct example_engine_ready as [Hcfg Hemp].
  split; [exact Hcfg|]. split; [exact Hemp|].
  destruct (engine_never_reports_no_data
              [ListOk ["i-1"]; ListOk []; ListErr "x"; ListOk ["broken"]]
              (fst example_engine) (snd example_engine) Hcfg Hemp)
    as (t' & σ' & ns & E & Hns & _).
  exists t', σ', ns. split; [exact E|exact Hns].
Defined.

Lemma Refresh_keeps_published_snapshots_witness :
  configured (fst example_engine)
  /\ valid_table (snd example_engine) (data (fst example_engine))
  /\ exists o, Refresh (ListOk ["i-1"]) (fst example_engine) (snd example_engine) = Some o
       /\ extends (snd example_engine) (store o).
Proof.
  destruct example_engine_ready as [Hcfg Hemp].
  assert (valid_table (snd example_engine) (data (fst example_engine))) as Hvalid.
  { eexists. split; [reflexivity|]. eexists. reflexivity. }
  split; [exact Hcfg|]. split; [exact Hvalid|].
  destruct (Refresh_keeps_published_snapshots (ListOk ["i-1"])
              (fst example_engine) (snd example_engine) Hcfg Hvalid)
    as (o & E & Hext & _).
  exists o. split; [exact E|exact Hext].
Defined.

Lemma Peek_is_a_shallow_clone_witness :
  valid_table (snd example_engine) (data (fst example_engine))
  /\ exists p σ', Peek (fst example_engine) (snd example_engine) = Some (p, σ')
       /\ p <> data (fst example_engine).
Proof.
  assert (valid_table (snd example_engine) (data (fst example_engine))) as Hvalid.
  { eexists. split; [reflexivity|]. eexists. reflexivity. }
  split; [exact Hvalid|].
  destruct (Peek_is_a_shallow_clone (fst example_engine) (snd example_engine) Hvalid)
    as (p & σ' & td & E & Hne & _).
  exists p, σ'. split; [exact E|exact Hne].
Defined.

End EngineMoreExamples.

(* ===================================================================== *)
(** * Further properties of the filter layer                             *)
(* ===================================================================== *)

Section FilterMore.

Import model1 ui.

Context {lower : UnicodeLower}.

#[local] Arguments updateTitleWithFilter : simpl never.
#[local] Arguments showNoData : simpl never.
#[local] Arguments buildHeader : simpl never.
#[local] Arguments build_rows : simpl never.
#[local] Arguments renderData : simpl never.
#[local] Arguments applyFilter : simpl never.

Lemma filter_rows_result (filter : string) (fq : nat) (evs : list RowEvent)
    (σ : Store) (r0 : RowEvents) :
  collections σ !! fq = Some r0 ->
  collections (filter_rows filter fq evs σ) !! fq
    = Some (foldl Add r0 (List.filter (row_matches filter) evs)).
Proof.
  revert σ r0. induction evs as [|re evs IH]; intros σ r0 Hq; cbn; [done|].
  destruct (row_matches filter re); [|by apply IH].
  cbn. apply IH. unfold update_collection. rewrite Hq. cbn.
  apply list_lookup_insert_eq. by eapply lookup_lt_Some.
Qed.

(** With a filter text that is not empty once lower-cased, [applyFilter]
    shows exactly the rows that have a field whose lower-cased value
    contains the lower-cased filter text, in the order of the stored
    snapshot, under the header of the stored snapshot; it shows the "no
    matching resources" message when no row matches.  Lower-casing is
    [strings.ToLower], whatever the Unicode tables map the letters outside
    ASCII to. *)
Theorem applyFilter_shows_matches (σ : Store) (t : Table) (d : nat)
    (td : TableData) (rows : RowEvents) :
  fullData t = Some d ->
  tables σ !! d = Some td -> collections σ !! rowEvents td = Some rows ->
  ToLower (filterText t) <> "" ->
  exists t' σ', applyFilter σ t = Some (t', σ')
    /\ cells (surface t') =
         match List.filter (row_matches (ToLower (filterText t))) (events rows) with
         | [] => [(0, 0, message_cell "No matching resources")]
         | shown => header_writes (sortColName t) 0 (header td)
                    ++ rows_writes (header td) 0 shown
         end.
Proof.
  intros Hd Htd Hrows Hfilter.
  unfold applyFilter. rewrite Hd.
  destruct (String.eqb_spec (ToLower (filterText t)) "") as [E|_]; [done|].
  pose proof (filtered_table_allocated σ (header td) (namespace td)) as Halloc.
  pose proof (NewTableData_extends σ) as Hext1.
  destruct (NewTableData σ) as [filtered σ1] eqn:Enew.
  assert (filtered = length (tables σ)) as -> by (by injection Enew as <- _).
  cbn [snd] in Halloc, Hext1.
  rewrite (extends_table _ _ _ _ Hext1 Htd). cbn [mbind option_bind].
  rewrite Halloc. cbn [tables collections].
  rewrite (lookup_app_l_Some _ _ _ _ Hrows). cbn [mbind option_bind].
  rewrite list_lookup_middle by done. cbn [mbind option_bind rowEvents].
  set (σ2 := mkStore (tables σ ++ [mkTableData (header td) (length (collections σ)) (namespace td) ""])
                     (collections σ ++ [NewRowEvents 10])).
  set (f := ToLower (filterText t)).
  set (σ3 := filter_rows f (length (collections σ)) (events rows) σ2).
  destruct (filter_rows_tables f (length (collections σ)) (events rows) σ2) as [Htabs _].
  fold σ3 in Htabs.
  assert (collections σ3 !! length (collections σ)
          = Some (foldl Add (NewRowEvents 10) (List.filter (row_matches f) (events rows))))
    as Hfrows.
  { apply filter_rows_result. cbn. by apply list_lookup_middle. }
  destruct (renderData_view σ3 t (length (tables σ))
              (mkTableData (header td) (length (collections σ)) (namespace td) "")
              (foldl Add (NewRowEvents 10) (List.filter (row_matches f) (events rows))))
    as (t' & Hrender & _ & Hcells).
  - rewrite Htabs. cbn. by apply list_lookup_middle.
  - done.
  - intros p Hp. rewrite Hd in Hp. injection Hp as <-.
    exists td. rewrite Htabs. cbn. by apply lookup_app_l_Some.
  - rewrite Hrender. cbn. exists t', σ3. split; [done|].
    rewrite Hcells. unfold view_cells, Empty. rewrite foldl_Add_events. cbn.
    by destruct (List.filter (row_matches f) (events rows)).
Qed.

(** Rendering replaces the surface: the cells after [renderData] are the
    view of the snapshot under the table's sort column, whatever cells the
    surface held, and the filter text, the stored snapshot and the update
    flag are as before. *)
Theorem renderData_replaces_surface (σ : Store) (t u : Table) (d : nat) :
  valid_table σ d -> title_ok σ t -> title_ok σ u ->
  sortColName t = sortColName u ->
  exists t' u', renderData (Some d) σ t = Some t'
    /\ renderData (Some d) σ u = Some u'
    /\ cells (surface t') = cells (surface u')
    /\ settings t' = settings t.
Proof.
  intros (td & Htd & [rows Hrows]) Ht Hu Hsort.
  destruct (renderData_view σ t d td rows Htd Hrows Ht) as (t' & Et & Hset & Hct).
  destruct (renderData_view σ u d td rows Htd Hrows Hu) as (u' & Eu & _ & Hcu).
  exists t', u'. split; [done|]. split; [done|]. split; [congruence|done].
Qed.

(** [UpdateUI] when no update is running: it returns, the snapshot is
    stored, the update flag is released, the filter text is kept, and no
    existing object of the store is written. *)
Theorem UpdateUI_stores_and_releases (σ : Store) (t : Table) (d : nat) :
  isUpdating t = false -> valid_table σ d ->
  exists t' σ', UpdateUI (Some d) σ t = Some (t', σ')
    /\ fullData t' = Some d
    /\ isUpdating t' = false
    /\ filterText t' = filterText t
    /\ extends σ σ'.
Proof.
  intros Hup (td & Htd & [rows Hrows]). unfold UpdateUI. rewrite Hup.
  unfold TableEmpty, table_rows. rewrite Htd. cbn [mbind option_bind fmap option_fmap option_map].
  rewrite Hrows. cbn [mbind option_bind fmap option_fmap option_map].
  assert (title_ok σ (with_update t (Some d) true)) as Hok.
  { intros p Hp. cbn in Hp. injection Hp as <-. eauto. }
  destruct (Empty rows).
  - destruct (updateTitleWithFilter_total σ
                (showNoData "No resources found" (with_update t (Some d) true)))
      as (t' & -> & Hset & _).
    { intros p Hp. apply Hok. exact Hp. }
    apply settings_eq in Hset as (Hfull & _ & Hft & _). cbn in Hfull, Hft.
    cbn. eexists _, _. split; [done|]. cbn. rewrite Hfull, Hft.
    split; [done|]. split; [done|]. split; [done|apply extends_refl].
  - cbn [filterText with_update].
    destruct (String.eqb (filterText t) "") eqn:Ef; cbn [negb].
    + destruct (renderData_view σ (with_update t (Some d) true) d td rows Htd Hrows Hok)
        as (t' & -> & Hset & _).
      apply settings_eq in Hset as (Hfull & _ & Hft & _). cbn in Hfull, Hft.
      cbn. eexists _, _. split; [done|]. cbn. rewrite Hfull, Hft.
      split; [done|]. split; [done|]. split; [done|apply extends_refl].
    + destruct (applyFilter_spec σ (with_update t (Some d) true) d eq_refl)
        as (t' & σ' & -> & Hset & Hext & _).
      { exists td. eauto. }
      apply settings_eq in Hset as (Hfull & _ & Hft & _). cbn in Hfull, Hft.
      cbn. eexists _, _. split; [done|]. cbn. rewrite Hfull, Hft. done.
Qed.

(** ** Keystrokes *)

Lemma drop_last_byte_snoc (s : string) (c : ascii) :
  drop_last_byte (String.append s (String c EmptyString)) = s.
Proof.
  induction s as [|x s IH]; [done|]. simpl.
  rewrite IH. destruct s; done.
Qed.

Lemma drop_last_byte_app (s u : string) :
  u <> "" -> drop_last_byte (String.append s u) = String.append s (drop_last_byte u).
Proof.
  intros Hu. induction s as [|x s IH]; [done|]. simpl.
  rewrite IH. destruct (String.append s u) eqn:E; [|done].
  destruct s; [|done]. simpl in E. done.
Qed.

(** Backspace removes the last byte of the filter text, not the last
    character: after a rune key and a backspace the filter text is the old
    text followed by the rune's encoding without its last byte, so a
    one-byte rune is undone and a longer one leaves its leading bytes. *)
Theorem backspace_removes_last_byte (σ : Store) (t : Table) (d : nat) (utf8 : string) :
  fullData t = Some d -> valid_table σ d -> utf8 <> "" ->
  exists t1 σ1 t2 σ2,
    handleFilterInput (KeyRune utf8) σ t = Some (t1, σ1)
    /\ filterText t1 = String.append (filterText t) utf8
    /\ handleFilterInput KeyBackspace σ1 t1 = Some (t2, σ2)
    /\ filterText t2 = String.append (filterText t) (drop_last_byte utf8).
Proof.
  intros Hd Hvalid Hu. cbn [handleFilterInput].
  destruct (applyFilter_spec σ (with_filter t (filterText t +:+ utf8) (filterActive t)) d Hd Hvalid)
    as (t1 & σ1 & E1 & Hset1 & Hext1 & _).
  apply settings_eq in Hset1 as (Hd1 & _ & Hft1 & _). cbn in Hd1, Hft1.
  rewrite Hd in Hd1.
  destruct (applyFilter_spec σ1 (with_filter t1 (drop_last_byte (filterText t1)) (filterActive t1))
              d Hd1 (valid_table_extends _ _ _ Hext1 Hvalid))
    as (t2 & σ2 & E2 & Hset2 & _).
  apply settings_eq in Hset2 as (_ & _ & Hft2 & _). cbn in Hft2.
  exists t1, σ1, t2, σ2. rewrite E1, E2.
  split; [done|]. split; [done|]. split; [done|].
  rewrite Hft2, Hft1. by apply drop_last_byte_app.
Qed.

(** ** Sorting *)

Lemma find_column_position (names : string) (h : Header) (k : Z) (i : nat) :
  NoDup (map Name h) -> map Name h !! i = Some names ->
  find_column names k h = k + Z.of_nat i.
Proof.
  revert k i. induction h as [|c h IH]; intros k i Hnd Hi; [done|].
  cbn in Hnd, Hi |- *. apply NoDup_cons in Hnd as [Hfresh Hnd].
  destruct i as [|i]; cbn in Hi.
  - injection Hi as <-. rewrite String.eqb_refl. lia.
  - destruct (String.eqb_spec (Name c) names) as [E|_].
    + exfalso. apply Hfresh. rewrite E. by eapply list_elem_of_lookup_2.
    + rewrite (IH _ i) by done. lia.
Qed.

Lemma find_column_missing (name : string) (h : Header) (k : Z) :
  name ∉ map Name h -> find_column name k h = -1.
Proof.
  revert k. induction h as [|c h IH]; intros k Hn; [done|].
  cbn in Hn |- *. apply not_elem_of_cons in Hn as [Hne Hn].
  destruct (String.eqb_spec (Name c) name) as [E|_]; [done|]. by apply IH.
Qed.

Lemma sortHandler_next (t : Table) (cur : Z) :
  tblHeader t <> [] ->
  find_column (sortColName t) 0 (tblHeader t) = cur -> -1 <= cur ->
  tblHeader (sortHandler t) = tblHeader t
  /\ map Name (tblHeader t) !! Z.to_nat ((cur + 1) mod Z.of_nat (length (tblHeader t)))
     = Some (sortColName (sortHandler t)).
Proof.
  intros Hne Hcur Hge. unfold sortHandler.
  destruct (tblHeader t) as [|c0 h0] eqn:Eh; [done|]. rewrite <- Eh in *.
  rewrite Hcur.
  assert (0 < Z.of_nat (length (tblHeader t))) as Hlen by (rewrite Eh; cbn; lia).
  pose proof (Z.mod_pos_bound (cur + 1) _ Hlen) as Hmod.
  destruct (lookup_lt_is_Some_2 (tblHeader t)
              (Z.to_nat ((cur + 1) mod Z.of_nat (length (tblHeader t))))) as [c Hc]; [lia|].
  rewrite Hc. cbn. split; [done|]. by rewrite list_lookup_fmap, Hc.
Qed.

(** [sortHandler] cycles through the columns: with distinct column names
    and no sort column chosen yet, the [k+1]-th trigger selects column
    [k mod n] of the [n] columns, so it walks the header in order and
    wraps around. *)
Theorem sortHandler_cycles (t : Table) (k : nat) :
  tblHeader t <> [] ->
  NoDup (map Name (tblHeader t)) ->
  sortColName t ∉ map Name (tblHeader t) ->
  tblHeader (Nat.iter (S k) sortHandler t) = tblHeader t
  /\ map Name (tblHeader t) !! (k mod length (tblHeader t))%nat
     = Some (sortColName (Nat.iter (S k) sortHandler t)).
Proof.
  intros Hne Hnd Hfresh.
  assert (length (tblHeader t) <> 0%nat) as Hlen by (by destruct (tblHeader t)).
  induction k as [|k [IHh IHs]].
  - cbn [Nat.iter].
    destruct (sortHandler_next t (-1) Hne (find_column_missing _ _ 0 Hfresh)) as [Hh Hs]; [lia|].
    split; [done|]. rewrite Nat.Div0.mod_0_l.
    rewrite Z.mod_0_l in Hs by lia. exact Hs.
  - change (Nat.iter (S (S k)) sortHandler t)
      with (sortHandler (Nat.iter (S k) sortHandler t)).
    set (u := Nat.iter (S k) sortHandler t) in *.
    destruct (sortHandler_next u (Z.of_nat (k mod length (tblHeader t)))) as [Hh Hs].
    + by rewrite IHh.
    + rewrite IHh. rewrite (find_column_position _ _ 0 (k mod length (tblHeader t))); [lia|done..].
    + lia.
    + rewrite IHh in Hh, Hs. split; [done|].
      rewrite <- Hs. f_equal.
      rewrite <- (Nat2Z.inj_add _ 1), <- Nat2Z.inj_mod, Nat2Z.id.
      rewrite Nat.Div0.add_mod_idemp_l. f_equal. lia.
Qed.

End FilterMore.

Section FilterMoreExamples.

Import model1 ui.

#[local] Existing Instance unmapped.

Definition demo_loaded : Table :=
  mkTable (mkSurface [] TitleNone (0, 0)) "ec2/instance" None [] "" "RUN" true
    (Some 0%nat) false.

Lemma demo_store_valid : valid_table demo_store 0.
Proof. eexists. split; [reflexivity|]. eexists. reflexivity. Qed.

(** A lower-casing of one letter outside ASCII: the two bytes of ["É"]
    become those of ["é"], as [unicode.ToLower] has it. *)
Fixpoint lower_e_acute (after_c3 : bool) (s : string) : string :=
  match s with
  | EmptyString => EmptyString
  | String c s' =>
      if after_c3 && Ascii.eqb c (ascii_of_nat 137)
      then String (ascii_of_nat 169) (lower_e_acute false s')
      else String c (lower_e_acute (Ascii.eqb c (ascii_of_nat 195)) s')
  end.

Definition latin_lower : UnicodeLower := lower_e_acute false.

Definition cafe_store : Store :=
  mkStore
    [mkTableData demo_header 0 "eu-west-3" ""]
    [Add (Add (NewRowEvents 2)
            (NewRowEvent EventAdd (mkRow "i-1" ["café"; "running"])))
         (NewRowEvent EventAdd (mkRow "i-2" ["bar"; "stopped"]))].

Definition cafe_table : Table :=
  mkTable (mkSurface [] TitleNone (0, 0)) "ec2/instance" None [] "" "É" true
    (Some 0%nat) false.

Lemma applyFilter_shows_matches_witness :
  fullData cafe_table = Some 0%nat
  /\ ToLower (lower := latin_lower) (filterText cafe_table) = "é"
  /\ exists t' σ', applyFilter (lower := latin_lower) cafe_store cafe_table = Some (t', σ')
       /\ map (fun c => Text (snd c)) (cells (surface t'))
          = ["NAME"; "STATE"; "café"; "running"].
Proof.
  split; [reflexivity|]. split; [reflexivity|].
  destruct (applyFilter_shows_matches (lower := latin_lower) cafe_store cafe_table 0
              (mkTableData demo_header 0 "eu-west-3" "") _ eq_refl eq_refl eq_refl)
    as (t' & σ' & E & Hcells); [discriminate|].
  exists t', σ'. split; [exact E|]. rewrite Hcells. reflexivity.
Defined.

Lemma renderData_replaces_surface_witness :
  valid_table demo_store 0
  /\ exists t' u', renderData (Some 0%nat) demo_store demo_loaded = Some t'
       /\ renderData (Some 0%nat) demo_store
            (with_surface demo_loaded
               (mkSurface [(5, 5, NewTableCell "stale")] TitleNone (0, 0))) = Some u'
       /\ cells (surface t') = cells (surface u').
Proof.
  split; [exact demo_store_valid|].
  destruct (renderData_replaces_surface demo_store demo_loaded
              (with_surface demo_loaded
                 (mkSurface [(5, 5, NewTableCell "stale")] TitleNone (0, 0))) 0
              demo_store_valid) as (t' & u' & Et & Eu & Hc & _).
  - intros p Hp. injection Hp as <-. eexists. reflexivity.
  - intros p Hp. injection Hp as <-. eexists. reflexivity.
  - reflexivity.
  - exists t', u'. split; [exact Et|]. split; [exact Eu|exact Hc].
Defined.

Lemma UpdateUI_stores_and_releases_witness :
  isUpdating demo_loaded = false /\ valid_table demo_store 0
  /\ exists t' σ', UpdateUI (Some 0%nat) demo_store demo_loaded = Some (t', σ')
       /\ fullData t' = Some 0%nat /\ isUpdating t' = false.
Proof.
  split; [reflexivity|]. split; [exact demo_store_valid|].
  destruct (UpdateUI_stores_and_releases demo_store demo_loaded 0 eq_refl demo_store_valid)
    as (t' & σ' & E & Hd & Hup & _).
  exists t', σ'. split; [exact E|]. split; [exact Hd|exact Hup].
Defined.

Lemma backspace_removes_last_byte_witness :
  fullData demo_loaded = Some 0%nat /\ valid_table demo_store 0
  /\ exists t1 σ1 t2 σ2,
       handleFilterInput (KeyRune "é") demo_store demo_loaded = Some (t1, σ1)
       /\ handleFilterInput KeyBackspace σ1 t1 = Some (t2, σ2)
       /\ String.length (filterText t2) = 4%nat.
Proof.
  split; [reflexivity|]. split; [exact demo_store_valid|].
  destruct (backspace_removes_last_byte demo_store demo_loaded 0 "é" eq_refl demo_store_valid)
    as (t1 & σ1 & t2 & σ2 & E1 & _ & E2 & Hft); [discriminate|].
  exists t1, σ1, t2, σ2. split; [exact E1|]. split; [exact E2|].
  rewrite Hft. reflexivity.
Defined.

Definition demo_sorting : Table :=
  mkTable (mkSurface [] TitleNone (0, 0)) "ec2/instance" None demo_header "" "" false
    None false.

Lemma sortHandler_cycles_witness :
  tblHeader demo_sorting <> []
  /\ sortColName (Nat.iter 1 sortHandler demo_sorting) = "NAME"
  /\ sortColName (Nat.iter 2 sortHandler demo_sorting) = "STATE"
  /\ map Name (tblHeader demo_sorting) !! (2 mod 2)%nat
     = Some (sortColName (Nat.iter 3 sortHandler demo_sorting)).
Proof.
  assert (tblHeader demo_sorting <> []) as Hne by discriminate.
  split; [exact Hne|]. split; [reflexivity|]. split; [reflexivity|].
  refine (proj2 (sortHandler_cycles demo_sorting 2 Hne _ _)).
  - repeat constructor; cbn; rewrite ?elem_of_cons, ?elem_of_nil; intuition discriminate.
  - cbn. rewrite !elem_of_cons, elem_of_nil. intuition discriminate.
Defined.

End FilterMoreExamples.

(* ===================================================================== *)
(** * Properties of Watch, Stop and the component stack                  *)
(* ===================================================================== *)

Section WatchProperties.

Import model1 model.

Context {Obj : Type}.

(** [Watch] cancels the context of the previous watch, if any, and makes a
    new one.  When the first fetch fails it returns the error, calls every
    listener's [TableLoadFailed] once, in registration order, leaves the
    engine and the store as they were and does not start the loop.  When
    the fetch succeeds it returns no error and starts the loop under the
    new context. *)
Theorem Watch_first_refresh (fetched : ListOutcome Obj) (w : Watching Obj) (σ : Store) :
  configured (table w) -> valid_table σ (data (table w)) ->
  exists out, Watch fetched w σ = Some out
    /\ cancelFn (watching out) = Some (contexts w)
    /\ (forall ctx, cancelFn w = Some ctx -> ctx ∈ cancelled (watching out))
    /\ (forall err, fetched = ListErr err ->
          watch_returned out = Some (ListFailed err)
          /\ watch_notified out
             = map (fun l => TableLoadFailed l (ListFailed err)) (listeners (table w))
          /\ loop_started out = None
          /\ table (watching out) = table w
          /\ watch_store out = σ)
    /\ (forall objects, fetched = ListOk objects ->
          watch_returned out = None
          /\ loop_started out = Some (contexts w)).
Proof.
  intros Hcfg Hvalid.
  assert (forall ctx (l : list nat),
            cancelFn w = Some ctx ->
            ctx ∈ match cancelFn w with Some c => l ++ [c] | None => l end) as Hcancel.
  { intros ctx l ->. apply elem_of_app. right. by apply list_elem_of_singleton. }
  destruct fetched as [objects|err].
  - destruct Hcfg as [[acc Hacc] [ren Hren]]. destruct Hvalid as (td & Htd & [old Hold]).
    unfold Watch. rewrite (Refresh_ok (table w) σ objects acc ren td old Hacc Hren Htd Hold).
    cbn. eexists. split; [done|]. cbn.
    split; [done|]. split; [intros ctx Hctx; by apply Hcancel|]. split; [intros ? [=]|]. done.
  - destruct Hcfg as [[acc Hacc] [ren Hren]].
    unfold Watch, Refresh. rewrite Hacc, Hren. cbn. eexists. split; [done|]. cbn.
    split; [done|]. split; [intros ctx Hctx; by apply Hcancel|]. split; [|intros ? [=]].
    intros err' [= <-]. done.
Qed.

(** [Stop] cancels the running watch and forgets it; a second [Stop], or a
    [Stop] on an engine that was never watched, changes nothing. *)
Theorem Stop_is_idempotent (w : Watching Obj) :
  Stop (Stop w) = Stop w
  /\ cancelFn (Stop w) = None
  /\ table (Stop w) = table w
  /\ (forall ctx, cancelFn w = Some ctx -> cancelled (Stop w) = cancelled w ++ [ctx])
  /\ (cancelFn w = None -> Stop w = w).
Proof.
  unfold Stop. destruct (cancelFn w) as [ctx|] eqn:E; cbn.
  - split; [done|]. split; [done|]. split; [done|]. split; [|done].
    by intros ? [= <-].
  - rewrite E. by repeat split.
Qed.

End WatchProperties.

Section WatchExamples.

Import model1 model.

Lemma Watch_first_refresh_witness :
  let w := mkWatching (fst example_engine) (Some 3%nat) [] 4 in
  configured (table w) /\ valid_table (snd example_engine) (data (table w))
  /\ exists out, Watch (ListErr "denied") w (snd example_engine) = Some out
       /\ cancelled (watching out) = [3%nat]
       /\ watch_notified out = [TableLoadFailed 7 (ListFailed "denied")]
       /\ loop_started out = None.
Proof.
  cbv zeta.
  destruct example_engine_ready as [Hcfg _].
  assert (valid_table (snd example_engine) (data (fst example_engine))) as Hvalid.
  { eexists. split; [reflexivity|]. eexists. reflexivity. }
  split; [exact Hcfg|]. split; [exact Hvalid|].
  destruct (Watch_first_refresh (ListErr "denied")
              (mkWatching (fst example_engine) (Some 3%nat) [] 4) (snd example_engine)
              Hcfg Hvalid) as (out & E & _ & _ & Herr & _).
  destruct (Herr "denied" eq_refl) as (_ & Hn & Hl & _).
  exists out. split; [exact E|].
  split; [|split; [exact Hn|exact Hl]].
  vm_compute in E. injection E as <-. reflexivity.
Defined.

End WatchExamples.

Section StackProperties.

Import stack.

Lemma stack_eta (s : Stack) : mkStack (components s) (listeners s) = s.
Proof. by destruct s. Qed.

Lemma Empty_snoc (cs : list Component) (c : Component) (ls : list nat) :
  Empty (mkStack (cs ++ [c]) ls) = false.
Proof.
  unfold Empty. cbn [components]. rewrite length_app. cbn [length].
  apply Z.eqb_neq. lia.
Qed.

Lemma Top_last (s : Stack) : Top s = last (components s).
Proof. unfold Top, Empty. by destruct (components s). Qed.

(** [Push] then [Pop] gives back the pushed component and the stack as it
    was.  The push stops the component that was on top; the pop stops the
    pushed one and tells every listener which component is on top again,
    but does not restart it. *)
Theorem Push_then_Pop (s : Stack) (c : Component) :
  let pushed := Push s c in
  let popped := Pop (fst pushed) in
  fst (fst popped) = (Some c, true)
  /\ snd (fst popped) = s
  /\ snd pushed =
       match Top s with Some top => [Stopped top] | None => [] end
       ++ concat (map (fun l => [StackPushed l c; StackTop l c]) (listeners s))
  /\ snd popped =
       Stopped c ::
       concat (map (fun l => StackPopped l c (Top s) ::
                             match Top s with Some n => [StackTop l n] | None => [] end)
                 (listeners s)).
Proof.
  cbv zeta. unfold Push, Pop. cbn [fst snd components listeners].
  rewrite Empty_snoc, last_snoc, removelast_last. cbn [fst snd].
  rewrite stack_eta. done.
Qed.

Definition stopped (evs : list StackEvent) : list Component :=
  omap (fun e => match e with Stopped c => Some c | _ => None end) evs.

Lemma stopped_app (a b : list StackEvent) : stopped (a ++ b) = stopped a ++ stopped b.
Proof. unfold stopped. apply omap_app. Qed.

Lemma stopped_notifications {A} (f : nat -> A -> list StackEvent) (ls : list nat) (x : A) :
  (forall l, stopped (f l x) = []) -> stopped (concat (map (fun l => f l x) ls)) = [].
Proof.
  intros Hf. induction ls as [|l ls IH]; cbn; [done|].
  by rewrite stopped_app, Hf, IH.
Qed.

Lemma pops_all (cs : list Component) (ls : list nat) :
  components (fst (pops (length cs) (mkStack cs ls))) = []
  /\ listeners (fst (pops (length cs) (mkStack cs ls))) = ls
  /\ stopped (snd (pops (length cs) (mkStack cs ls))) = rev cs.
Proof.
  induction cs as [|c cs IH] using rev_ind; [done|].
  rewrite length_app. cbn [length]. rewrite Nat.add_1_r. cbn [pops].
  unfold Pop. rewrite Empty_snoc. cbn [components listeners].
  rewrite last_snoc, removelast_last.
  destruct (pops (length cs) (mkStack cs ls)) as [s'' evs'] eqn:E.
  cbn [fst snd] in IH |- *. destruct IH as (Hc & Hl & Hs).
  split; [done|]. split; [done|].
  rewrite rev_app_distr. cbn [rev app].
  change (stopped (Stopped c :: ?x ++ evs')) with (c :: stopped (x ++ evs')).
  rewrite stopped_app, Hs. f_equal.
  rewrite (stopped_notifications
             (fun l n => StackPopped l c n :: match n with Some m => [StackTop l m] | None => [] end)
             ls (Top (mkStack cs ls))); [done|].
  intros l. by destruct (Top (mkStack cs ls)).
Qed.

(** [Clear] leaves no component, keeps the listeners, and stops every
    component exactly once, from the top of the stack down. *)
Theorem Clear_stops_top_down (s : Stack) :
  components (fst (Clear s)) = []
  /\ listeners (fst (Clear s)) = listeners s
  /\ stopped (snd (Clear s)) = rev (components s).
Proof.
  unfold Clear. destruct s as [cs ls]. cbn [components listeners]. apply pops_all.
Qed.

(** [Previous] is the component under the top one, the top one itself when
    it is alone, and nil on an empty stack; [Flatten] lists the names from
    the bottom up. *)
Theorem Previous_and_Flatten (cs : list Component) (below top : Component) (ls : list nat) :
  Previous (mkStack (cs ++ [below; top]) ls) = Some below
  /\ Previous (mkStack [top] ls) = Some top
  /\ Previous (mkStack [] ls) = None
  /\ Flatten (fst (Push (mkStack cs ls) top)) = map comp_name cs ++ [comp_name top].
Proof.
  split; [|split; [done|split; [done|]]].
  - unfold Previous, Empty, IsLast. cbn [components]. rewrite length_app. cbn [length].
    destruct (Z.eqb_spec (Z.of_nat (length cs + 2)) 0) as [?|_]; [lia|].
    destruct (Z.eqb_spec (Z.of_nat (length cs + 2)) 1) as [?|_]; [lia|].
    replace (length cs + 2 - 2)%nat with (length cs) by lia.
    by rewrite list_lookup_middle.
  - unfold Flatten, Push. cbn. by rewrite map_app.
Qed.

End StackProperties.
